(** * Injecto: the directive processing engine of [src/processing.py]

    A shallow embedding of [deep_merge], [get_value_by_path],
    [format_value_for_file], [load_and_merge_data] and [process_files],
    followed by the properties the specification states about them.

    Conventions of the embedding.
    - Text is [string]; a character is an [ascii] read as a code point
      below 256 (the Latin-1 range of [str]), so the text of a file is one
      whose characters all lie in that range.  The character classes of [re]
      and of [str.strip] are those Python uses on these code points.
    - A Python [dict] is an association list in insertion order with string
      keys; [json.dumps] and the iteration of [deep_merge] follow that order.
    - [deep_merge] and [load_and_merge_data] are given twice: on objects, as
      the code runs them (module [Heap]: addresses, stores in place,
      [copy.deepcopy] with its memo), and on trees, the values the objects
      stand for.  The two agree when no dictionary and no list is shared.
    - The [logger] calls of [get_value_by_path] and of the loop over the
      files in [process_files], with the closing record, are recorded in a
      list of [log_record]s, oldest first.
    - The filesystem is the list of files [rglob] yields, each with the
      outcome of making the directory of its output path, of reading it and
      of writing its output path. *)

From Stdlib Require Import ZArith Ascii String DecimalString Bool Lia.
From stdpp Require Import base option list strings.

Set Warnings "-register-all,-notation-for-abbreviation".

Local Open Scope string_scope.
Local Open Scope list_scope.

(** Let [simpl] compute the concatenation of strings. *)
#[local] Arguments String.append !_ _ / : simpl nomatch.

(** ** Python strings *)

Module PyStr.

Definition nl : string := String "010" EmptyString.
Definition tab : string := String "009" EmptyString.

Definition in_range (lo hi n : nat) : bool := ((lo <=? n) && (n <=? hi))%nat.

(** [str.isspace] on one character: TAB, LF, VT, FF, CR, FS, GS, RS, US,
    SPACE, NEL (U+0085) and NO-BREAK SPACE (U+00A0).  The class [\s] of
    [re] and the characters [str.strip] removes are the same set. *)
Definition is_space (c : ascii) : bool :=
  let n := nat_of_ascii c in
  in_range 9 13 n || in_range 28 32 n || (n =? 133)%nat || (n =? 160)%nat.

(** A numeric character ([str.isdecimal], [str.isdigit] or
    [str.isnumeric]): the digits, the superscripts one, two and three, and
    the three vulgar fractions. *)
Definition is_digit (c : ascii) : bool :=
  let n := nat_of_ascii c in
  in_range 48 57 n || in_range 178 179 n || (n =? 185)%nat || in_range 188 190 n.

(** [str.isalpha]: the ASCII letters, the two ordinal indicators, the micro
    sign and the Latin-1 letters (all of U+00C0..U+00FF but the
    multiplication and the division sign). *)
Definition is_alpha (c : ascii) : bool :=
  let n := nat_of_ascii c in
  in_range 65 90 n || in_range 97 122 n
  || (n =? 170)%nat || (n =? 181)%nat || (n =? 186)%nat
  || in_range 192 214 n || in_range 216 246 n || in_range 248 255 n.

(** The class [\w] of [re] on [str]: an alphanumeric character
    ([str.isalnum]) or the underscore. *)
Definition is_word (c : ascii) : bool :=
  is_alpha c || is_digit c || Ascii.eqb c "_".

(** [[\w.-]] *)
Definition is_key_char (c : ascii) : bool :=
  is_word c || Ascii.eqb c "." || Ascii.eqb c "-".

(** [.] (without DOTALL) *)
Definition is_dot (c : ascii) : bool := negb (Ascii.eqb c "010").

(** [[:=]] *)
Definition is_assign (c : ascii) : bool := Ascii.eqb c ":" || Ascii.eqb c "=".

(** [s.lstrip()] *)
Fixpoint lstrip (s : string) : string :=
  match s with
  | String c s' => if is_space c then lstrip s' else s
  | EmptyString => EmptyString
  end.

(** [s.rstrip()] *)
Fixpoint rstrip (s : string) : string :=
  match s with
  | String c s' =>
      match rstrip s' with
      | EmptyString => if is_space c then EmptyString else String c EmptyString
      | r => String c r
      end
  | EmptyString => EmptyString
  end.

(** [s.strip()] *)
Definition strip (s : string) : string := rstrip (lstrip s).

(** [s.startswith(p)] *)
Fixpoint startswith (p s : string) : bool :=
  match p, s with
  | EmptyString, _ => true
  | String a p', String b s' => Ascii.eqb a b && startswith p' s'
  | String _ _, EmptyString => false
  end.

(** [s.endswith(p)]: [p] is [s] itself or ends what follows the first
    character of [s]. *)
Fixpoint endswith (p s : string) : bool :=
  String.eqb p s
  || match s with
     | String _ s' => endswith p s'
     | EmptyString => false
     end.

(** [s[n:]] *)
Fixpoint drop_str (n : nat) (s : string) : string :=
  match n, s with
  | O, _ => s
  | S n', String _ s' => drop_str n' s'
  | S _, EmptyString => EmptyString
  end.

(** [s.split(sep)] for a one-character separator: never empty. *)
Fixpoint split (sep : ascii) (s : string) : list string :=
  match s with
  | EmptyString => [EmptyString]
  | String c s' =>
      if Ascii.eqb c sep then EmptyString :: split sep s'
      else match split sep s' with
           | w :: ws => String c w :: ws
           | [] => [String c EmptyString]
           end
  end.

(** Truth value of a string: [bool(s)]. *)
Definition nonempty (s : string) : bool :=
  match s with EmptyString => false | String _ _ => true end.

(** The longest prefix of [s] made of characters of class [p], and what
    follows it. *)
Fixpoint span (p : ascii → bool) (s : string) : string * string :=
  match s with
  | String c s' =>
      if p c then let '(a, b) := span p s' in (String c a, b)
      else (EmptyString, s)
  | EmptyString => (EmptyString, EmptyString)
  end.

Fixpoint all_chars (p : ascii → bool) (s : string) : bool :=
  match s with
  | String c s' => p c && all_chars p s'
  | EmptyString => true
  end.

End PyStr.
Import PyStr.

(** ** The fragment of [re] the program uses

    A backtracking matcher in continuation-passing style: the continuation
    receives the text the expression consumed, the text of group 1 if it
    took part, and the rest of the subject.  Alternatives are tried in the
    order of Python's engine (greedy first), so the first success is the
    match [re] reports. *)

Module Re.

Inductive regex : Type :=
| Chr (c : ascii)               (* a literal character *)
| Lit (s : string)              (* a literal word *)
| Cls (p : ascii → bool)        (* one character of a class *)
| Star (p : ascii → bool)       (* class*, greedy *)
| Plus (p : ascii → bool)       (* class+, greedy *)
| Opt (r : regex)               (* r?, greedy *)
| Seq (r1 r2 : regex)
| Grp (r : regex).              (* ( r ), capturing group 1 *)

Record match_obj : Type := MatchObj {
  m_pre : string;               (* subject before the match *)
  m_text : string;              (* group(0) *)
  m_group1 : option string;     (* group(1) *)
  m_post : string               (* subject after the match *)
}.

Definition cont (R : Type) : Type := string → option string → string → option R.

Definition orelse {R} (a b : option R) : option R :=
  match a with Some x => Some x | None => b end.

Fixpoint lit {R} (w s : string) (k : string → option R) : option R :=
  match w, s with
  | EmptyString, _ => k s
  | String a w', String b s' => if Ascii.eqb a b then lit w' s' k else None
  | String _ _, EmptyString => None
  end.

(** Greedy repetition of a class: take one more character if possible,
    and fall back to stopping here when the rest cannot match. *)
Fixpoint star {R} (p : ascii → bool) (s : string)
    (k : string → string → option R) : option R :=
  match s with
  | String c s' =>
      if p c
      then orelse (star p s' (λ t rest, k (String c t) rest)) (k EmptyString s)
      else k EmptyString s
  | EmptyString => k EmptyString s
  end.

Fixpoint m {R} (r : regex) (s : string) (k : cont R) : option R :=
  match r with
  | Chr c =>
      match s with
      | String c' s' => if Ascii.eqb c c' then k (String c' EmptyString) None s' else None
      | EmptyString => None
      end
  | Lit w => lit w s (λ rest, k w None rest)
  | Cls p =>
      match s with
      | String c s' => if p c then k (String c EmptyString) None s' else None
      | EmptyString => None
      end
  | Star p => star p s (λ t rest, k t None rest)
  | Plus p =>
      match s with
      | String c s' =>
          if p c then star p s' (λ t rest, k (String c t) None rest) else None
      | EmptyString => None
      end
  | Opt r => orelse (m r s k) (k EmptyString None s)
  | Seq r1 r2 =>
      m r1 s (λ t1 g1 s1,
        m r2 s1 (λ t2 g2 s2, k (t1 +:+ t2) (orelse g2 g1) s2))
  | Grp r => m r s (λ t _ rest, k t (Some t) rest)
  end.

(** [re.match(r, s)]: a match at position 0 only. *)
Definition re_match (r : regex) (s : string) : option match_obj :=
  m r s (λ t g rest, Some (MatchObj EmptyString t g rest)).

Definition shift (c : ascii) (mo : match_obj) : match_obj :=
  MatchObj (String c (m_pre mo)) (m_text mo) (m_group1 mo) (m_post mo).

(** [re.search(r, s)]: the match at the leftmost position that has one;
    the position after the last character is tried too. *)
Fixpoint re_search (r : regex) (s : string) : option match_obj :=
  match re_match r s with
  | Some mo => Some mo
  | None =>
      match s with
      | String c s' => shift c <$> re_search r s'
      | EmptyString => None
      end
  end.

(** [re.sub(r, repl, s, 1)] for a literal replacement: only the first
    match is replaced. *)
Definition re_sub1 (r : regex) (repl s : string) : string :=
  match re_search r s with
  | Some mo => m_pre mo +:+ repl +:+ m_post mo
  | None => s
  end.

(** [mo.group(1)] of an optional match. *)
Definition group1 (mo : option match_obj) : option string :=
  mo ≫= m_group1.

Declare Scope regex_scope.
Delimit Scope regex_scope with re.
Bind Scope regex_scope with regex.
Infix "⋅" := Seq (at level 41, right associativity) : regex_scope.

End Re.
Import Re.

(** The patterns of [process_files], in source order.  [re.match] is
    anchored at position 0, where the leading [^] of two of them holds. *)

(** r"#\s*@section\s+([\w.-]+)\s+begin" *)
Definition section_begin_re : regex :=
  (Chr "#" ⋅ Star is_space ⋅ Lit "@section" ⋅ Plus is_space ⋅
   Grp (Plus is_key_char) ⋅ Plus is_space ⋅ Lit "begin")%re.

(** r"#\s*@section\s+([\w.-]+)\s+end" *)
Definition section_end_re : regex :=
  (Chr "#" ⋅ Star is_space ⋅ Lit "@section" ⋅ Plus is_space ⋅
   Grp (Plus is_key_char) ⋅ Plus is_space ⋅ Lit "end")%re.

(** The pattern [^(\s*] [)]: the leading whitespace as group 1. *)
Definition indent_re : regex := Grp (Star is_space).

(** r"#\s?" *)
Definition hash_re : regex := (Chr "#" ⋅ Opt (Cls is_space))%re.

(** r"#\s*@param\s+([\w.-]+)" *)
Definition param_re : regex :=
  (Chr "#" ⋅ Star is_space ⋅ Lit "@param" ⋅ Plus is_space ⋅
   Grp (Plus is_key_char))%re.

(** r"^(\s*(?:-\s+)?[\w.-]+\s*[:=])": the structural prefix as group 1. *)
Definition line_structure_re : regex :=
  Grp (Star is_space ⋅ Opt (Chr "-" ⋅ Plus is_space) ⋅ Plus is_key_char ⋅
       Star is_space ⋅ Cls is_assign)%re.

(** The pattern [(\s*#.*] [)]: optional whitespace, a hash sign and the
    rest of the line, as group 1. *)
Definition trailing_comment_re : regex :=
  Grp (Star is_space ⋅ Chr "#" ⋅ Star is_dot)%re.

(** ** The value tree

    What [yaml.safe_load] returns, as a value: [None], a [bool], an [int], a
    [float] (carried by the text of its [repr]), a [str], a sequence, a
    mapping with string keys, or one of the other objects the safe loader
    builds (a [date], a [datetime], [bytes], a [set]), carried by its truth
    value and the text of its [str].  A tuple (the loader builds tuples inside
    the list of an ordered mapping) is indexed, merged and serialized as a
    list is, and is carried as a sequence.

    A value has no identity.  The objects [deep_merge] changes in place are
    modelled in the module [Heap] below; the functions on values are those
    of the program when no mapping is shared between two places. *)

Inductive yaml_value : Type :=
| VNone
| VBool (b : bool)
| VInt (n : Z)
| VFloat (repr : string)
| VStr (s : string)
| VOther (truth : bool) (text : string)
| VList (l : list yaml_value)
| VDict (d : list (string * yaml_value)).

Notation dict := (list (string * yaml_value)).

(** [d[key]]; [None] stands for [KeyError]. *)
Fixpoint dict_get {V : Type} (key : string) (d : list (string * V)) : option V :=
  match d with
  | [] => None
  | (k, v) :: d' => if String.eqb k key then Some v else dict_get key d'
  end.

(** [d[key] = v]: an existing key keeps its place, a new one goes last. *)
Fixpoint dict_set {V : Type} (key : string) (v : V) (d : list (string * V))
    : list (string * V) :=
  match d with
  | [] => [(key, v)]
  | (k, w) :: d' =>
      if String.eqb k key then (k, v) :: d' else (k, w) :: dict_set key v d'
  end.

(** [d.setdefault(key, dflt)]: the value under [key], and the dictionary
    after the call. *)
Definition setdefault (key : string) (dflt : yaml_value) (d : dict) : yaml_value * dict :=
  match dict_get key d with
  | Some v => (v, d)
  | None => (dflt, dict_set key dflt d)
  end.

Definition is_dict (v : yaml_value) : bool :=
  match v with VDict _ => true | _ => false end.

(** [deep_merge(target, source)] on trees: the tree the dictionary [target]
    stands for after the call, from the trees the two dictionaries stand for
    before it.  The recursion is on the incoming value; [merge_items] is the
    [for] loop over [source.items()].  The code works on objects and
    changes [target] in place: that is [Heap.deep_merge] below, which
    computes this function when the two dictionaries share no object
    ([deep_merge_merges]) and can do otherwise when they do. *)
Fixpoint merge_value (incoming : yaml_value) (target : dict) {struct incoming} : dict :=
  match incoming with
  | VDict source =>
      (fix merge_items (items : dict) (target : dict) {struct items} : dict :=
         match items with
         | [] => target
         | (key, value) :: rest =>
             merge_items rest
               (if is_dict value then
                  let '(node, target1) := setdefault key (VDict []) target in
                  match node with
                  | VDict node_d =>
                      dict_set key (VDict (merge_value value node_d)) target1
                  | _ => dict_set key value target1
                  end
                else dict_set key value target)
         end) source target
  | _ => target
  end.

Definition deep_merge (target source : dict) : dict :=
  merge_value (VDict source) target.

(** *** Logging *)

Inductive log_level : Type := DEBUG | INFO | WARNING | ERROR.

Inductive log_message : Type :=
| PathNotFound (path : string)
| MismatchedSectionEnd (key relative_path : string) (lineno : nat)
| NoAssignmentPattern (yaml_path relative_path : string)
| ProcessingFile (relative_path : string)
| WritingModifiedFile (relative_path : string)
| CopyingUnmodifiedFile (relative_path : string)
| SkippingUnmodifiedFile (relative_path : string)
| UnexpectedError (relative_path : string)
| ProcessingFinished (files_modified replacements section_toggles : nat).

Definition log_record : Type := log_level * log_message.

(** *** [get_value_by_path] *)

(** The loop [for key in keys: value = value[key]]; [None] stands for the
    [KeyError] or [TypeError] that indexing raises. *)
Fixpoint walk_keys (keys : list string) (value : yaml_value) : option yaml_value :=
  match keys with
  | [] => Some value
  | key :: keys' =>
      match value with
      | VDict d =>
          match dict_get key d with
          | Some v => walk_keys keys' v
          | None => None
          end
      | _ => None
      end
  end.

(** The returned value ([VNone] is Python's [None]) and what was logged. *)
Definition get_value_by_path (data : dict) (path : string)
    : yaml_value * list log_record :=
  match walk_keys (split "." path) (VDict data) with
  | Some v => (v, [])
  | None => (VNone, [(WARNING, PathNotFound path)])
  end.

(** *** [format_value_for_file] *)

Definition dq : string := String "034" EmptyString.
Definition sq : string := "'".

(** [str(n)] of an integer. *)
Definition int_str (n : Z) : string := NilZero.string_of_int (Z.to_int n).

Definition hex_digit (n : nat) : ascii :=
  ascii_of_nat (if (n <? 10)%nat then 48 + n else 87 + n).

(** One character in [json.dumps] with [ensure_ascii]: everything outside
    SPACE..TILDE is escaped. *)
Definition json_char (c : ascii) : string :=
  let n := nat_of_ascii c in
  if Ascii.eqb c "034" then "\" +:+ dq
  else if Ascii.eqb c "\" then "\\"
  else if Ascii.eqb c "010" then "\n"
  else if Ascii.eqb c "013" then "\r"
  else if Ascii.eqb c "009" then "\t"
  else if Ascii.eqb c "008" then "\b"
  else if Ascii.eqb c "012" then "\f"
  else if ((32 <=? n) && (n <=? 126))%nat then String c EmptyString
  else "\u00" +:+ String (hex_digit (n / 16)) (String (hex_digit (n mod 16)) EmptyString).

Fixpoint json_escape (s : string) : string :=
  match s with
  | EmptyString => EmptyString
  | String c s' => json_char c +:+ json_escape s'
  end.

Definition json_str (s : string) : string := dq +:+ json_escape s +:+ dq.

(** [repr] of a float as JSON writes it. *)
Definition json_float (repr : string) : string :=
  if String.eqb repr "nan" then "NaN"
  else if String.eqb repr "inf" then "Infinity"
  else if String.eqb repr "-inf" then "-Infinity"
  else repr.

(** [sep.join(parts)] *)
Fixpoint join (sep : string) (parts : list string) : string :=
  match parts with
  | [] => EmptyString
  | [p] => p
  | p :: ps => p +:+ sep +:+ join sep ps
  end.

(** [json.dumps(v)] with the default separators; [None] stands for the
    [TypeError] it raises on an object that is not JSON serializable. *)
Fixpoint json_dumps (v : yaml_value) : option string :=
  match v with
  | VNone => Some "null"
  | VBool b => Some (if b then "true" else "false")
  | VInt n => Some (int_str n)
  | VFloat r => Some (json_float r)
  | VStr s => Some (json_str s)
  | VOther _ _ => None
  | VList l =>
      (λ parts, "[" +:+ join ", " parts +:+ "]") <$> mapM json_dumps l
  | VDict d =>
      (λ parts, "{" +:+ join ", " parts +:+ "}")
        <$> mapM (λ kv, (λ text, json_str kv.1 +:+ ": " +:+ text) <$> json_dumps kv.2) d
  end.

(** The returned text; [None] stands for the [TypeError] of [json.dumps],
    the one exception the function lets through. *)
Definition format_value_for_file (value : yaml_value) : option string :=
  match value with
  | VStr s =>
      Some (if (startswith dq s && endswith dq s) || (startswith sq s && endswith sq s)
            then s
            else dq +:+ s +:+ dq)
  | VBool b => Some (if b then "true" else "false")
  | VList _ | VDict _ => json_dumps value
  | VInt n => Some (int_str n)
  | VFloat r => Some r
  | VOther _ text => Some text
  | VNone => Some "None"
  end.

(** ** [load_and_merge_data] *)

Inductive result (E A : Type) : Type :=
| Ok (a : A)
| Err (e : E).
Arguments Ok {E A} a.
Arguments Err {E A} e.

(** What the loader finds at a data file path. *)
Inductive source_content : Type :=
| Missing                      (* [is_file()] is false *)
| Unreadable                   (* [open] or the read raises [OSError] *)
| Unparseable                  (* [yaml.safe_load] raises [YAMLError] *)
| Parsed (root : yaml_value).

Record data_source : Type := DataSource {
  ds_path : string;
  ds_content : source_content
}.

(** The exceptions the program raises or lets through. *)
Inductive exception : Type :=
| FileNotFoundError (path : string)
| OSError (path : string)
| ValueError_not_a_dictionary (path : string)
| ValueError_invalid_yaml (path : string)
| TypeError_not_serializable
| TypeError_not_subscriptable
| AttributeError
| RuntimeError_changed_size
| RecursionError.

(** [bool(v)] *)
Definition truthy (v : yaml_value) : bool :=
  match v with
  | VNone => false
  | VBool b => b
  | VInt n => negb (n =? 0)%Z
  | VFloat r => negb (String.eqb r "0.0" || String.eqb r "-0.0")
  | VStr s => nonempty s
  | VOther truth _ => truth
  | VList l => match l with [] => false | _ => true end
  | VDict d => match d with [] => false | _ => true end
  end.

(** One turn of the loop over [data_file_paths]. *)
Definition load_one (merged_data : dict) (src : data_source)
    : result exception dict :=
  match ds_content src with
  | Missing => Err (FileNotFoundError (ds_path src))
  | Unreadable => Err (OSError (ds_path src))
  | Unparseable => Err (ValueError_invalid_yaml (ds_path src))
  | Parsed current_data =>
      if truthy current_data then
        match current_data with
        | VDict d => Ok (deep_merge merged_data d)
        | _ => Err (ValueError_not_a_dictionary (ds_path src))
        end
      else Ok merged_data
  end.

Fixpoint load_from (merged_data : dict) (srcs : list data_source)
    : result exception dict :=
  match srcs with
  | [] => Ok merged_data
  | src :: srcs' =>
      match load_one merged_data src with
      | Ok merged_data' => load_from merged_data' srcs'
      | Err e => Err e
      end
  end.

Definition load_and_merge_data (data_file_paths : list data_source)
    : result exception dict :=
  load_from [] data_file_paths.

(** ** Objects: [deep_merge] as it changes its target in place

    A dictionary and a list are objects with an identity: a value refers to
    them by their address in the heap, and two values can refer to the same
    object ([yaml.safe_load] builds such values from an anchor and its
    aliases, and [copy.deepcopy] keeps them).  The other values are
    immutable and are carried as they are. *)

Module Heap.

Definition addr : Type := nat.

Inductive obj : Type :=
| ONone
| OBool (b : bool)
| OInt (n : Z)
| OFloat (repr : string)
| OStr (s : string)
| OOther (truth : bool) (text : string)
| ORef (a : addr).

Inductive cell : Type :=
| CDict (items : list (string * obj))
| CList (items : list obj).

(** The object at address [a] is the cell at index [a]; a new object gets
    the next address. *)
Definition heap : Type := list cell.

Definition dict_at (h : heap) (a : addr) : option (list (string * obj)) :=
  match h !! a with
  | Some (CDict items) => Some items
  | _ => None
  end.

(** [v] when [isinstance(v, dict)]: the address of the dictionary. *)
Definition as_dict (h : heap) (v : obj) : option addr :=
  match v with
  | ORef a => match dict_at h a with Some _ => Some a | None => None end
  | _ => None
  end.

(** [target[key] = v] *)
Definition setitem (target : addr) (key : string) (v : obj) (h : heap)
    : result exception heap :=
  match h !! target with
  | Some (CDict items) => Ok (<[target := CDict (dict_set key v items)]> h)
  | _ => Err TypeError_not_subscriptable
  end.

(** [y.append(v)] *)
Definition append (y : addr) (v : obj) (h : heap) : result exception heap :=
  match h !! y with
  | Some (CList items) => Ok (<[y := CList (items ++ [v])]> h)
  | _ => Err AttributeError
  end.

Fixpoint assoc (a : addr) (memo : list (addr * addr)) : option addr :=
  match memo with
  | [] => None
  | (x, y) :: memo' => if (x =? a)%nat then Some y else assoc a memo'
  end.

(** The loop of [copy.deepcopy] over the items of a dictionary: each value
    is copied by [rec] and stored in the new dictionary [y]. *)
Fixpoint copy_items
    (rec : obj → list (addr * addr) → heap → result exception (obj * list (addr * addr) * heap))
    (y : addr) (items : list (string * obj)) (memo : list (addr * addr)) (h : heap)
    : result exception (obj * list (addr * addr) * heap) :=
  match items with
  | [] => Ok (ORef y, memo, h)
  | (key, value) :: rest =>
      match rec value memo h with
      | Ok (value', memo', h') =>
          match setitem y key value' h' with
          | Ok h'' => copy_items rec y rest memo' h''
          | Err e => Err e
          end
      | Err e => Err e
      end
  end.

(** The same loop over the elements of a list. *)
Fixpoint copy_elems
    (rec : obj → list (addr * addr) → heap → result exception (obj * list (addr * addr) * heap))
    (y : addr) (items : list obj) (memo : list (addr * addr)) (h : heap)
    : result exception (obj * list (addr * addr) * heap) :=
  match items with
  | [] => Ok (ORef y, memo, h)
  | value :: rest =>
      match rec value memo h with
      | Ok (value', memo', h') =>
          match append y value' h' with
          | Ok h'' => copy_elems rec y rest memo' h''
          | Err e => Err e
          end
      | Err e => Err e
      end
  end.

(** [copy.deepcopy(v, memo)]: the copy, the memo and the heap after the
    call.  A dictionary or a list that the memo knows is copied once; the
    immutable values are returned as they are.  [fuel] bounds the depth of
    the recursion, as the recursion limit of the interpreter does. *)
Fixpoint deepcopy (fuel : nat) (v : obj) (memo : list (addr * addr)) (h : heap)
    : result exception (obj * list (addr * addr) * heap) :=
  match v with
  | ORef a =>
      match assoc a memo with
      | Some y => Ok (ORef y, memo, h)
      | None =>
          match fuel with
          | O => Err RecursionError
          | S fuel' =>
              match h !! a with
              | Some (CDict items) =>
                  copy_items (deepcopy fuel') (length h) items
                    ((a, length h) :: memo) (h ++ [CDict []])
              | Some (CList items) =>
                  copy_elems (deepcopy fuel') (length h) items
                    ((a, length h) :: memo) (h ++ [CList []])
              | None => Err AttributeError
              end
          end
      end
  | _ => Ok (v, memo, h)
  end.

(** The body of the loop of [deep_merge] for the item [(key, value)];
    [rec] is the recursive call.  The empty dictionary that is the second
    argument of [setdefault] is built before the call, used or not. *)
Definition merge_item (rec : addr → addr → heap → result exception heap)
    (fuel : nat) (target : addr) (key : string) (value : obj) (h : heap)
    : result exception heap :=
  match as_dict h value with
  | Some source =>
      let fresh := length h in
      let h := h ++ [CDict []] in
      match dict_at h target with
      | None => Err AttributeError
      | Some items =>
          match dict_get key items with
          | Some node =>
              match as_dict h node with
              | Some n => rec n source h
              | None =>
                  match deepcopy fuel value [] h with
                  | Ok (copy, _, h') => setitem target key copy h'
                  | Err e => Err e
                  end
              end
          | None =>
              match setitem target key (ORef fresh) h with
              | Ok h' => rec fresh source h'
              | Err e => Err e
              end
          end
      end
  | None => setitem target key value h
  end.

(** The loop [for key, value in source.items()] from the item at index [i]
    on.  The iterator reads the dictionary as it is at each turn, and
    raises when its size is no longer the size [len0] it had at the start
    of the loop; that is checked at every turn and once more at the end. *)
Fixpoint merge_loop (rec : addr → addr → heap → result exception heap)
    (fuel : nat) (target source : addr) (len0 todo i : nat) (h : heap)
    : result exception heap :=
  match dict_at h source with
  | None => Err AttributeError
  | Some items =>
      if negb (length items =? len0)%nat then Err RuntimeError_changed_size
      else
        match todo, items !! i with
        | S todo', Some (key, value) =>
            match merge_item rec fuel target key value h with
            | Ok h' => merge_loop rec fuel target source len0 todo' (S i) h'
            | Err e => Err e
            end
        | _, _ => Ok h
        end
  end.

(** [deep_merge(target, source)]: the heap after the call, in which the
    dictionary at [target] has been changed in place.  [fuel] bounds the
    depth of the recursion. *)
Fixpoint deep_merge (fuel : nat) (target source : addr) (h : heap)
    : result exception heap :=
  match fuel with
  | O => Err RecursionError
  | S fuel' =>
      match dict_at h source with
      | None => Err AttributeError
      | Some items =>
          merge_loop (deep_merge fuel') fuel' target source (length items)
            (length items) 0 h
      end
  end.

(** [bool(v)] *)
Definition truthy (h : heap) (v : obj) : bool :=
  match v with
  | ONone => false
  | OBool b => b
  | OInt n => negb (n =? 0)%Z
  | OFloat r => negb (String.eqb r "0.0" || String.eqb r "-0.0")
  | OStr s => nonempty s
  | OOther truth _ => truth
  | ORef a =>
      match h !! a with
      | Some (CDict []) | Some (CList []) | None => false
      | _ => true
      end
  end.

(** The loop of [load_and_merge_data] over data files that have been
    parsed, each given by its path and the object the parser has built. *)
Fixpoint load_from (fuel : nat) (merged_data : addr) (roots : list (string * obj))
    (h : heap) : result exception heap :=
  match roots with
  | [] => Ok h
  | (path, current_data) :: roots' =>
      if truthy h current_data then
        match as_dict h current_data with
        | Some source =>
            match deep_merge fuel merged_data source h with
            | Ok h' => load_from fuel merged_data roots' h'
            | Err e => Err e
            end
        | None => Err (ValueError_not_a_dictionary path)
        end
      else load_from fuel merged_data roots' h
  end.

(** [load_and_merge_data]: the address of [merged_data], a new dictionary,
    and the heap at the end. *)
Definition load_and_merge_data (fuel : nat) (roots : list (string * obj)) (h : heap)
    : result exception (addr * heap) :=
  match load_from fuel (length h) roots (h ++ [CDict []]) with
  | Ok h' => Ok (length h, h')
  | Err e => Err e
  end.

(** *** The value an object stands for

    [shape fuel h v] unfolds the references of [v]: it gives the value as a
    tree and the addresses met on the way, each as often as it is met.
    It is [None] when a reference leads nowhere or when [fuel] references
    in a row do not reach the end, as on a cycle. *)
Fixpoint shape (fuel : nat) (h : heap) (v : obj) : option (yaml_value * list addr) :=
  match v with
  | ONone => Some (VNone, [])
  | OBool b => Some (VBool b, [])
  | OInt n => Some (VInt n, [])
  | OFloat r => Some (VFloat r, [])
  | OStr s => Some (VStr s, [])
  | OOther truth text => Some (VOther truth text, [])
  | ORef a =>
      match fuel with
      | O => None
      | S fuel' =>
          match h !! a with
          | Some (CDict items) =>
              (λ parts : list (string * (yaml_value * list addr)),
                 (VDict (prod_map id fst <$> parts), a :: concat (parts.*2.*2)))
                <$> mapM (λ kv, pair kv.1 <$> shape fuel' h kv.2) items
          | Some (CList items) =>
              (λ parts : list (yaml_value * list addr),
                 (VList parts.*1, a :: concat parts.*2))
                <$> mapM (shape fuel' h) items
          | None => None
          end
      end
  end.

(** The value as a tree. *)
Definition read (fuel : nat) (h : heap) (v : obj) : option yaml_value :=
  fst <$> shape fuel h v.

(** The addresses of the objects [v] is made of. *)
Definition cells (fuel : nat) (h : heap) (v : obj) : option (list addr) :=
  snd <$> shape fuel h v.

End Heap.

(** ** [process_files] *)

(** An entry of [active_sections]. *)
Record frame : Type := Frame {
  key : string;
  should_be_commented : bool
}.

(** The three totals of a run and the log. *)
Record run_state : Type := RunState {
  total_files_modified : nat;
  total_replacements : nat;
  total_section_toggles : nat;
  log : list log_record
}.

(** The local variables of one turn of the loop over the files, together
    with the run-level state the turn updates in place.  The head of
    [active_sections] is the last element of the Python list: [append]
    conses, [pop] removes the head, [active_sections[-1]] reads it. *)
Record file_state : Type := FileState {
  active_sections : list frame;
  file_was_modified : bool;
  run : run_state
}.

Definition add_log (rs : list log_record) (st : file_state) : file_state :=
  let r := run st in
  FileState (active_sections st) (file_was_modified st)
    (RunState (total_files_modified r) (total_replacements r)
       (total_section_toggles r) (log r ++ rs)).

(** [file_was_modified = True; total_section_toggles += 1] *)
Definition count_toggle (st : file_state) : file_state :=
  let r := run st in
  FileState (active_sections st) true
    (RunState (total_files_modified r) (total_replacements r)
       (S (total_section_toggles r)) (log r)).

(** [file_was_modified = True; total_replacements += 1] *)
Definition count_replacement (st : file_state) : file_state :=
  let r := run st in
  FileState (active_sections st) true
    (RunState (total_files_modified r) (S (total_replacements r))
       (total_section_toggles r) (log r)).

Definition set_sections (stack : list frame) (st : file_state) : file_state :=
  FileState stack (file_was_modified st) (run st).

Definition section_begin_match (line : string) : option match_obj :=
  re_search section_begin_re line.

Definition section_end_match (line : string) : option match_obj :=
  re_search section_end_re line.

Definition is_marker_line (line : string) : bool :=
  bool_decide (is_Some (section_begin_match line))
  || bool_decide (is_Some (section_end_match line)).

(** [line.lstrip().startswith('#')] *)
Definition is_commented (line : string) : bool := startswith "#" (lstrip line).

(** [not line.strip()] *)
Definition is_blank (line : string) : bool := negb (nonempty (strip line)).

(** [value is False] *)
Definition is_False (v : yaml_value) : bool :=
  match v with VBool false => true | _ => false end.

(** Group 1 of [re.match] of the indentation pattern on [line]. *)
Definition indent_of (line : string) : string :=
  default EmptyString (group1 (re_match indent_re line)).

(** The first half of the body of pass 1: the new value of
    [section_modified_lines[i]] under the frame [section_to_apply], and the
    state after the toggle has been counted. *)
Definition apply_section (section_to_apply : frame) (line : string)
    (st : file_state) : string * file_state :=
  if should_be_commented section_to_apply
     && negb (is_commented line) && negb (is_blank line)
  then
    let new_line := indent_of line +:+ "# " +:+ lstrip line in
    if negb (String.eqb new_line line) then (new_line, count_toggle st)
    else (new_line, st)
  else if negb (should_be_commented section_to_apply) && is_commented line
  then
    let uncommented_line := lstrip (re_sub1 hash_re "" line) in
    if negb (startswith "@param" uncommented_line)
       && negb (startswith "@section" uncommented_line)
    then
      let new_line := re_sub1 hash_re "" line in
      if negb (String.eqb new_line line) then (new_line, count_toggle st)
      else (new_line, st)
    else (line, st)
  else (line, st).

(** The second half: the begin and end markers move the stack. *)
Definition update_sections (data : dict) (relative_path : string) (i : nat)
    (line : string) (st : file_state) : file_state :=
  match section_begin_match line with
  | Some mo =>
      let yaml_path := default EmptyString (m_group1 mo) in
      let '(value, warnings) := get_value_by_path data yaml_path in
      set_sections (Frame yaml_path (is_False value) :: active_sections st)
        (add_log warnings st)
  | None =>
      match section_end_match line with
      | Some mo =>
          let name := default EmptyString (m_group1 mo) in
          match active_sections st with
          | top :: below =>
              if String.eqb (key top) name then set_sections below st
              else add_log [(WARNING, MismatchedSectionEnd name relative_path (i + 1))] st
          | [] =>
              add_log [(WARNING, MismatchedSectionEnd name relative_path (i + 1))] st
          end
      | None => st
      end
  end.

(** One turn of the loop of pass 1 on line [i]. *)
Definition section_step (data : dict) (relative_path : string) (i : nat)
    (line : string) (st : file_state) : string * file_state :=
  let '(new_line, st1) :=
    match active_sections st with
    | section_to_apply :: _ =>
        if negb (is_marker_line line) then apply_section section_to_apply line st
        else (line, st)
    | [] => (line, st)
    end in
  (new_line, update_sections data relative_path i line st1).

(** Pass 1 from line [i] on: [section_modified_lines] for these lines and
    the state at the end.  Turn [i] reads [lines[i]] and writes only
    [section_modified_lines[i]], so the copy is built line by line. *)
Fixpoint section_loop (data : dict) (relative_path : string) (i : nat)
    (lines : list string) (st : file_state) : list string * file_state :=
  match lines with
  | [] => ([], st)
  | line :: rest =>
      let '(new_line, st1) := section_step data relative_path i line st in
      let '(out, st2) := section_loop data relative_path (S i) rest st1 in
      (new_line :: out, st2)
  end.

Definition section_pass (data : dict) (relative_path : string)
    (lines : list string) (st : file_state) : list string * file_state :=
  section_loop data relative_path 0 lines (set_sections [] st).

(** The trailing comment of [original_value_part]: group 1 of the first
    match of the trailing comment pattern, or the empty string. *)
Definition trailing_comment_of (original_value_part : string) : string :=
  match re_search trailing_comment_re original_value_part with
  | Some mo => default EmptyString (m_group1 mo)
  | None => EmptyString
  end.

(** [new_line] for the target [original_next_line] once its structural
    prefix has matched as [line_structure_match] and the value has been
    formatted as [formatted_new_value]. *)
Definition new_line_of (line_structure_match : match_obj)
    (formatted_new_value : string) (original_next_line : string) : string :=
  let g1 := default EmptyString (m_group1 line_structure_match) in
  let line_prefix := rstrip g1 in
  let original_value_part := drop_str (String.length g1) original_next_line in
  let trailing_comment := trailing_comment_of original_value_part in
  line_prefix +:+ " " +:+ formatted_new_value +:+ trailing_comment +:+ nl.

(** One turn of the loop of pass 2 on index [i]; [sml] is
    [section_modified_lines].  The loop carries [final_lines], the state,
    and the exception that has left it, if any: the [TypeError] of
    [format_value_for_file] is the one exception a turn can raise, and once
    it is raised no further turn runs. *)
Definition param_step (data : dict) (relative_path : string)
    (sml : list string) (acc : list string * file_state * option exception)
    (i : nat) : list string * file_state * option exception :=
  let '(final_lines, st, raised) := acc in
  match raised, sml !! i with
  | Some _, _ => acc
  | None, None => acc
  | None, Some line =>
      match re_search param_re line with
      | Some param_match =>
          if (i + 1 <? length sml)%nat then
            let yaml_path := default EmptyString (m_group1 param_match) in
            let '(value_from_yaml, warnings) := get_value_by_path data yaml_path in
            let st := add_log warnings st in
            match value_from_yaml with
            | VNone => (final_lines, st, None)
            | _ =>
                let original_next_line := default EmptyString (sml !! (i + 1)) in
                if startswith "#" (lstrip original_next_line) then (final_lines, st, None)
                else
                  match re_match line_structure_re original_next_line with
                  | Some line_structure_match =>
                      match format_value_for_file value_from_yaml with
                      | Some formatted_new_value =>
                          let new_line :=
                            new_line_of line_structure_match formatted_new_value
                              original_next_line in
                          if negb (String.eqb (default EmptyString (final_lines !! (i + 1)))
                                     new_line)
                          then (<[i + 1 := new_line]> final_lines, count_replacement st, None)
                          else (final_lines, st, None)
                      | None => (final_lines, st, Some TypeError_not_serializable)
                      end
                  | None =>
                      (final_lines,
                       add_log [(WARNING, NoAssignmentPattern yaml_path relative_path)] st,
                       None)
                  end
            end
          else acc
      | None => acc
      end
  end.

(** The loop of pass 2 over the indices of [section_modified_lines]. *)
Definition param_loop (data : dict) (relative_path : string)
    (section_modified_lines : list string) (st : file_state)
    : list string * file_state * option exception :=
  foldl (param_step data relative_path section_modified_lines)
    (section_modified_lines, st, None) (seq 0 (length section_modified_lines)).

(** Pass 2: [final_lines] and the state when the loop is left, at its end
    or by the exception. *)
Definition param_pass (data : dict) (relative_path : string)
    (section_modified_lines : list string) (st : file_state)
    : list string * file_state :=
  (param_loop data relative_path section_modified_lines st).1.

(** The exception that has left pass 2, if any. *)
Definition param_raised (data : dict) (relative_path : string)
    (section_modified_lines : list string) (st : file_state) : option exception :=
  (param_loop data relative_path section_modified_lines st).2.

(** Both passes on the lines of one file, from [file_was_modified = False]:
    [final_lines] and the state when the passes are left. *)
Definition engine (data : dict) (relative_path : string) (lines : list string)
    (r : run_state) : list string * file_state :=
  let '(section_modified_lines, st1) :=
    section_pass data relative_path lines (FileState [] false r) in
  param_pass data relative_path section_modified_lines st1.

(** The exception that has left the passes, if any; pass 1 raises none. *)
Definition engine_raised (data : dict) (relative_path : string)
    (lines : list string) (r : run_state) : option exception :=
  let '(section_modified_lines, st1) :=
    section_pass data relative_path lines (FileState [] false r) in
  param_raised data relative_path section_modified_lines st1.

(** *** The walk over the files *)

(** [Path(s)] of [pathlib] on a POSIX system, as the root and the parts it
    is compared by: one or three and more leading slashes are the root [/],
    exactly two are the root [//]; empty components and [.] are dropped,
    [..] is kept.  A [Path] object is carried by a text it can be made
    from. *)
Definition Path (s : string) : string * list string :=
  let '(slashes, rest) := span (Ascii.eqb "/") s in
  (match String.length slashes with
   | 0 => EmptyString
   | 2 => "//"
   | _ => "/"
   end,
   List.filter (λ part, negb (String.eqb part EmptyString) && negb (String.eqb part "."))
     (split "/" rest)).

(** A regular file under [input_dir]: whether the directory of its output
    path can be made ([mkdir] with [parents] and [exist_ok]), what
    [readlines] gives ([None] when opening, reading or decoding raises) and
    whether writing or copying to its output path succeeds. *)
Record input_file : Type := InputFile {
  relative_path : string;
  parent_creatable : bool;
  read_lines : option (list string);
  output_writable : bool
}.

(** What a turn leaves on the filesystem. *)
Inductive fs_effect : Type :=
| Written (relative_path : string) (lines : list string)
| Copied (relative_path : string).

Record run_report : Type := RunReport {
  state : run_state;
  effects : list fs_effect
}.

Definition log_run (rs : list log_record) (r : run_state) : run_state :=
  RunState (total_files_modified r) (total_replacements r)
    (total_section_toggles r) (log r ++ rs).

Definition count_file (r : run_state) : run_state :=
  RunState (S (total_files_modified r)) (total_replacements r)
    (total_section_toggles r) (log r).

(** How a turn of the loop over the files ends: the loop goes on, or an
    exception leaves the loop and [process_files]. *)
Inductive turn : Type :=
| Continue (rep : run_report)
| Abort (e : exception) (rep : run_report).

(** The body of the loop over the files.  [in_place] is
    [input_dir == output_dir], which also decides
    [file_path != output_path].  The directory of the output path is made
    outside the [try]: its exception leaves the loop.  Inside the [try] an
    exception (of the read, of the passes, of the write or the copy) is
    logged and the loop goes on; the totals are those at the time it was
    raised. *)
Definition process_file (data : dict) (in_place : bool) (rep : run_report)
    (f : input_file) : turn :=
  let rel := relative_path f in
  if negb in_place && negb (parent_creatable f) then Abort (OSError rel) rep
  else
    let r0 := log_run [(INFO, ProcessingFile rel)] (state rep) in
    match read_lines f with
    | None => Continue (RunReport (log_run [(ERROR, UnexpectedError rel)] r0) (effects rep))
    | Some lines =>
        let '(final_lines, st) := engine data rel lines r0 in
        match engine_raised data rel lines r0 with
        | Some _ =>
            Continue (RunReport (log_run [(ERROR, UnexpectedError rel)] (run st)) (effects rep))
        | None =>
            if file_was_modified st then
              let r1 := log_run [(INFO, WritingModifiedFile rel)] (count_file (run st)) in
              if output_writable f
              then Continue (RunReport r1 (effects rep ++ [Written rel final_lines]))
              else Continue (RunReport (log_run [(ERROR, UnexpectedError rel)] r1) (effects rep))
            else if negb in_place then
              let r1 := log_run [(DEBUG, CopyingUnmodifiedFile rel)] (run st) in
              if output_writable f
              then Continue (RunReport r1 (effects rep ++ [Copied rel]))
              else Continue (RunReport (log_run [(ERROR, UnexpectedError rel)] r1) (effects rep))
            else
              Continue (RunReport (log_run [(DEBUG, SkippingUnmodifiedFile rel)] (run st))
                          (effects rep))
        end
    end.

(** The loop over the files [rglob] yields. *)
Fixpoint process_loop (data : dict) (in_place : bool) (files : list input_file)
    (rep : run_report) : turn :=
  match files with
  | [] => Continue rep
  | f :: files' =>
      match process_file data in_place rep f with
      | Continue rep' => process_loop data in_place files' rep'
      | Abort e rep' => Abort e rep'
      end
  end.

(** How [process_files] ends: it returns, or it raises; either way with the
    log and the effects up to then. *)
Inductive run_result : Type :=
| Returned (rep : run_report)
| Raised (e : exception) (rep : run_report).

(** [process_files(input_dir, output_dir, data)] on the files [rglob]
    yields.  [input_dir_is_dir] is [input_dir.is_dir()], and
    [output_dir_creatable] tells whether [output_dir.mkdir] succeeds; out of
    place that directory is made before the loop. *)
Definition process_files (input_dir_is_dir output_dir_creatable : bool)
    (input_dir output_dir : string) (files : list input_file) (data : dict)
    : run_result :=
  if negb input_dir_is_dir
  then Raised (FileNotFoundError input_dir) (RunReport (RunState 0 0 0 []) [])
  else
    let in_place := bool_decide (Path input_dir = Path output_dir) in
    if negb in_place && negb output_dir_creatable
    then Raised (OSError output_dir) (RunReport (RunState 0 0 0 []) [])
    else
      match process_loop data in_place files (RunReport (RunState 0 0 0 []) []) with
      | Continue rep =>
          let r := state rep in
          Returned
            (RunReport
               (log_run [(INFO, ProcessingFinished (total_files_modified r)
                                  (total_replacements r) (total_section_toggles r))] r)
               (effects rep))
      | Abort e rep => Raised e rep
      end.

(** The two steps of [main] for a local source: load the data, then process
    the files.  An exception of either step ends the run. *)
Inductive run_outcome : Type :=
| Finished (rep : run_report)
| DataError (e : exception)
| ProcessingError (e : exception) (rep : run_report).

Definition main_local (data_files : list data_source)
    (input_dir_is_dir output_dir_creatable : bool)
    (input_dir output_dir : string) (files : list input_file) : run_outcome :=
  match load_and_merge_data data_files with
  | Err e => DataError e
  | Ok values_data =>
      match process_files input_dir_is_dir output_dir_creatable input_dir output_dir
              files values_data with
      | Returned rep => Finished rep
      | Raised e rep => ProcessingError e rep
      end
  end.

(** A line of text with its line terminator. *)
Definition ln (s : string) : string := s +:+ nl.

(** ** Notions the properties are stated with *)

(** [value] is wrapped in a pair of double or of single quotes: the test of
    [format_value_for_file]. *)
Definition quoted (s : string) : bool :=
  (startswith dq s && endswith dq s) || (startswith sq s && endswith sq s).

(** The value is a boolean, an integer, a sequence or a mapping. *)
Definition bare_kind (v : yaml_value) : bool :=
  match v with
  | VBool _ | VInt _ | VList _ | VDict _ => true
  | _ => false
  end.

(** The keys of a dictionary are pairwise different, at every level of
    nested dictionaries: what every Python [dict] satisfies. *)
Fixpoint unique_keys (v : yaml_value) : bool :=
  match v with
  | VDict d =>
      (fix go (items : dict) : bool :=
         match items with
         | [] => true
         | (k, w) :: rest =>
             negb (bool_decide (k ∈ rest.*1)) && unique_keys w && go rest
         end) d
  | _ => true
  end.

(** One turn of the loop of [deep_merge] for the item [(key, value)]. *)
Definition merge_entry (key : string) (value : yaml_value) (target : dict) : dict :=
  if is_dict value then
    let '(node, target1) := setdefault key (VDict []) target in
    match node with
    | VDict node_d => dict_set key (VDict (merge_value value node_d)) target1
    | _ => dict_set key value target1
    end
  else dict_set key value target.

(** What [deep_merge] leaves under a key of [source]. *)
Definition merged_leaf (existing : option yaml_value) (incoming : yaml_value)
    : yaml_value :=
  match existing, incoming with
  | Some (VDict e), VDict i => VDict (deep_merge e i)
  | _, _ => incoming
  end.

(** *** Objects and the values they stand for

    The keys of a dictionary are pairwise different at every level, inside
    lists too. *)
Fixpoint well_keyed (v : yaml_value) : bool :=
  match v with
  | VDict d =>
      (fix go (items : dict) : bool :=
         match items with
         | [] => true
         | (k, w) :: rest =>
             negb (bool_decide (k ∈ rest.*1)) && well_keyed w && go rest
         end) d
  | VList l =>
      (fix go (items : list yaml_value) : bool :=
         match items with
         | [] => true
         | w :: rest => well_keyed w && go rest
         end) l
  | _ => true
  end.

(** The items of a dictionary cell, each with what [Heap.shape] gives for
    its value: the tree and the cells met.  [tree_of] is the dictionary as a
    tree, [cells_of] the cells of all the items, [cells_under] those of the
    item under [key]. *)
Definition tree_of (parts : list (string * (yaml_value * list Heap.addr))) : dict :=
  prod_map id fst <$> parts.

Definition cells_of (parts : list (string * (yaml_value * list Heap.addr)))
    : list Heap.addr :=
  concat parts.*2.*2.

Definition cells_under (key : string)
    (parts : list (string * (yaml_value * list Heap.addr))) : list Heap.addr :=
  match dict_get key parts with
  | Some p => p.2
  | None => []
  end.

Definition parts_of (n : nat) (h : Heap.heap) (items : list (string * Heap.obj))
    (parts : list (string * (yaml_value * list Heap.addr))) : Prop :=
  Forall2 (λ kv p, p.1 = kv.1 ∧ Heap.shape n h kv.2 = Some p.2) items parts.

(** [copy.deepcopy] with [k] levels of recursion at hand copies every value
    that no cell occurs in twice: the copy stands for the same tree, is made
    of new cells only, and the cells of the heap before the call are left
    as they are. *)
Definition copies (k : nat) : Prop :=
  ∀ v memo h t F,
    Heap.shape k h v = Some (t, F) → NoDup F → well_keyed t = true →
    (∀ a, a ∈ F → Heap.assoc a memo = None) →
    ∃ v' memo' h' F',
      Heap.deepcopy k v memo h = Ok (v', memo', h')
      ∧ Heap.shape k h' v' = Some (t, F')
      ∧ NoDup F'
      ∧ (∀ a, a ∈ F' → (length h ≤ a)%nat)
      ∧ (length h ≤ length h')%nat
      ∧ (∀ a, a < length h → h' !! a = h !! a)
      ∧ (∀ a, Heap.assoc a memo = None → a ∉ F → Heap.assoc a memo' = None).

(** [rec] merges as [deep_merge] on trees does: called on two dictionaries
    in which no cell occurs twice, it returns, the target then stands for
    the merge of the two trees, again without a cell occurring twice, and
    the cells outside the two dictionaries are left as they are. *)
Definition merges (k : nat)
    (rec : Heap.addr → Heap.addr → Heap.heap → result exception Heap.heap) : Prop :=
  ∀ h target source T S Ft Fs,
    Heap.shape k h (Heap.ORef target) = Some (VDict T, Ft) →
    Heap.shape k h (Heap.ORef source) = Some (VDict S, Fs) →
    NoDup (Ft ++ Fs) → well_keyed (VDict S) = true →
    ∃ h' Ft',
      rec target source h = Ok h'
      ∧ Heap.shape k h' (Heap.ORef target) = Some (VDict (deep_merge T S), Ft')
      ∧ NoDup Ft'
      ∧ (∀ a, a ∈ Ft' → a ∈ Ft ∨ a ∈ Fs ∨ (length h ≤ a)%nat)
      ∧ (length h ≤ length h')%nat
      ∧ (∀ a, a < length h → a ∉ Ft → a ∉ Fs → h' !! a = h !! a).

(** The data files as the loader on trees takes them: each path with the
    tree its object stands for. *)
Definition parsed_sources (roots : list (string * Heap.obj))
    (parts : list (yaml_value * list Heap.addr)) : list data_source :=
  zip_with (λ root p, DataSource root.1 (Parsed p.1)) roots parts.

(** A = {x: {a: 1, b: 2}} at address 0 and B = {x: {b: 3}} at address 2. *)
Definition example_heap : Heap.heap :=
  [ Heap.CDict [("x", Heap.ORef 1)];
    Heap.CDict [("a", Heap.OInt 1); ("b", Heap.OInt 2)];
    Heap.CDict [("x", Heap.ORef 3)];
    Heap.CDict [("b", Heap.OInt 3)] ].



Section yaml_value_induction.
Variable P : yaml_value → Prop.
Hypothesis Hnone : P VNone.
Hypothesis Hbool : ∀ b, P (VBool b).
Hypothesis Hint : ∀ n, P (VInt n).
Hypothesis Hfloat : ∀ r, P (VFloat r).
Hypothesis Hstr : ∀ s, P (VStr s).
Hypothesis Hother : ∀ truth text, P (VOther truth text).
Hypothesis Hlist : ∀ l, Forall P l → P (VList l).
Hypothesis Hdict : ∀ d, Forall (λ kv, P kv.2) d → P (VDict d).

Fixpoint yaml_value_nested_ind (v : yaml_value) : P v :=
  match v with
  | VNone => Hnone
  | VBool b => Hbool b
  | VInt n => Hint n
  | VFloat r => Hfloat r
  | VStr s => Hstr s
  | VOther truth text => Hother truth text
  | VList l =>
      Hlist l
        ((fix go (l : list yaml_value) : Forall P l :=
            match l with
            | [] => @List.Forall_nil _ P
            | x :: r => @List.Forall_cons _ P x r (yaml_value_nested_ind x) (go r)
            end) l)
  | VDict d =>
      Hdict d
        ((fix go (d : dict) : Forall (λ kv, P kv.2) d :=
            match d with
            | [] => @List.Forall_nil _ (λ kv, P kv.2)
            | kv :: r =>
                @List.Forall_cons _ (λ kv, P kv.2) kv r (yaml_value_nested_ind kv.2) (go r)
            end) d)
  end.
End yaml_value_induction.

Definition example_A : dict := [("x", VDict [("a", VInt 1); ("b", VInt 2)])].
Definition example_B : dict := [("x", VDict [("b", VInt 3)])].

(** The loop of [load_and_merge_data] gets past the source: its root was
    parsed and is either falsy or a mapping. *)
Definition loads (src : data_source) : bool :=
  match ds_content src with
  | Parsed root => negb (truthy root) || is_dict root
  | _ => false
  end.

(** [rest] without its first character when that is whitespace: what the
    optional class of the hash pattern takes after the hash sign. *)
Definition drop_space (rest : string) : string :=
  match rest with
  | String c r => if is_space c then r else rest
  | EmptyString => EmptyString
  end.

(** The line under the policy "should be commented": a line that is neither
    commented nor blank gets a hash sign and a space after its
    indentation. *)
Definition commented_out (line : string) : string :=
  if negb (is_commented line) && negb (is_blank line)
  then indent_of line +:+ "# " +:+ lstrip line
  else line.

(** The line under the policy "should not be commented": a commented line
    loses its first hash sign and one whitespace character after it, unless
    a directive would appear. *)
Definition uncommented (line : string) : string :=
  if is_commented line then
    let uncommented_line := lstrip (re_sub1 hash_re EmptyString line) in
    if negb (startswith "@param" uncommented_line)
       && negb (startswith "@section" uncommented_line)
    then re_sub1 hash_re EmptyString line
    else line
  else line.

(** The line under the policy of the frame [f]. *)
Definition governed (f : frame) (line : string) : string :=
  if should_be_commented f then commented_out line else uncommented line.

(** The uncommented text as the specification words it, not as the source
    computes it: the hash sign after the indentation is removed, and one
    space character after it when there is one. *)
Definition claimed_uncomment (line : string) : string :=
  let '(indent, r) := span is_space line in
  match r with
  | String c rest =>
      if Ascii.eqb c "#" then
        indent +:+ match rest with
                   | String c' rest' => if Ascii.eqb c' " " then rest' else rest
                   | EmptyString => rest
                   end
      else line
  | EmptyString => line
  end.

(** The three totals of a run. *)
Definition totals (r : run_state) : nat * nat * nat :=
  (total_files_modified r, total_replacements r, total_section_toggles r).

(** The state before the first file. *)
Definition run_start : run_state := RunState 0 0 0 [].

(** The file and the data of the nested example. *)
Definition nested_data : dict := [("outer", VBool false); ("inner", VBool true)].

Definition nested_file : list string :=
  [ln "# @section outer begin"; ln "a: 1"; ln "# @section inner begin"; ln "b: 2";
   ln "# @section inner end"; ln "c: 3"; ln "# @section outer end"].

(** The file and the data of the null example. *)
Definition null_data : dict := [("a", VNone)].

Definition null_file : list string := [ln "# @param a"; ln "a: 1"].

(** The last character of [s] is whitespace. *)
Fixpoint ends_with_space (s : string) : bool :=
  match s with
  | EmptyString => false
  | String c EmptyString => is_space c
  | String _ s' => ends_with_space s'
  end.

(** No character of [s] is a hash sign. *)
Definition no_hash (s : string) : bool :=
  all_chars (λ c, negb (Ascii.eqb "#" c)) s.

(** [s] is empty or starts with the line terminator. *)
Definition at_line_end (s : string) : bool :=
  match s with
  | EmptyString => true
  | String c _ => Ascii.eqb c "010"
  end.

(** The file and the data of the colour example. *)
Definition colour_data : dict := [("colour", VStr "#fff")].

Definition colour_file : list string :=
  [ln "# @param colour"; ln ("colour: " +:+ dq +:+ "#000" +:+ dq +:+ "  # black")].

(** What a turn of the loop over the files counts: the flag of the file and
    the three totals. *)
Definition counts (st : file_state) : bool * (nat * nat * nat) :=
  (file_was_modified st, totals (run st)).

(** What a run leaves besides its log: the totals and the files written. *)
Definition outcome (rep : run_report) : nat * nat * nat * list fs_effect :=
  (totals (state rep), effects rep).

(** The report a turn of the loop over the files ends with, and the
    exception it ends with, if any. *)
Definition turn_report (t : turn) : run_report :=
  match t with Continue rep => rep | Abort _ rep => rep end.

Definition turn_exception (t : turn) : option exception :=
  match t with Continue _ => None | Abort e _ => Some e end.

(** What a call of [process_files] leaves besides its log: the exception it
    raised, if any, the totals and the files written. *)
Definition result_outcome (r : run_result)
    : option exception * (nat * nat * nat * list fs_effect) :=
  match r with
  | Returned rep => (None, outcome rep)
  | Raised e rep => (Some e, outcome rep)
  end.

(** The run is in place: the two roots are equal as [Path]s. *)
Definition in_place_run (input_dir output_dir : string) : bool :=
  bool_decide (Path input_dir = Path output_dir).

(** The file and the data of the toggle example of the specification. *)
Definition flag_off : dict := [("flag", VBool false)].

Definition flag_file : list string :=
  [ln "# @section flag begin"; ln "key: 1"; ln "# @section flag end"].

(** *** A file reconciled with its data, in the words of the specification

    "All sections correctly toggled, all params already matching". *)

(** The stack of open sections after a line: a begin marker opens the
    section of its key, switched off exactly when the value at the key is
    the boolean false; an end marker that names the section on top closes
    it; any other line, and any other end marker, leaves the stack. *)
Definition next_stack (data : dict) (line : string) (stack : list frame)
    : list frame :=
  match section_begin_match line with
  | Some mo =>
      let path := default EmptyString (m_group1 mo) in
      Frame path (is_False (get_value_by_path data path).1) :: stack
  | None =>
      match section_end_match line, stack with
      | Some mo, top :: below =>
          if String.eqb (key top) (default EmptyString (m_group1 mo)) then below else stack
      | _, _ => stack
      end
  end.

(** A comment whose text, after the hash sign and whitespace, starts with
    [@param] or [@section]: a directive that has been commented out. *)
Definition directive_comment (line : string) : bool :=
  match lstrip line with
  | String c rest =>
      Ascii.eqb c "#"
      && (startswith "@param" (lstrip rest) || startswith "@section" (lstrip rest))
  | EmptyString => false
  end.

(** The line is toggled as its section wants it: in a section switched off
    it is a comment or blank; in any other section it is no comment, or it
    is a directive that has been commented out. *)
Definition toggled (f : frame) (line : string) : bool :=
  if should_be_commented f then is_commented line || is_blank line
  else negb (is_commented line) || directive_comment line.

(** All sections are correctly toggled: every line that is no marker is
    toggled as the innermost section open at it wants. *)
Fixpoint sections_toggled (data : dict) (stack : list frame) (lines : list string)
    : bool :=
  match lines with
  | [] => true
  | line :: rest =>
      match stack with
      | f :: _ => is_marker_line line || toggled f line
      | [] => true
      end
      && sections_toggled data (next_stack data line stack) rest
  end.

(** [s] without its last character. *)
Fixpoint but_last (s : string) : string :=
  match s with
  | EmptyString => EmptyString
  | String c EmptyString => EmptyString
  | String c s' => String c (but_last s')
  end.

(** A trailing comment: nothing, or whitespace, a hash sign and text
    without a line terminator. *)
Definition comment_text (c : string) : bool :=
  match c with
  | EmptyString => true
  | _ =>
      match (span is_space c).2 with
      | String h body => Ascii.eqb h "#" && all_chars is_dot body
      | EmptyString => false
      end
  end.

(** The target line holds the value: after its structural prefix come one
    space, the formatted value, a trailing comment or nothing, and the line
    terminator.  The formatted value is one that can be told from a comment:
    it has no hash sign and does not end with whitespace. *)
Definition holds_value (v : yaml_value) (next_line : string) : bool :=
  match re_match line_structure_re next_line, format_value_for_file v with
  | Some mo, Some formatted =>
      let comment :=
        but_last (drop_str (String.length (" " +:+ formatted)) (m_post mo)) in
      no_hash formatted && negb (ends_with_space (" " +:+ formatted))
      && comment_text comment
      && String.eqb (m_post mo) (" " +:+ formatted +:+ comment +:+ nl)
  | _, _ => false
  end.

(** The parameter named on [line] matches: when the path of the directive
    leads to a value and the next line is an assignment that is no comment,
    the next line holds the value. *)
Definition param_matches (data : dict) (line next_line : string) : bool :=
  match re_search param_re line with
  | Some mo =>
      match (get_value_by_path data (default EmptyString (m_group1 mo))).1 with
      | VNone => true
      | v =>
          is_commented next_line
          || match re_match line_structure_re next_line with
             | Some _ => holds_value v next_line
             | None => true
             end
      end
  | None => true
  end.

(** All parameters match. *)
Fixpoint params_matching (data : dict) (lines : list string) : bool :=
  match lines with
  | line :: rest =>
      match rest with
      | next_line :: _ => param_matches data line next_line
      | [] => true
      end
      && params_matching data rest
  | [] => true
  end.

(** The file is fully reconciled with its data. *)
Definition reconciled (data : dict) (lines : list string) : bool :=
  sections_toggled data [] lines && params_matching data lines.

(** A file with one section and one parameter, and data it is reconciled
    with. *)
Definition port_data : dict := [("flag", VBool false); ("port", VInt 9000)].

Definition port_file : list string :=
  [ln "# @param port"; ln "port = 9000  # default";
   ln "# @section flag begin"; ln "# key: 1"; ln "# @section flag end"].

(** A section that is switched on around a comment with two hash signs. *)
Definition flag_on : dict := [("flag", VBool true)].

Definition note_file : list string :=
  [ln "# @section flag begin"; ln "## note"; ln "# @section flag end"].

(** How the state of a file moves in pass 1: only the toggle total grows,
    and the flag is raised exactly when it does. *)
Definition pass1_rel (st0 st : file_state) : Prop :=
  total_files_modified (run st) = total_files_modified (run st0)
  ∧ total_replacements (run st) = total_replacements (run st0)
  ∧ (total_section_toggles (run st0) ≤ total_section_toggles (run st))%nat
  ∧ file_was_modified st
    = file_was_modified st0
      || negb (total_section_toggles (run st) =? total_section_toggles (run st0))%nat.

(** How it moves in pass 2: only the replacement total grows, the flag is
    raised exactly when it does, and the stack of sections is not touched. *)
Definition pass2_rel (st0 st : file_state) : Prop :=
  total_files_modified (run st) = total_files_modified (run st0)
  ∧ total_section_toggles (run st) = total_section_toggles (run st0)
  ∧ (total_replacements (run st0) ≤ total_replacements (run st))%nat
  ∧ file_was_modified st
    = file_was_modified st0
      || negb (total_replacements (run st) =? total_replacements (run st0))%nat
  ∧ active_sections st = active_sections st0.

(** The effect is a file written with new content. *)
Definition is_written (e : fs_effect) : bool :=
  match e with Written _ _ => true | Copied _ => false end.

(** The path, relative to the output root, the effect is on. *)
Definition effect_path (e : fs_effect) : string :=
  match e with Written p _ => p | Copied p => p end.

(** The turn of the file leaves a file in the output: the directory of its
    output path can be made, the file can be read, the passes raise no
    exception on its lines, and its output path can be written. *)
Definition accessible (data : dict) (f : input_file) : bool :=
  parent_creatable f
  && match read_lines f with
     | Some lines =>
         bool_decide (engine_raised data (relative_path f) lines (RunState 0 0 0 []) = None)
     | None => false
     end
  && output_writable f.

(** * Properties *)

(** Closed goals about concrete files, settled by evaluation. *)
Ltac by_computation :=
  lazymatch goal with
  | |- Forall _ _ =>
      repeat (apply List.Forall_cons; [vm_compute; reflexivity |]);
      apply List.Forall_nil
  | |- _ ≠ _ => discriminate
  | |- _ => vm_compute; reflexivity
  end.

(** ** Strings *)

Section string_facts.

Lemma app_str_assoc (a b c : string) : (a +:+ b) +:+ c = a +:+ (b +:+ c).
Proof. induction a as [|x a IH]; simpl; [done | by f_equal]. Qed.

Lemma app_str_nil_r (a : string) : a +:+ EmptyString = a.
Proof. induction a as [|x a IH]; simpl; [done | by f_equal]. Qed.

Lemma length_app_str (a b : string) :
  String.length (a +:+ b) = (String.length a + String.length b)%nat.
Proof. induction a as [|x a IH]; simpl; [done | by f_equal]. Qed.

Lemma drop_str_app (a b : string) : drop_str (String.length a) (a +:+ b) = b.
Proof. induction a as [|x a IH]; simpl; [by destruct b | done]. Qed.

Lemma endswith_app (p a : string) : endswith p (a +:+ p) = true.
Proof.
  induction a as [|x a IH]; simpl.
  - destruct p; simpl; rewrite ?Ascii.eqb_refl, ?String.eqb_refl; done.
  - rewrite IH. apply orb_true_r.
Qed.

Lemma lstrip_app_spaces (ws s : string) :
  all_chars is_space ws = true → lstrip (ws +:+ s) = lstrip s.
Proof.
  induction ws as [|c ws IH]; simpl; [done |].
  intros [Hc Hws]%andb_prop. rewrite Hc. auto.
Qed.

Lemma span_app (p : ascii → bool) (s : string) :
  (span p s).1 +:+ (span p s).2 = s.
Proof.
  induction s as [|c s IH]; simpl; [done |].
  destruct (p c); simpl; [| done].
  destruct (span p s) as [a b]. simpl in *. by rewrite IH.
Qed.

Lemma span_all (p : ascii → bool) (s : string) :
  all_chars p (span p s).1 = true.
Proof.
  induction s as [|c s IH]; simpl; [done |].
  destruct (p c) eqn:Hc; simpl; [| done].
  destruct (span p s) as [a b]. simpl in *. by rewrite Hc, IH.
Qed.

(** [span] stops at the first character outside the class. *)
Lemma span_prefix (p : ascii → bool) (a : string) (c : ascii) (s : string) :
  all_chars p a = true → p c = false →
  span p (a +:+ String c s) = (a, String c s).
Proof.
  induction a as [|x a IH]; simpl; intros Ha Hc.
  - by rewrite Hc.
  - apply andb_prop in Ha as [Hx Ha]. by rewrite Hx, IH.
Qed.

Lemma span_prefix_end (p : ascii → bool) (a : string) :
  all_chars p a = true → span p a = (a, EmptyString).
Proof.
  induction a as [|x a IH]; simpl; intros Ha; [done |].
  apply andb_prop in Ha as [Hx Ha]. by rewrite Hx, IH.
Qed.

End string_facts.

(** ** The value formatter *)

Lemma format_str (s : string) :
  format_value_for_file (VStr s) = Some (if quoted s then s else dq +:+ s +:+ dq).
Proof. reflexivity. Qed.

Lemma quoted_wrap (s : string) : quoted (dq +:+ s +:+ dq) = true.
Proof.
  unfold quoted.
  assert (endswith dq (dq +:+ s +:+ dq) = true) as ->.
  { rewrite <- app_str_assoc. apply endswith_app. }
  reflexivity.
Qed.

Lemma wrap_differs (s : string) : dq +:+ s +:+ dq ≠ s.
Proof.
  intros Heq. apply (f_equal String.length) in Heq.
  rewrite !length_app_str in Heq. simpl in Heq. lia.
Qed.

(** The decimal text of an integer starts with a digit or the minus sign. *)
Lemma int_str_not_quoted (n : Z) : quoted (int_str n) = false.
Proof.
  unfold int_str, NilZero.string_of_int.
  destruct (Z.to_int n) as [d|d]; [| reflexivity].
  by destruct d.
Qed.

Lemma bare_kind_not_quoted (v : yaml_value) (r : string) :
  bare_kind v = true → format_value_for_file v = Some r → quoted r = false.
Proof.
  destruct v as [|b|n| | | |l|d]; try discriminate; intros _; cbn [format_value_for_file].
  - intros [= <-]. by destruct b.
  - intros [= <-]. apply int_str_not_quoted.
  - cbn [json_dumps]. destruct (mapM json_dumps l); [| done]. by intros [= <-].
  - cbn [json_dumps]. destruct (mapM _ d); [| done]. by intros [= <-].
Qed.

(** C4, as the code has it: on a string the formatter is idempotent.  A
    string that starts and ends with a double quote, or starts and ends with
    a single quote, is returned unchanged; any other string comes back
    between double quotes; formatting the result again changes nothing.
    On the text it returns for a value of another type the formatter is a
    second time applied to a string: when that text is not in quotes it
    comes back between double quotes, and so it does for every boolean,
    integer, sequence and mapping. *)
Theorem format_value_idempotent_on_strings (s : string) (v : yaml_value) :
  (quoted s = true → format_value_for_file (VStr s) = Some s)
  ∧ (quoted s = false → format_value_for_file (VStr s) = Some (dq +:+ s +:+ dq))
  ∧ (∀ r, format_value_for_file (VStr s) = Some r →
       format_value_for_file (VStr r) = Some r)
  ∧ (∀ r, format_value_for_file v = Some r → quoted r = false →
       format_value_for_file (VStr r) = Some (dq +:+ r +:+ dq)
       ∧ dq +:+ r +:+ dq ≠ r)
  ∧ (bare_kind v = true →
     ∀ r, format_value_for_file v = Some r → quoted r = false).
Proof.
  rewrite format_str. repeat split.
  - by intros ->.
  - by intros ->.
  - intros r Hr. rewrite format_str.
    destruct (quoted s) eqn:Hq; apply (inj Some) in Hr; subst r;
      [by rewrite Hq | by rewrite quoted_wrap].
  - intros. rewrite format_str. by replace (quoted r) with false.
  - apply wrap_differs.
  - intros Hv r. by apply bare_kind_not_quoted.
Qed.

Lemma format_value_idempotent_on_strings_witness :
  format_value_for_file (VStr "'foo'") = Some "'foo'"
  ∧ format_value_for_file (VStr "foo") = Some (dq +:+ "foo" +:+ dq)
  ∧ format_value_for_file (VStr "[1, 2]") = Some (dq +:+ "[1, 2]" +:+ dq)
  ∧ quoted "[1, 2]" = false.
Proof.
  pose proof (format_value_idempotent_on_strings "'foo'" (VList [VInt 1; VInt 2]))
    as (H1 & _ & _ & H4 & H5).
  pose proof (format_value_idempotent_on_strings "foo" VNone) as (_ & H2 & _).
  split; [apply H1; reflexivity |]. split; [apply H2; reflexivity |].
  split; [apply (H4 "[1, 2]"); reflexivity | apply (H5 eq_refl "[1, 2]"); reflexivity].
Defined.

(** C4 as stated fails on values that are not strings: [True] is rendered
    as the bare word, and formatting that word wraps it in quotes. *)
Lemma format_value_not_idempotent_on_bool :
  format_value_for_file (VBool true) = Some "true"
  ∧ format_value_for_file (VStr "true") = Some (dq +:+ "true" +:+ dq)
  ∧ dq +:+ "true" +:+ dq ≠ "true".
Proof. repeat split. discriminate. Qed.

(** ** Deep merge *)

Section deep_merge_facts.

Lemma deep_merge_nil (target : dict) : deep_merge target [] = target.
Proof. reflexivity. Qed.

Lemma deep_merge_cons (target : dict) key value (rest : dict) :
  deep_merge target ((key, value) :: rest)
  = deep_merge (merge_entry key value target) rest.
Proof. reflexivity. Qed.

Lemma merge_entry_dict k (d target : dict) :
  merge_entry k (VDict d) target
  = match dict_get k target with
    | Some (VDict node_d) => dict_set k (VDict (deep_merge node_d d)) target
    | Some _ => dict_set k (VDict d) target
    | None => dict_set k (VDict (deep_merge [] d)) (dict_set k (VDict []) target)
    end.
Proof.
  unfold merge_entry, setdefault. cbn [is_dict].
  by destruct (dict_get k target) as [[]|].
Qed.

Lemma merge_entry_scalar k v (target : dict) :
  is_dict v = false → merge_entry k v target = dict_set k v target.
Proof. unfold merge_entry. by intros ->. Qed.

Lemma unique_keys_cons k w (rest : dict) :
  unique_keys (VDict ((k, w) :: rest))
  = negb (bool_decide (k ∈ rest.*1)) && unique_keys w && unique_keys (VDict rest).
Proof. reflexivity. Qed.

Lemma dict_get_None (key : string) (d : dict) :
  dict_get key d = None ↔ key ∉ d.*1.
Proof.
  induction d as [|[k v] d IH]; simpl.
  - split; [intros _; apply not_elem_of_nil | done].
  - rewrite not_elem_of_cons. destruct (String.eqb_spec k key) as [->|Hne].
    + split; [done | intros [? _]; done].
    + rewrite IH. split; [intros ?; split; [congruence | done] | intros [_ ?]; done].
Qed.

Lemma dict_get_set (key k : string) v (d : dict) :
  dict_get key (dict_set k v d)
  = if String.eqb k key then Some v else dict_get key d.
Proof.
  induction d as [|[k' w] d IH]; simpl.
  - done.
  - destruct (String.eqb_spec k' k) as [->|Hne]; simpl.
    + by destruct (String.eqb k key).
    + rewrite IH. destruct (String.eqb_spec k' key) as [->|?]; [| done].
      destruct (String.eqb_spec k key); [congruence | done].
Qed.

Lemma dict_set_absent (k : string) v (d : dict) :
  dict_get k d = None → dict_set k v d = d ++ [(k, v)].
Proof.
  induction d as [|[k' w] d IH]; simpl; [done |].
  destruct (String.eqb k' k); [done |]. intros H. by rewrite IH.
Qed.

Lemma dict_set_last (k : string) v w (d : dict) :
  dict_get k d = None → dict_set k v (d ++ [(k, w)]) = d ++ [(k, v)].
Proof.
  induction d as [|[k' u] d IH]; simpl.
  - by rewrite String.eqb_refl.
  - destruct (String.eqb k' k); [done |]. intros H. by rewrite IH.
Qed.

Lemma dict_get_app_None (k : string) (d d' : dict) :
  dict_get k d = None → dict_get k (d ++ d') = dict_get k d'.
Proof.
  induction d as [|[k' u] d IH]; simpl; [done |].
  destruct (String.eqb k' k); [done | auto].
Qed.

(** Merging into a dictionary that has none of the incoming keys appends
    the incoming items. *)
Lemma deep_merge_fresh (source : dict) :
  unique_keys (VDict source) = true →
  ∀ target, (∀ k, k ∈ source.*1 → dict_get k target = None) →
  deep_merge target source = target ++ source.
Proof.
  revert source.
  enough (∀ v, unique_keys v = true →
          ∀ source, v = VDict source →
          ∀ target, (∀ k, k ∈ source.*1 → dict_get k target = None) →
          deep_merge target source = target ++ source) as H.
  { intros source Hu. by apply (H (VDict source)). }
  induction v as [| | | | | | |d IH] using yaml_value_nested_ind; try discriminate.
  intros Hu source [= <-].
  induction d as [|[k w] d IHd]; intros target Hfresh.
  - by rewrite deep_merge_nil, app_nil_r.
  - rewrite unique_keys_cons in Hu.
    apply andb_prop in Hu as [[Hk Hw]%andb_prop Hd].
    apply negb_true_iff, bool_decide_eq_false in Hk.
    apply Forall_cons in IH as [IHw IHrest]. simpl in IHw.
    rewrite deep_merge_cons.
    assert (Hnone : dict_get k target = None).
    { apply Hfresh. simpl. apply elem_of_cons. by left. }
    assert (Hentry : merge_entry k w target = target ++ [(k, w)]).
    { destruct (is_dict w) eqn:Hdict.
      - destruct w; try discriminate.
        rewrite merge_entry_dict, Hnone.
        rewrite (dict_set_absent _ _ _ Hnone), (dict_set_last _ _ _ _ Hnone).
        by rewrite (IHw Hw d0 eq_refl []).
      - rewrite (merge_entry_scalar _ _ _ Hdict). by apply dict_set_absent. }
    rewrite Hentry, (IHd IHrest Hd).
    + by rewrite <- app_assoc.
    + intros k' Hk'. rewrite dict_get_app_None.
      * simpl. destruct (String.eqb_spec k k') as [->|]; [done | done].
      * apply Hfresh. simpl. apply elem_of_cons. by right.
Qed.

Lemma deep_merge_empty (source : dict) :
  unique_keys (VDict source) = true → deep_merge [] source = source.
Proof. intros Hu. by rewrite deep_merge_fresh. Qed.

Lemma dict_get_merge_entry_same k v (target : dict) :
  unique_keys v = true →
  dict_get k (merge_entry k v target) = Some (merged_leaf (dict_get k target) v).
Proof.
  intros Hu. unfold merged_leaf.
  destruct (is_dict v) eqn:Hdict.
  - destruct v; try discriminate. rewrite merge_entry_dict.
    destruct (dict_get k target) as [[]|];
      rewrite dict_get_set, String.eqb_refl; try done.
    by rewrite deep_merge_empty.
  - rewrite (merge_entry_scalar _ _ _ Hdict), dict_get_set, String.eqb_refl.
    by destruct (dict_get k target) as [[]|], v.
Qed.

Lemma dict_get_merge_entry_other key k v (target : dict) :
  k ≠ key → dict_get key (merge_entry k v target) = dict_get key target.
Proof.
  intros Hne. apply String.eqb_neq in Hne.
  destruct (is_dict v) eqn:Hdict.
  - destruct v; try discriminate. rewrite merge_entry_dict.
    destruct (dict_get k target) as [[]|]; rewrite ?dict_get_set, ?Hne; done.
  - by rewrite (merge_entry_scalar _ _ _ Hdict), dict_get_set, Hne.
Qed.

Lemma dict_get_deep_merge (source : dict) :
  unique_keys (VDict source) = true →
  ∀ target key,
  dict_get key (deep_merge target source)
  = match dict_get key source with
    | Some incoming => Some (merged_leaf (dict_get key target) incoming)
    | None => dict_get key target
    end.
Proof.
  induction source as [|[k v] source IH]; intros Hu target key; [done |].
  rewrite unique_keys_cons in Hu.
  apply andb_prop in Hu as [[Hk Hv]%andb_prop Hs].
  apply negb_true_iff, bool_decide_eq_false in Hk.
  rewrite deep_merge_cons, (IH Hs). simpl.
  destruct (String.eqb_spec k key) as [->|Hne].
  - apply dict_get_None in Hk. rewrite Hk. by apply dict_get_merge_entry_same.
  - by rewrite (dict_get_merge_entry_other _ _ _ _ Hne).
Qed.

End deep_merge_facts.

(** ** [deep_merge] on objects and on trees *)

Section heap_facts.

Lemma well_keyed_dict_cons k w (rest : dict) :
  well_keyed (VDict ((k, w) :: rest))
  = negb (bool_decide (k ∈ rest.*1)) && well_keyed w && well_keyed (VDict rest).
Proof. reflexivity. Qed.

Lemma well_keyed_list_cons w (rest : list yaml_value) :
  well_keyed (VList (w :: rest)) = well_keyed w && well_keyed (VList rest).
Proof. reflexivity. Qed.


Lemma mapM_parts (n : nat) (h : Heap.heap) (items : list (string * Heap.obj)) parts :
  mapM (λ kv, pair kv.1 <$> Heap.shape n h kv.2) items = Some parts
  ↔ parts_of n h items parts.
Proof.
  rewrite mapM_Some. unfold parts_of. split.
  - intros H. eapply Forall2_impl; [exact H |]. intros [k v] [k' p]. simpl.
    destruct (Heap.shape n h v); simpl; [| done]. by intros [= -> ->].
  - intros H. eapply Forall2_impl; [exact H |]. intros [k v] [k' p]. simpl.
    by intros [-> ->].
Qed.

Lemma shape_dict (n : nat) (h : Heap.heap) (a : Heap.addr) items :
  h !! a = Some (Heap.CDict items) →
  ∀ r, Heap.shape (S n) h (Heap.ORef a) = Some r
       ↔ ∃ parts, parts_of n h items parts
                  ∧ r = (VDict (tree_of parts), a :: cells_of parts).
Proof.
  intros Ha r. cbn [Heap.shape]. rewrite Ha, fmap_Some. 
  split; intros (parts & Hp & ->); exists parts; (split; [by apply mapM_parts | done]).
Qed.

Lemma shape_list (n : nat) (h : Heap.heap) (a : Heap.addr) items :
  h !! a = Some (Heap.CList items) →
  ∀ r, Heap.shape (S n) h (Heap.ORef a) = Some r
       ↔ ∃ parts, Forall2 (λ v p, Heap.shape n h v = Some p) items parts
                  ∧ r = (VList parts.*1, a :: concat parts.*2).
Proof.
  intros Ha r. cbn [Heap.shape]. rewrite Ha, fmap_Some.
  split; intros (parts & Hp & ->); exists parts; (split; [by apply mapM_Some | done]).
Qed.

Lemma shape_ref_inv (n : nat) (h : Heap.heap) (a : Heap.addr) r :
  Heap.shape n h (Heap.ORef a) = Some r →
  ∃ m, n = S m ∧
    ((∃ items parts, h !! a = Some (Heap.CDict items) ∧ parts_of m h items parts
                     ∧ r = (VDict (tree_of parts), a :: cells_of parts))
     ∨ (∃ items parts, h !! a = Some (Heap.CList items)
                       ∧ Forall2 (λ v p, Heap.shape m h v = Some p) items parts
                       ∧ r = (VList parts.*1, a :: concat parts.*2))).
Proof.
  destruct n as [|m]; [done |]. intros H. exists m. split; [done |].
  destruct (h !! a) as [[items|items]|] eqn:Ha.
  - left. destruct (proj1 (shape_dict _ _ _ _ Ha r) H) as (parts & Hp & Hr).
    by exists items, parts.
  - right. destruct (proj1 (shape_list _ _ _ _ Ha r) H) as (parts & Hp & Hr).
    by exists items, parts.
  - cbn [Heap.shape] in H. by rewrite Ha in H.
Qed.

Lemma shape_scalar (n : nat) (h : Heap.heap) (v : Heap.obj) r :
  (∀ a, v ≠ Heap.ORef a) → Heap.shape n h v = Some r → r.2 = [] ∧ ∀ h' m, Heap.shape m h' v = Some r.
Proof.
  intros Hv. destruct v as [| | | | | |a].
  7: by destruct (Hv a).
  all: destruct n; simpl; intros [= <-]; split; try done.
  all: intros h' m; by destruct m.
Qed.

Lemma cells_of_cons p parts : cells_of (p :: parts) = p.2.2 ++ cells_of parts.
Proof. reflexivity. Qed.

Lemma tree_of_cons p parts : tree_of (p :: parts) = (p.1, p.2.1) :: tree_of parts.
Proof. reflexivity. Qed.

Lemma obj_cases (v : Heap.obj) : (∀ a, v ≠ Heap.ORef a) ∨ ∃ a, v = Heap.ORef a.
Proof. destruct v; try (by left); right; by eexists. Qed.

Lemma parts_of_bound m (h : Heap.heap) items parts :
  (∀ v r, Heap.shape m h v = Some r → ∀ a, a ∈ r.2 → a < length h) →
  parts_of m h items parts → ∀ a, a ∈ cells_of parts → a < length h.
Proof.
  intros IH. induction 1 as [|[k v] [k' p] items parts [Hk Hs] _ IHp]; intros a.
  - by intros ?%elem_of_nil.
  - rewrite cells_of_cons, elem_of_app. intros [Ha|Ha]; [by eapply IH | by apply IHp].
Qed.

Lemma elems_bound m (h : Heap.heap) (items : list Heap.obj) parts :
  (∀ v r, Heap.shape m h v = Some r → ∀ a, a ∈ r.2 → a < length h) →
  Forall2 (λ v p, Heap.shape m h v = Some p) items parts →
  ∀ a, a ∈ concat parts.*2 → a < length h.
Proof.
  intros IH. induction 1 as [|v p items parts Hs _ IHp]; intros a.
  - by intros ?%elem_of_nil.
  - cbn [fmap list_fmap concat]. rewrite elem_of_app.
    intros [Ha|Ha]; [by eapply IH | by apply IHp].
Qed.

(** The addresses [shape] meets are addresses of the heap. *)
Lemma shape_bound n (h : Heap.heap) :
  ∀ v r, Heap.shape n h v = Some r → ∀ a, a ∈ r.2 → a < length h.
Proof.
  induction n as [|m IH]; intros v r Hs a Ha.
  - destruct (obj_cases v) as [Hv|[b ->]]; [| done].
    destruct (shape_scalar _ _ _ _ Hv Hs) as [Hnil _]. rewrite Hnil in Ha.
    by apply elem_of_nil in Ha.
  - destruct (obj_cases v) as [Hv|[b ->]].
    { destruct (shape_scalar _ _ _ _ Hv Hs) as [Hnil _]. rewrite Hnil in Ha.
      by apply elem_of_nil in Ha. }
    apply shape_ref_inv in Hs as (m' & [= <-] & [(items & parts & Hb & Hp & ->)|(items & parts & Hb & Hp & ->)]);
      cbn [snd] in Ha; apply elem_of_cons in Ha as [->|Ha];
      try (by eapply lookup_lt_Some).
    + by eapply parts_of_bound.
    + by eapply elems_bound.
Qed.

Lemma parts_of_agree m (h h' : Heap.heap) items parts :
  (∀ v r, Heap.shape m h v = Some r → (∀ a, a ∈ r.2 → h' !! a = h !! a) →
          Heap.shape m h' v = Some r) →
  parts_of m h items parts → (∀ a, a ∈ cells_of parts → h' !! a = h !! a) →
  parts_of m h' items parts.
Proof.
  intros IH. induction 1 as [|[k v] [k' p] items parts [Hk Hs] _ IHp]; intros Hag;
    constructor.
  - split; [done |]. apply IH; [done |]. intros a Ha. apply Hag.
    rewrite cells_of_cons, elem_of_app. by left.
  - apply IHp. intros a Ha. apply Hag. rewrite cells_of_cons, elem_of_app. by right.
Qed.

Lemma elems_agree m (h h' : Heap.heap) (items : list Heap.obj) parts :
  (∀ v r, Heap.shape m h v = Some r → (∀ a, a ∈ r.2 → h' !! a = h !! a) →
          Heap.shape m h' v = Some r) →
  Forall2 (λ v p, Heap.shape m h v = Some p) items parts →
  (∀ a, a ∈ concat parts.*2 → h' !! a = h !! a) →
  Forall2 (λ v p, Heap.shape m h' v = Some p) items parts.
Proof.
  intros IH. induction 1 as [|v p items parts Hs _ IHp]; intros Hag; constructor.
  - apply IH; [done |]. intros a Ha. apply Hag.
    cbn [fmap list_fmap concat]. rewrite elem_of_app. by left.
  - apply IHp. intros a Ha. apply Hag.
    cbn [fmap list_fmap concat]. rewrite elem_of_app. by right.
Qed.

(** [shape] reads only the cells it meets. *)
Lemma shape_agree n (h h' : Heap.heap) :
  ∀ v r, Heap.shape n h v = Some r → (∀ a, a ∈ r.2 → h' !! a = h !! a) →
         Heap.shape n h' v = Some r.
Proof.
  induction n as [|m IH]; intros v r Hs Hag.
  - destruct (obj_cases v) as [Hv|[b ->]]; [| done].
    by destruct (shape_scalar _ _ _ _ Hv Hs) as [_ ->].
  - destruct (obj_cases v) as [Hv|[b ->]].
    { by destruct (shape_scalar _ _ _ _ Hv Hs) as [_ ->]. }
    apply shape_ref_inv in Hs as (m' & [= <-] & [(items & parts & Hb & Hp & ->)|(items & parts & Hb & Hp & ->)]);
      cbn [snd] in Hag.
    + assert (Hb' : h' !! b = Some (Heap.CDict items)).
      { rewrite Hag; [done | apply elem_of_cons; by left]. }
      apply (shape_dict _ _ _ _ Hb'). exists parts. split; [| done].
      eapply parts_of_agree; [exact IH | done |].
      intros a Ha. apply Hag, elem_of_cons. by right.
    + assert (Hb' : h' !! b = Some (Heap.CList items)).
      { rewrite Hag; [done | apply elem_of_cons; by left]. }
      apply (shape_list _ _ _ _ Hb'). exists parts. split; [| done].
      eapply elems_agree; [exact IH | done |].
      intros a Ha. apply Hag, elem_of_cons. by right.
Qed.

Lemma items_get_app_None {V} (k : string) (d d' : list (string * V)) :
  dict_get k d = None → dict_get k (d ++ d') = dict_get k d'.
Proof.
  induction d as [|[k' u] d IH]; simpl; [done |].
  destruct (String.eqb k' k); [done | auto].
Qed.

Lemma items_set_absent {V} (k : string) (v : V) (d : list (string * V)) :
  dict_get k d = None → dict_set k v d = d ++ [(k, v)].
Proof.
  induction d as [|[k' w] d IH]; simpl; [done |].
  destruct (String.eqb k' k); [done |]. intros H. by rewrite IH.
Qed.

Lemma heap_insert_ne (h : Heap.heap) (i j : Heap.addr) c :
  i ≠ j → <[i := c]> h !! j = h !! j.
Proof. apply list_lookup_insert_ne. Qed.

Lemma heap_insert_eq (h : Heap.heap) (i : Heap.addr) c :
  i < length h → <[i := c]> h !! i = Some c.
Proof. apply list_lookup_insert_eq. Qed.

Lemma heap_insert_length (h : Heap.heap) (i : Heap.addr) c :
  length (<[i := c]> h) = length h.
Proof. apply length_insert. Qed.

Lemma dict_at_Some (h : Heap.heap) (a : Heap.addr) items :
  h !! a = Some (Heap.CDict items) → Heap.dict_at h a = Some items.
Proof. unfold Heap.dict_at. by intros ->. Qed.

Lemma setitem_Ok (y : Heap.addr) key v (h : Heap.heap) items :
  h !! y = Some (Heap.CDict items) →
  Heap.setitem y key v h = Ok (<[y := Heap.CDict (dict_set key v items)]> h).
Proof. unfold Heap.setitem. by intros ->. Qed.

Lemma append_Ok (y : Heap.addr) v (h : Heap.heap) items :
  h !! y = Some (Heap.CList items) →
  Heap.append y v h = Ok (<[y := Heap.CList (items ++ [v])]> h).
Proof. unfold Heap.append. by intros ->. Qed.

Lemma cells_of_app parts parts' :
  cells_of (parts ++ parts') = cells_of parts ++ cells_of parts'.
Proof. unfold cells_of. by rewrite !fmap_app, concat_app. Qed.

Lemma tree_of_app parts parts' :
  tree_of (parts ++ parts') = tree_of parts ++ tree_of parts'.
Proof. unfold tree_of. by rewrite fmap_app. Qed.

Lemma parts_of_keys n h items parts :
  parts_of n h items parts → (tree_of parts).*1 = items.*1.
Proof.
  induction 1 as [|[k v] [k' p] items parts [Hk Hs] _ IHp]; [done |].
  rewrite tree_of_cons. simpl in Hk. subst k'. cbn [fmap list_fmap fst].
  by rewrite <- IHp.
Qed.

Lemma copy_items_spec k :
  copies k →
  ∀ rest parts_r, ∀ done parts_d memo (h : Heap.heap) y,
    parts_of k h rest parts_r →
    NoDup (cells_of parts_r) →
    well_keyed (VDict (tree_of parts_r)) = true →
    (∀ key, key ∈ rest.*1 → dict_get key done = None) →
    (∀ a, a ∈ cells_of parts_r → Heap.assoc a memo = None) →
    (∀ a, a ∈ cells_of parts_r → a < y) →
    h !! y = Some (Heap.CDict done) →
    parts_of k h done parts_d →
    NoDup (cells_of parts_d) →
    (∀ a, a ∈ cells_of parts_d → y < a) →
    ∃ memo' h' done' parts_d',
      Heap.copy_items (Heap.deepcopy k) y rest memo h = Ok (Heap.ORef y, memo', h')
      ∧ h' !! y = Some (Heap.CDict done')
      ∧ parts_of k h' done' parts_d'
      ∧ tree_of parts_d' = tree_of parts_d ++ tree_of parts_r
      ∧ NoDup (cells_of parts_d')
      ∧ (∀ a, a ∈ cells_of parts_d' → y < a)
      ∧ (length h ≤ length h')%nat
      ∧ (∀ a, a < y → h' !! a = h !! a)
      ∧ (∀ a, Heap.assoc a memo = None → a ∉ cells_of parts_r →
              Heap.assoc a memo' = None).
Proof.
  intros Hcopies rest.
  induction rest as [|[key value] rest IH];
    intros parts_r done parts_d memo h y Hr Hnd Hwk Hkeys Hmemo Hlt Hy Hd Hndd Hgt.
  - apply Forall2_nil_inv_l in Hr as ->.
    exists memo, h, done, parts_d. cbn [Heap.copy_items].
    rewrite app_nil_r. done.
  - apply Forall2_cons_inv_l in Hr as ([key' [tv Fv]] & parts_r' & [Hk Hs] & Hr' & ->).
    simpl in Hk, Hs. subst key'.
    rewrite cells_of_cons in Hnd, Hmemo, Hlt. cbn [fst snd] in Hnd, Hmemo, Hlt.
    apply NoDup_app in Hnd as (HndFv & Hdisj & Hnd').
    rewrite tree_of_cons, well_keyed_dict_cons in Hwk. cbn [fst snd] in Hwk.
    apply andb_prop in Hwk as [[Hkey Hwtv]%andb_prop Hwk'].
    apply negb_true_iff, bool_decide_eq_false in Hkey.
    rewrite (parts_of_keys _ _ _ _ Hr') in Hkey.
    assert (Hylt : y < length h) by (by eapply lookup_lt_Some).
    destruct (Hcopies value memo h tv Fv Hs HndFv Hwtv) as
      (v' & memo1 & h1 & Fv' & Hrun & Hs1 & HndFv' & Hfresh & Hlen1 & Hframe1 & Hmemo1).
    { intros a Ha. apply Hmemo, elem_of_app. by left. }
    assert (Hy1 : h1 !! y = Some (Heap.CDict done)) by (by rewrite Hframe1).
    assert (Hnone : dict_get key done = None).
    { apply Hkeys. simpl. apply elem_of_cons. by left. }
    set (h2 := <[y := Heap.CDict (done ++ [(key, v')])]> h1).
    assert (Hframe2 : ∀ a, a ≠ y → h2 !! a = h1 !! a).
    { intros a Ha. unfold h2. by rewrite heap_insert_ne. }
    destruct (IH parts_r' (done ++ [(key, v')]) (parts_d ++ [(key, (tv, Fv'))]) memo1 h2 y)
      as (memo' & h' & done' & parts_d' & Hrun' & Hy' & Hd' & Htree & Hnd'' & Hgt' & Hlen' & Hframe' & Hmemo').
    + eapply parts_of_agree; [apply shape_agree | exact Hr' |].
      intros a Ha. assert (a < y) by (apply Hlt, elem_of_app; by right).
      rewrite Hframe2 by lia. apply Hframe1. lia.
    + done.
    + done.
    + intros key' Hkey'. rewrite items_get_app_None.
      * simpl. destruct (String.eqb_spec key key') as [->|]; [done | done].
      * apply Hkeys. simpl. apply elem_of_cons. by right.
    + intros a Ha. apply Hmemo1.
      * apply Hmemo, elem_of_app. by right.
      * intros HaFv. by apply (Hdisj a).
    + intros a Ha. apply Hlt, elem_of_app. by right.
    + unfold h2. apply heap_insert_eq. lia.
    + apply Forall2_app.
      * eapply parts_of_agree; [apply shape_agree | exact Hd |].
        intros a Ha. assert (y < a) by (by apply Hgt).
        assert (a < length h) by (by eapply (parts_of_bound k h done parts_d (shape_bound k h))).
        rewrite Hframe2 by lia. by apply Hframe1.
      * constructor; [| constructor]. split; [done |]. simpl.
        eapply shape_agree; [exact Hs1 |]. intros a Ha. simpl in Ha.
        apply Hframe2. apply Hfresh in Ha. lia.
    + rewrite cells_of_app. apply NoDup_app. split; [done |]. split.
      * intros a Ha. rewrite cells_of_cons, app_nil_r. simpl. intros Ha'.
        apply Hfresh in Ha'.
        assert (a < length h) by (by eapply (parts_of_bound k h done parts_d (shape_bound k h))).
        lia.
      * by rewrite cells_of_cons, app_nil_r.
    + intros a. rewrite cells_of_app, elem_of_app, cells_of_cons, app_nil_r. simpl.
      intros [Ha|Ha]; [by apply Hgt | apply Hfresh in Ha; lia].
    + exists memo', h', done', parts_d'. cbn [Heap.copy_items]. rewrite Hrun.
      rewrite (setitem_Ok _ _ _ _ _ Hy1), (items_set_absent _ _ _ Hnone). fold h2.
      split; [exact Hrun' |]. split; [done |]. split; [done |].
      split. { rewrite Htree, tree_of_app, <- app_assoc. done. }
      split; [done |]. split; [done |].
      split. { unfold h2 in Hlen'. rewrite heap_insert_length in Hlen'. lia. }
      split. { intros a Ha. rewrite Hframe' by done. rewrite Hframe2 by lia.
               apply Hframe1. lia. }
      intros a Hma Hna. apply Hmemo'.
      * apply Hmemo1; [done |]. intros ?. apply Hna. rewrite cells_of_cons.
        apply elem_of_app. by left.
      * intros ?. apply Hna. rewrite cells_of_cons. apply elem_of_app. by right.
Qed.

Lemma copy_elems_spec k :
  copies k →
  ∀ (rest : list Heap.obj) parts_r, ∀ done parts_d memo (h : Heap.heap) y,
    Forall2 (λ v p, Heap.shape k h v = Some p) rest parts_r →
    NoDup (concat parts_r.*2) →
    well_keyed (VList parts_r.*1) = true →
    (∀ a, a ∈ concat parts_r.*2 → Heap.assoc a memo = None) →
    (∀ a, a ∈ concat parts_r.*2 → a < y) →
    h !! y = Some (Heap.CList done) →
    Forall2 (λ v p, Heap.shape k h v = Some p) done parts_d →
    NoDup (concat parts_d.*2) →
    (∀ a, a ∈ concat parts_d.*2 → y < a) →
    ∃ memo' h' done' parts_d',
      Heap.copy_elems (Heap.deepcopy k) y rest memo h = Ok (Heap.ORef y, memo', h')
      ∧ h' !! y = Some (Heap.CList done')
      ∧ Forall2 (λ v p, Heap.shape k h' v = Some p) done' parts_d'
      ∧ parts_d'.*1 = parts_d.*1 ++ parts_r.*1
      ∧ NoDup (concat parts_d'.*2)
      ∧ (∀ a, a ∈ concat parts_d'.*2 → y < a)
      ∧ (length h ≤ length h')%nat
      ∧ (∀ a, a < y → h' !! a = h !! a)
      ∧ (∀ a, Heap.assoc a memo = None → a ∉ concat parts_r.*2 →
              Heap.assoc a memo' = None).
Proof.
  intros Hcopies rest.
  induction rest as [|value rest IH];
    intros parts_r done parts_d memo h y Hr Hnd Hwk Hmemo Hlt Hy Hd Hndd Hgt.
  - apply Forall2_nil_inv_l in Hr as ->.
    exists memo, h, done, parts_d. cbn [Heap.copy_elems].
    rewrite app_nil_r. done.
  - apply Forall2_cons_inv_l in Hr as ([tv Fv] & parts_r' & Hs & Hr' & ->).
    cbn [fmap list_fmap concat fst snd] in Hnd, Hmemo, Hlt, Hwk.
    apply NoDup_app in Hnd as (HndFv & Hdisj & Hnd').
    rewrite well_keyed_list_cons in Hwk.
    apply andb_prop in Hwk as [Hwtv Hwk'].
    assert (Hylt : y < length h) by (by eapply lookup_lt_Some).
    destruct (Hcopies value memo h tv Fv Hs HndFv Hwtv) as
      (v' & memo1 & h1 & Fv' & Hrun & Hs1 & HndFv' & Hfresh & Hlen1 & Hframe1 & Hmemo1).
    { intros a Ha. apply Hmemo, elem_of_app. by left. }
    assert (Hy1 : h1 !! y = Some (Heap.CList done)) by (by rewrite Hframe1).
    set (h2 := <[y := Heap.CList (done ++ [v'])]> h1).
    assert (Hframe2 : ∀ a, a ≠ y → h2 !! a = h1 !! a).
    { intros a Ha. unfold h2. by rewrite heap_insert_ne. }
    destruct (IH parts_r' (done ++ [v']) (parts_d ++ [(tv, Fv')]) memo1 h2 y)
      as (memo' & h' & done' & parts_d' & Hrun' & Hy' & Hd' & Htree & Hnd'' & Hgt' & Hlen' & Hframe' & Hmemo').
    + eapply elems_agree; [apply shape_agree | exact Hr' |].
      intros a Ha. assert (a < y) by (apply Hlt, elem_of_app; by right).
      rewrite Hframe2 by lia. apply Hframe1. lia.
    + done.
    + done.
    + intros a Ha. apply Hmemo1.
      * apply Hmemo, elem_of_app. by right.
      * intros HaFv. by apply (Hdisj a).
    + intros a Ha. apply Hlt, elem_of_app. by right.
    + unfold h2. apply heap_insert_eq. lia.
    + apply Forall2_app.
      * eapply elems_agree; [apply shape_agree | exact Hd |].
        intros a Ha. assert (y < a) by (by apply Hgt).
        assert (a < length h) by (by eapply (elems_bound k h done parts_d (shape_bound k h))).
        rewrite Hframe2 by lia. by apply Hframe1.
      * constructor; [| constructor].
        eapply shape_agree; [exact Hs1 |]. intros a Ha. simpl in Ha.
        apply Hframe2. apply Hfresh in Ha. lia.
    + rewrite fmap_app, concat_app. apply NoDup_app. split; [done |]. split.
      * intros a Ha. cbn [fmap list_fmap concat snd]. rewrite app_nil_r. intros Ha'.
        apply Hfresh in Ha'.
        assert (a < length h) by (by eapply (elems_bound k h done parts_d (shape_bound k h))).
        lia.
      * cbn [fmap list_fmap concat snd]. by rewrite app_nil_r.
    + intros a. rewrite fmap_app, concat_app, elem_of_app.
      cbn [fmap list_fmap concat snd]. rewrite app_nil_r.
      intros [Ha|Ha]; [by apply Hgt | apply Hfresh in Ha; lia].
    + exists memo', h', done', parts_d'. cbn [Heap.copy_elems]. rewrite Hrun.
      rewrite (append_Ok _ _ _ _ Hy1). fold h2.
      split; [exact Hrun' |]. split; [done |]. split; [done |].
      split. { rewrite Htree, fmap_app, <- app_assoc. done. }
      split; [done |]. split; [done |].
      split. { unfold h2 in Hlen'. rewrite heap_insert_length in Hlen'. lia. }
      split. { intros a Ha. rewrite Hframe' by done. rewrite Hframe2 by lia.
               apply Hframe1. lia. }
      intros a Hma Hna. apply Hmemo'.
      * apply Hmemo1; [done |]. intros ?. apply Hna.
        cbn [fmap list_fmap concat snd]. apply elem_of_app. by left.
      * intros ?. apply Hna.
        cbn [fmap list_fmap concat snd]. apply elem_of_app. by right.
Qed.

Lemma assoc_cons_ne (a b y : Heap.addr) memo :
  a ≠ b → Heap.assoc b ((a, y) :: memo) = Heap.assoc b memo.
Proof. intros Hne. cbn [Heap.assoc]. by apply Nat.eqb_neq in Hne as ->. Qed.

Lemma heap_lookup_app_l (h h' : Heap.heap) (a : Heap.addr) :
  a < length h → (h ++ h') !! a = h !! a.
Proof. apply lookup_app_l. Qed.

Lemma heap_lookup_fresh (h : Heap.heap) c : (h ++ [c]) !! length h = Some c.
Proof. apply list_lookup_middle. done. Qed.

Lemma heap_length_snoc (h : Heap.heap) c : length (h ++ [c]) = S (length h).
Proof. rewrite length_app. simpl. lia. Qed.

(** [copy.deepcopy] of a value that shares nothing builds a new value with
    the same tree, out of new cells, and leaves the old cells alone. *)
Lemma deepcopy_copies k : copies k.
Proof.
  induction k as [|k IH]; intros v memo h t F Hs Hnd Hwk Hmemo.
  - destruct (obj_cases v) as [Hv|[b ->]]; [| done].
    destruct (shape_scalar _ _ _ _ Hv Hs) as [HF Hany]. simpl in HF. subst F.
    exists v, memo, h, []. split.
    { destruct v as [| | | | | |a]; first [done | by destruct (Hv a)]. }
    split; [apply Hany |]. split; [constructor |].
    split; [by intros a ?%elem_of_nil |]. done.
  - destruct (obj_cases v) as [Hv|[b ->]].
    { destruct (shape_scalar _ _ _ _ Hv Hs) as [HF Hany]. simpl in HF. subst F.
      exists v, memo, h, []. split.
      { destruct v as [| | | | | |a]; first [done | by destruct (Hv a)]. }
      split; [apply Hany |]. split; [constructor |].
      split; [by intros a ?%elem_of_nil |]. done. }
    apply shape_ref_inv in Hs as (m' & [= <-] & [(items & parts & Hb & Hp & [= -> ->])|(items & parts & Hb & Hp & [= -> ->])]).
    + apply NoDup_cons in Hnd as [Hbn Hnd].
      destruct (copy_items_spec k IH items parts [] [] ((b, length h) :: memo)
                  (h ++ [Heap.CDict []]) (length h))
        as (memo' & h' & done' & parts_d' & Hrun' & Hy' & Hd' & Htree & Hnd'' & Hgt' & Hlen' & Hframe' & Hmemo').
      * eapply parts_of_agree; [apply shape_agree | exact Hp |].
        intros a Ha. apply heap_lookup_app_l.
        by eapply (parts_of_bound k h items parts (shape_bound k h)).
      * done.
      * done.
      * done.
      * intros a Ha. rewrite assoc_cons_ne; [| by intros ->].
        apply Hmemo, elem_of_cons. by right.
      * by eapply (parts_of_bound k h items parts (shape_bound k h)).
      * apply heap_lookup_fresh.
      * constructor.
      * constructor.
      * by intros a ?%elem_of_nil.
      * exists (Heap.ORef (length h)), memo', h', (length h :: cells_of parts_d').
        rewrite heap_length_snoc in Hlen'.
        split. { cbn [Heap.deepcopy]. rewrite Hmemo by (apply elem_of_cons; by left).
                 by rewrite Hb. }
        split. { apply (shape_dict _ _ _ _ Hy'). exists parts_d'. split; [done |].
                 by rewrite Htree. }
        split. { apply NoDup_cons. split; [| done]. intros Ha%Hgt'. lia. }
        split. { intros a [->|Ha%Hgt']%elem_of_cons; lia. }
        split; [lia |].
        split. { intros a Ha. rewrite Hframe' by done. by apply heap_lookup_app_l. }
        intros a Hma Hna. apply Hmemo'.
        -- rewrite assoc_cons_ne; [done |]. intros ->. apply Hna, elem_of_cons. by left.
        -- intros ?. apply Hna, elem_of_cons. by right.
    + apply NoDup_cons in Hnd as [Hbn Hnd].
      destruct (copy_elems_spec k IH items parts [] [] ((b, length h) :: memo)
                  (h ++ [Heap.CList []]) (length h))
        as (memo' & h' & done' & parts_d' & Hrun' & Hy' & Hd' & Htree & Hnd'' & Hgt' & Hlen' & Hframe' & Hmemo').
      * eapply elems_agree; [apply shape_agree | exact Hp |].
        intros a Ha. apply heap_lookup_app_l.
        by eapply (elems_bound k h items parts (shape_bound k h)).
      * done.
      * done.
      * intros a Ha. rewrite assoc_cons_ne; [| by intros ->].
        apply Hmemo, elem_of_cons. by right.
      * by eapply (elems_bound k h items parts (shape_bound k h)).
      * apply heap_lookup_fresh.
      * constructor.
      * constructor.
      * by intros a ?%elem_of_nil.
      * exists (Heap.ORef (length h)), memo', h', (length h :: concat parts_d'.*2).
        rewrite heap_length_snoc in Hlen'.
        split. { cbn [Heap.deepcopy]. rewrite Hmemo by (apply elem_of_cons; by left).
                 by rewrite Hb. }
        split. { apply (shape_list _ _ _ _ Hy'). exists parts_d'. split; [done |].
                 by rewrite Htree. }
        split. { apply NoDup_cons. split; [| done]. intros Ha%Hgt'. lia. }
        split. { intros a [->|Ha%Hgt']%elem_of_cons; lia. }
        split; [lia |].
        split. { intros a Ha. rewrite Hframe' by done. by apply heap_lookup_app_l. }
        intros a Hma Hna. apply Hmemo'.
        -- rewrite assoc_cons_ne; [done |]. intros ->. apply Hna, elem_of_cons. by left.
        -- intros ?. apply Hna, elem_of_cons. by right.
Qed.

Lemma items_set_same {V} (k : string) (v : V) (d : list (string * V)) :
  dict_get k d = Some v → dict_set k v d = d.
Proof.
  induction d as [|[k' w] d IH]; simpl; [done |].
  destruct (String.eqb k' k); [by intros [= ->] |]. intros H. by rewrite IH.
Qed.

Lemma items_set_set {V} (k : string) (v w : V) (d : list (string * V)) :
  dict_set k v (dict_set k w d) = dict_set k v d.
Proof.
  induction d as [|[k' u] d IH]; simpl.
  - by rewrite String.eqb_refl.
  - destruct (String.eqb k' k) eqn:E; simpl; rewrite E; [done | by rewrite IH].
Qed.

Lemma tree_of_get key parts :
  dict_get key (tree_of parts) = fst <$> dict_get key parts.
Proof.
  induction parts as [|[k p] parts IH]; [done |].
  rewrite tree_of_cons. simpl. by destruct (String.eqb k key).
Qed.

Lemma tree_of_set key p parts :
  tree_of (dict_set key p parts) = dict_set key p.1 (tree_of parts).
Proof.
  induction parts as [|[k q] parts IH]; [done |].
  rewrite tree_of_cons. simpl. destruct (String.eqb k key); [done |].
  by rewrite tree_of_cons, IH.
Qed.

Lemma parts_of_get n (h : Heap.heap) items parts key :
  parts_of n h items parts →
  match dict_get key items with
  | Some v => ∃ p, dict_get key parts = Some p ∧ Heap.shape n h v = Some p
  | None => dict_get key parts = None
  end.
Proof.
  induction 1 as [|[k v] [k' p] items parts [Hk Hs] _ IHp]; [done |].
  simpl in Hk, Hs. subst k'. simpl. destruct (String.eqb k key); [| done].
  by exists p.
Qed.

Lemma cells_under_sub key parts a :
  a ∈ cells_under key parts → a ∈ cells_of parts.
Proof.
  unfold cells_under. induction parts as [|[k p] parts IH]; simpl.
  - by intros ?%elem_of_nil.
  - rewrite cells_of_cons, elem_of_app. simpl.
    destruct (String.eqb k key); [by left | right; auto].
Qed.

Lemma cells_under_NoDup key parts :
  NoDup (cells_of parts) → NoDup (cells_under key parts).
Proof.
  unfold cells_under. induction parts as [|[k p] parts IH]; simpl.
  - constructor.
  - rewrite cells_of_cons. simpl. intros (? & ? & ?)%NoDup_app.
    destruct (String.eqb k key); [done | auto].
Qed.

(** Storing [v] under [key] in a dictionary cell: the parts of the cell
    after the store, when the cells of the other items are as before. *)
Lemma parts_of_set n (h h' : Heap.heap) items parts key v p :
  parts_of n h items parts →
  NoDup (cells_of parts) →
  Heap.shape n h' v = Some p →
  (∀ a, a ∈ cells_of parts → a ∉ cells_under key parts → h' !! a = h !! a) →
  parts_of n h' (dict_set key v items) (dict_set key p parts).
Proof.
  intros Hparts. revert Hparts. unfold cells_under.
  induction 1 as [|[k w] [k' q] items parts [Hk Hs] Hrest IHp]; intros Hnd Hv Hframe.
  - constructor; [done | constructor].
  - simpl in Hk, Hs. subst k'. rewrite cells_of_cons in Hnd, Hframe.
    cbn [fst snd] in Hnd, Hframe. apply NoDup_app in Hnd as (Hq & Hdisj & Hnd).
    simpl in Hframe. simpl. destruct (String.eqb k key) eqn:E.
    + constructor; [done |].
      eapply parts_of_agree; [apply shape_agree | exact Hrest |].
      intros a Ha. apply Hframe; [apply elem_of_app; by right |].
      intros Ha'. by apply (Hdisj a).
    + constructor.
      * split; [done |]. simpl. eapply shape_agree; [exact Hs |].
        intros a Ha. apply Hframe; [apply elem_of_app; by left |].
        intros Ha'. apply (Hdisj a Ha).
        destruct (dict_get key parts) as [r|] eqn:Hget; [| by apply elem_of_nil in Ha'].
        apply (cells_under_sub key). unfold cells_under. by rewrite Hget.
      * apply IHp; [done | done |]. intros a Ha Hna. apply Hframe; [| done].
        apply elem_of_app. by right.
Qed.

Lemma cells_of_set key (p : yaml_value * list Heap.addr) parts :
  NoDup (cells_of parts) → NoDup p.2 →
  (∀ a, a ∈ p.2 → a ∈ cells_under key parts ∨ a ∉ cells_of parts) →
  NoDup (cells_of (dict_set key p parts))
  ∧ ∀ a, a ∈ cells_of (dict_set key p parts) → a ∈ cells_of parts ∨ a ∈ p.2.
Proof.
  unfold cells_under.
  induction parts as [|[k q] parts IH]; intros Hnd Hp Hnew.
  - simpl. rewrite cells_of_cons, app_nil_r. simpl. split; [done | by right].
  - rewrite cells_of_cons in Hnd, Hnew. cbn [fst snd] in Hnd, Hnew.
    apply NoDup_app in Hnd as (Hq & Hdisj & Hnd).
    simpl in Hnew. simpl. destruct (String.eqb k key) eqn:E.
    + rewrite !cells_of_cons. cbn [fst snd]. split.
      * apply NoDup_app. split; [done |]. split; [| done].
        intros a Ha Ha'. destruct (Hnew a Ha) as [Hin|Hout].
        -- by apply (Hdisj a).
        -- apply Hout, elem_of_app. by right.
      * intros a [Ha|Ha]%elem_of_app; [by right | left].
        apply elem_of_app. by right.
    + destruct IH as [IHnd IHsub]; [done | done | |].
      { intros a Ha. destruct (Hnew a Ha) as [Hin|Hout]; [by left | right].
        intros ?. apply Hout, elem_of_app. by right. }
      rewrite !cells_of_cons. cbn [fst snd]. split.
      * apply NoDup_app. split; [done |]. split; [| done].
        intros a Ha Ha'. destruct (IHsub a Ha') as [Hin|Hin]; [by apply (Hdisj a) |].
        destruct (Hnew a Hin) as [Hu|Hout].
        -- apply (Hdisj a Ha).
           destruct (dict_get key parts) as [r|] eqn:Hget; [| by apply elem_of_nil in Hu].
           apply (cells_under_sub key). unfold cells_under. by rewrite Hget.
        -- apply Hout, elem_of_app. by left.
      * intros a [Ha|Ha]%elem_of_app.
        -- left. apply elem_of_app. by left.
        -- destruct (IHsub a Ha) as [Hin|Hin]; [left | by right].
           apply elem_of_app. by right.
Qed.

Lemma shape_as_dict k (h : Heap.heap) value tv Fv :
  Heap.shape k h value = Some (tv, Fv) →
  (is_dict tv = true ∧ ∃ s, value = Heap.ORef s ∧ Heap.as_dict h value = Some s)
  ∨ (is_dict tv = false ∧ Heap.as_dict h value = None).
Proof.
  intros Hs. destruct (obj_cases value) as [Hv|[b ->]].
  - right. destruct value as [| | | | | |a]; try (by destruct k; injection Hs as <- <-).
    by destruct (Hv a).
  - apply shape_ref_inv in Hs as (m' & -> & [(items & parts & Hb & Hp & [= -> ->])|(items & parts & Hb & Hp & [= -> ->])]).
    + left. split; [done |]. exists b. split; [done |].
      unfold Heap.as_dict, Heap.dict_at. by rewrite Hb.
    + right. split; [done |]. unfold Heap.as_dict, Heap.dict_at. by rewrite Hb.
Qed.

(** The dictionary at [target] after [v] has been stored under [key]. *)
Lemma target_update k (h h' : Heap.heap) (target : Heap.addr) items parts key v p :
  parts_of k h items parts →
  NoDup (target :: cells_of parts) →
  h' !! target = Some (Heap.CDict (dict_set key v items)) →
  Heap.shape k h' v = Some p → NoDup p.2 → target ∉ p.2 →
  (∀ a, a ∈ p.2 → a ∈ cells_under key parts ∨ a ∉ cells_of parts) →
  (∀ a, a ∈ cells_of parts → a ∉ cells_under key parts → h' !! a = h !! a) →
  ∃ Ft',
    Heap.shape (S k) h' (Heap.ORef target)
    = Some (VDict (dict_set key p.1 (tree_of parts)), Ft')
    ∧ NoDup Ft'
    ∧ ∀ a, a ∈ Ft' → a ∈ target :: cells_of parts ∨ a ∈ p.2.
Proof.
  intros Hparts [Ht Hnd]%NoDup_cons Htarget Hv Hp Htp Hnew Hframe.
  destruct (cells_of_set key p parts Hnd Hp Hnew) as [Hnd' Hsub].
  exists (target :: cells_of (dict_set key p parts)). split; [| split].
  - apply (shape_dict _ _ _ _ Htarget). exists (dict_set key p parts).
    split; [by eapply parts_of_set |]. by rewrite tree_of_set.
  - apply NoDup_cons. split; [| done]. intros [?|?]%Hsub; done.
  - intros a [->|Ha]%elem_of_cons; [left; apply elem_of_cons; by left |].
    destruct (Hsub a Ha); [left; apply elem_of_cons; by right | by right].
Qed.

(** One turn of the loop of [deep_merge], on the heap and on the trees. *)
Lemma merge_item_spec k rec :
  merges k rec →
  ∀ (h : Heap.heap) (target : Heap.addr) T Ft key value tv Fv,
    Heap.shape (S k) h (Heap.ORef target) = Some (VDict T, Ft) →
    Heap.shape k h value = Some (tv, Fv) →
    NoDup (Ft ++ Fv) → well_keyed tv = true →
    ∃ h' Ft',
      Heap.merge_item rec k target key value h = Ok h'
      ∧ Heap.shape (S k) h' (Heap.ORef target) = Some (VDict (merge_entry key tv T), Ft')
      ∧ NoDup Ft'
      ∧ (∀ a, a ∈ Ft' → a ∈ Ft ∨ a ∈ Fv ∨ (length h ≤ a)%nat)
      ∧ (length h ≤ length h')%nat
      ∧ (∀ a, a < length h → a ∉ Ft → a ∉ Fv → h' !! a = h !! a).
Proof.
  intros Hrec h target T Ft key value tv Fv Ht Hv Hnd Hwk.
  apply shape_ref_inv in Ht
    as (m' & [= <-] & [(items & parts & Hb & Hp & [= -> ->])|(items & parts & Hb & Hp & [= ])]).
  apply NoDup_app in Hnd as (HndT & Hdisj & HndV).
  assert (Htlt : target < length h) by (by eapply lookup_lt_Some).
  assert (Hclt : ∀ a, a ∈ cells_of parts → a < length h).
  { by eapply (parts_of_bound k h items parts (shape_bound k h)). }
  assert (Hcne : ∀ a, a ∈ cells_of parts → a ≠ target).
  { intros a Ha ->. by apply NoDup_cons in HndT as [? _]. }
  assert (Hcnv : ∀ a, a ∈ cells_of parts → a ∉ Fv).
  { intros a Ha. apply Hdisj, elem_of_cons. by right. }
  assert (HtFv : target ∉ Fv) by (apply Hdisj, elem_of_cons; by left).
  assert (HFv : ∀ a, a ∈ Fv → a < length h) by (by apply (shape_bound k h value (tv, Fv))).
  unfold Heap.merge_item.
  destruct (shape_as_dict _ _ _ _ _ Hv) as [[Hd (s & -> & ->)]|[Hd ->]].
  2: { (* the value is not a dictionary: it is stored as it is *)
    rewrite (setitem_Ok _ _ _ _ _ Hb), (merge_entry_scalar _ _ _ Hd).
    set (h' := <[target := Heap.CDict (dict_set key value items)]> h).
    assert (Hframe : ∀ a, a ≠ target → h' !! a = h !! a).
    { intros a Ha. unfold h'. by rewrite heap_insert_ne. }
    destruct (target_update k h h' target items parts key value (tv, Fv)) as (Ft' & Hs' & Hnd' & Hsub);
      try done.
    - unfold h'. by apply heap_insert_eq.
    - eapply shape_agree; [exact Hv |]. intros a Ha. apply Hframe. by intros ->.
    - intros a Ha. right. intros Ha'. by apply (Hcnv a).
    - intros a Ha _. apply Hframe. by apply Hcne.
    - exists h', Ft'. split; [done |]. split; [done |]. split; [done |].
      split. { intros a Ha. destruct (Hsub a Ha); [by left | right; by left]. }
      split. { unfold h'. by rewrite heap_insert_length. }
      intros a _ Ha _. apply Hframe. intros ->. apply Ha, elem_of_cons. by left. }
  destruct tv as [| | | | | | |Sv]; try discriminate. clear Hd.
  assert (Hk : ∃ k', k = S k') by (destruct k; [done | by eexists]).
  destruct Hk as [k' ->].
  set (h1 := h ++ [Heap.CDict []]).
  assert (Hframe1 : ∀ a, a < length h → h1 !! a = h !! a).
  { intros a Ha. by apply heap_lookup_app_l. }
  assert (Hlen1 : length h1 = S (length h)) by apply heap_length_snoc.
  assert (Hfresh1 : h1 !! length h = Some (Heap.CDict [])) by apply heap_lookup_fresh.
  assert (Hb1 : h1 !! target = Some (Heap.CDict items)) by (by rewrite Hframe1).
  assert (Hv1 : Heap.shape (S k') h1 (Heap.ORef s) = Some (VDict Sv, Fv)).
  { eapply shape_agree; [exact Hv |]. intros a Ha. apply Hframe1. by apply HFv. }
  rewrite (dict_at_Some _ _ _ Hb1).
  pose proof (parts_of_get _ _ _ _ key Hp) as Hget.
  destruct (dict_get key items) as [node|] eqn:Hnode.
  - destruct Hget as ([tn Fn] & Hgetp & Hn).
    assert (HFn : ∀ a, a ∈ Fn → a ∈ cells_of parts).
    { intros a Ha. apply (cells_under_sub key). unfold cells_under. by rewrite Hgetp. }
    assert (HndFn : NoDup Fn).
    { apply NoDup_cons in HndT as [_ HndT].
      pose proof (cells_under_NoDup key parts HndT) as H. unfold cells_under in H.
      by rewrite Hgetp in H. }
    assert (Hn1 : Heap.shape (S k') h1 node = Some (tn, Fn)).
    { eapply shape_agree; [exact Hn |]. intros a Ha. apply Hframe1.
      by apply Hclt, HFn. }
    assert (HgetT : dict_get key (tree_of parts) = Some tn).
    { by rewrite tree_of_get, Hgetp. }
    destruct (shape_as_dict _ _ _ _ _ Hn1) as [[Hd (n & -> & ->)]|[Hd ->]].
    + (* the node is a dictionary: the recursive call *)
      destruct tn as [| | | | | | |Tn]; try discriminate. clear Hd.
      destruct (Hrec h1 n s Tn Sv Fn Fv Hn1 Hv1) as (h2 & Fn' & Hrun & Hs2 & Hnd2 & Hsub2 & Hlen2 & Hframe2).
      { apply NoDup_app. split; [done |]. split; [| done].
        intros a Ha. by apply Hcnv, HFn. }
      { done. }
      assert (Hframe : ∀ a, a < length h → a ∉ Fn → a ∉ Fv → h2 !! a = h !! a).
      { intros a Ha HaFn HaFv. rewrite Hframe2, Hframe1; [done | done | lia | done | done]. }
      destruct (target_update (S k') h h2 target items parts key (Heap.ORef n)
                  (VDict (deep_merge Tn Sv), Fn')) as (Ft' & Hs' & Hnd' & Hsub); try done.
      * rewrite (items_set_same _ _ _ Hnode), Hframe; [done | done | | done].
        intros Ha%HFn. by apply Hcne in Ha.
      * intros Ha. destruct (Hsub2 _ Ha) as [Hin%HFn|[Hin|Hin]]; [| done | lia].
        by apply Hcne in Hin.
      * intros a Ha. unfold cells_under. rewrite Hgetp. simpl.
        destruct (Hsub2 _ Ha) as [Hin|[Hin|Hin]]; [by left | right | right].
        -- intros Ha'. by apply Hcnv in Ha'.
        -- intros Ha'. apply Hclt in Ha'. lia.
      * intros a Ha Hna. unfold cells_under in Hna. rewrite Hgetp in Hna.
        apply Hframe; [by apply Hclt | done | by apply Hcnv].
      * exists h2, Ft'. split; [done |].
        split. { by rewrite merge_entry_dict, HgetT. }
        split; [done |].
        split. { intros a Ha. destruct (Hsub a Ha) as [Hin|Hin]; [by left |].
                 destruct (Hsub2 _ Hin) as [Hin'|[Hin'|Hin']].
                 - left. apply elem_of_cons. right. by apply HFn.
                 - right. by left.
                 - right. right. lia. }
        split; [lia |].
        intros a Ha HaT HaV. apply Hframe; [done | | done].
        intros Hin%HFn. apply HaT, elem_of_cons. by right.
    + (* the node is something else: a deep copy takes its place *)
      destruct (deepcopy_copies (S k') (Heap.ORef s) [] h1 (VDict Sv) Fv Hv1 HndV Hwk)
        as (copy & memo' & h2 & Fc & Hrun & Hs2 & Hnd2 & Hfresh2 & Hlen2 & Hframe2 & _).
      { done. }
      rewrite Hrun.
      assert (Hb2 : h2 !! target = Some (Heap.CDict items)).
      { rewrite Hframe2, Hframe1; [done | done | lia]. }
      rewrite (setitem_Ok _ _ _ _ _ Hb2).
      set (h3 := <[target := Heap.CDict (dict_set key copy items)]> h2).
      assert (Hframe : ∀ a, a < length h → a ≠ target → h3 !! a = h !! a).
      { intros a Ha Hne. unfold h3.
        rewrite heap_insert_ne, Hframe2, Hframe1; [done | done | lia | done]. }
      destruct (target_update (S k') h h3 target items parts key copy (VDict Sv, Fc))
        as (Ft' & Hs' & Hnd' & Hsub); try done.
      * unfold h3. apply heap_insert_eq. lia.
      * eapply shape_agree; [exact Hs2 |]. intros a Ha. unfold h3.
        apply heap_insert_ne. apply Hfresh2 in Ha. lia.
      * intros Ha%Hfresh2. lia.
      * intros a Ha%Hfresh2. right. intros Ha'%Hclt. lia.
      * intros a Ha _. apply Hframe; [by apply Hclt | by apply Hcne].
      * exists h3, Ft'. split; [done |].
        split. { rewrite merge_entry_dict, HgetT. by destruct tn. }
        split; [done |].
        split. { intros a Ha. destruct (Hsub a Ha) as [Hin|Hin%Hfresh2]; [by left |].
                 right. right. lia. }
        split. { unfold h3. rewrite heap_insert_length. lia. }
        intros a Ha HaT _. apply Hframe; [done |]. intros ->.
        apply HaT, elem_of_cons. by left.
  - (* no node under the key: the new dictionary is stored, then merged into *)
    rewrite (setitem_Ok _ _ _ _ _ Hb1).
    set (h2 := <[target := Heap.CDict (dict_set key (Heap.ORef (length h)) items)]> h1).
    assert (Hframe2 : ∀ a, a ≠ target → h2 !! a = h1 !! a).
    { intros a Ha. unfold h2. by rewrite heap_insert_ne. }
    assert (Hlen2 : length h2 = S (length h)).
    { unfold h2. by rewrite heap_insert_length. }
    destruct (Hrec h2 (length h) s [] Sv [length h] Fv) as (h3 & Ff & Hrun & Hs3 & Hnd3 & Hsub3 & Hlen3 & Hframe3).
    { apply (shape_dict k' h2 (length h) []).
      - rewrite Hframe2; [done | lia].
      - exists []. split; [constructor | done]. }
    { eapply shape_agree; [exact Hv1 |]. intros a Ha. apply Hframe2.
      intros ->. done. }
    { apply NoDup_cons. split; [| done]. intros Ha%HFv. lia. }
    { done. }
    assert (Hframe : ∀ a, a < length h → a ≠ target → a ∉ Fv → h3 !! a = h !! a).
    { intros a Ha Hne HaV. rewrite Hframe3, Hframe2, Hframe1; [done | done | done | lia | |done].
      intros ->%list_elem_of_singleton. lia. }
    destruct (target_update (S k') h h3 target items parts key (Heap.ORef (length h))
                (VDict (deep_merge [] Sv), Ff)) as (Ft' & Hs' & Hnd' & Hsub); try done.
    + rewrite Hframe3; [| lia | |done].
      * unfold h2. apply heap_insert_eq. rewrite Hlen1. lia.
      * intros ->%list_elem_of_singleton. lia.
    + intros Ha. destruct (Hsub3 _ Ha) as [->%list_elem_of_singleton|[Hin|Hin]];
        [lia | done | lia].
    + intros a Ha. right. intros Ha'.
      destruct (Hsub3 _ Ha) as [->%list_elem_of_singleton|[Hin|Hin]].
      * apply Hclt in Ha'. lia.
      * by apply Hcnv in Ha'.
      * apply Hclt in Ha'. lia.
    + intros a Ha _. apply Hframe; [by apply Hclt | by apply Hcne | by apply Hcnv].
    + exists h3, Ft'. split; [exact Hrun |].
      split. { rewrite merge_entry_dict.
               assert (dict_get key (tree_of parts) = None) as ->
                 by (by rewrite tree_of_get, Hget).
               by rewrite items_set_set. }
      split; [done |].
      split. { intros a Ha. destruct (Hsub a Ha) as [Hin|Hin]; [by left |].
               destruct (Hsub3 _ Hin) as [->%list_elem_of_singleton|[Hin'|Hin']].
               - right. right. lia.
               - right. by left.
               - right. right. lia. }
      split; [lia |].
      intros a Ha HaT HaV. apply Hframe; [done | | done]. intros ->.
      apply HaT, elem_of_cons. by left.
Qed.

(** The loop of [deep_merge] from the item at index [i] on. *)
Lemma merge_loop_spec k rec (source : Heap.addr) items_s :
  merges k rec →
  ∀ todo i (h : Heap.heap) (target : Heap.addr) T Ft parts_r,
    h !! source = Some (Heap.CDict items_s) →
    i + todo = length items_s →
    parts_of k h (drop i items_s) parts_r →
    Heap.shape (S k) h (Heap.ORef target) = Some (VDict T, Ft) →
    NoDup (Ft ++ source :: cells_of parts_r) →
    well_keyed (VDict (tree_of parts_r)) = true →
    ∃ h' Ft',
      Heap.merge_loop rec k target source (length items_s) todo i h = Ok h'
      ∧ Heap.shape (S k) h' (Heap.ORef target)
        = Some (VDict (deep_merge T (tree_of parts_r)), Ft')
      ∧ NoDup Ft'
      ∧ (∀ a, a ∈ Ft' → a ∈ Ft ∨ a ∈ cells_of parts_r ∨ (length h ≤ a)%nat)
      ∧ (length h ≤ length h')%nat
      ∧ (∀ a, a < length h → a ∉ Ft → a ∉ cells_of parts_r → h' !! a = h !! a).
Proof.
  intros Hrec todo.
  induction todo as [|todo IH]; intros i h target T Ft parts_r Hsrc Hi Hparts Ht Hnd Hwk.
  - rewrite drop_ge in Hparts by lia. apply Forall2_nil_inv_l in Hparts as ->.
    exists h, Ft. cbn [Heap.merge_loop]. rewrite (dict_at_Some _ _ _ Hsrc), Nat.eqb_refl.
    cbn [negb]. split; [done |]. split; [done |].
    split; [by apply NoDup_app in Hnd as (? & _) |].
    split; [by left |]. done.
  - destruct (lookup_lt_is_Some_2 items_s i) as [[key value] Hitem]; [lia |].
    rewrite (drop_S _ _ _ Hitem) in Hparts.
    apply Forall2_cons_inv_l in Hparts as ([key' [tv Fv]] & parts_r' & [Hk Hv] & Hrest & ->).
    simpl in Hk, Hv. subst key'.
    rewrite cells_of_cons in Hnd. cbn [fst snd] in Hnd.
    apply NoDup_app in Hnd as (HndT & Hdisj & [Hsn HndS]%NoDup_cons).
    apply NoDup_app in HndS as (HndV & HdisjV & HndR).
    rewrite tree_of_cons, well_keyed_dict_cons in Hwk. cbn [fst snd] in Hwk.
    apply andb_prop in Hwk as [[_ Hwtv]%andb_prop Hwk'].
    assert (Hslt : source < length h) by (by eapply lookup_lt_Some).
    destruct (merge_item_spec k rec Hrec h target T Ft key value tv Fv Ht Hv)
      as (h1 & Ft1 & Hrun1 & Ht1 & Hnd1 & Hsub1 & Hlen1 & Hframe1); [| done |].
    { apply NoDup_app. split; [done |]. split; [| done].
      intros a Ha Ha'. apply (Hdisj a Ha), elem_of_cons. right.
      apply elem_of_app. by left. }
    assert (HT : ∀ a, a ∈ Ft → a ≠ source ∧ (a ∉ Fv) ∧ (a ∉ cells_of parts_r')).
    { intros a Ha. pose proof (Hdisj a Ha) as Hn.
      rewrite not_elem_of_cons, not_elem_of_app in Hn. tauto. }
    assert (HsV : (source ∉ Fv) ∧ (source ∉ cells_of parts_r')).
    { by apply not_elem_of_app. }
    assert (HRlt : ∀ a, a ∈ cells_of parts_r' → a < length h).
    { by eapply (parts_of_bound k h _ parts_r' (shape_bound k h)). }
    assert (HVlt : ∀ a, a ∈ Fv → a < length h).
    { by apply (shape_bound k h value (tv, Fv)). }
    destruct (IH (S i) h1 target (merge_entry key tv T) Ft1 parts_r')
      as (h' & Ft' & Hrun & Ht' & Hnd' & Hsub & Hlen & Hframe).
    + rewrite Hframe1; [done | done | | tauto]. intros Ha. by destruct (HT _ Ha).
    + lia.
    + eapply parts_of_agree; [apply shape_agree | exact Hrest |].
      intros a Ha. apply Hframe1; [by apply HRlt | |].
      * intros Ha'. by destruct (HT _ Ha') as (_ & _ & ?).
      * intros Ha'. by apply (HdisjV a).
    + done.
    + apply NoDup_app. split; [done |]. split.
      * intros a Ha [->|Ha']%elem_of_cons.
        -- destruct (Hsub1 _ Ha) as [Hin|[Hin|Hin]];
             [by destruct (HT _ Hin) | tauto | lia].
        -- destruct (Hsub1 _ Ha) as [Hin|[Hin|Hin]].
           ++ by destruct (HT _ Hin) as (_ & _ & ?).
           ++ by apply (HdisjV a).
           ++ apply HRlt in Ha'. lia.
      * apply NoDup_cons. split; [tauto | done].
    + done.
    + exists h', Ft'. cbn [Heap.merge_loop].
      rewrite (dict_at_Some _ _ _ Hsrc), Nat.eqb_refl. cbn [negb].
      rewrite Hitem, Hrun1. split; [exact Hrun |].
      split; [by rewrite tree_of_cons, deep_merge_cons |].
      split; [done |].
      split. { intros a Ha. rewrite cells_of_cons, elem_of_app. cbn [fst snd].
               destruct (Hsub a Ha) as [Hin|[Hin|Hin]]; [| tauto | right; right; lia].
               destruct (Hsub1 _ Hin) as [?|[?|?]]; tauto. }
      split; [lia |].
      intros a Ha HaT HaR. rewrite cells_of_cons, not_elem_of_app in HaR.
      cbn [fst snd] in HaR. rewrite Hframe; [apply Hframe1; tauto | lia | | tauto].
      intros Hin. destruct (Hsub1 _ Hin) as [?|[?|?]]; [tauto | tauto | lia].
Qed.

(** [deep_merge] on the heap computes the merge of the trees, when the two
    dictionaries share no cell, inside or with each other. *)
Lemma deep_merge_merges k : merges k (Heap.deep_merge k).
Proof.
  induction k as [|k IH]; intros h target source T S0 Ft Fs Ht Hs Hnd Hwk; [done |].
  pose proof Hs as Hs'.
  apply shape_ref_inv in Hs'
    as (m' & [= <-] & [(items & parts & Hb & Hp & [= -> ->])|(items & parts & Hb & Hp & [= ])]).
  destruct (merge_loop_spec k (Heap.deep_merge k) source items IH (length items) 0
              h target T Ft parts Hb) as (h' & Ft' & Hrun & Ht' & Hnd' & Hsub & Hlen & Hframe);
    try done.
  exists h', Ft'. cbn [Heap.deep_merge]. rewrite (dict_at_Some _ _ _ Hb).
  split; [done |]. split; [done |]. split; [done |].
  split. { intros a Ha. destruct (Hsub a Ha) as [?|[?|?]]; [by left | | by right; right].
           right. left. apply elem_of_cons. by right. }
  split; [done |].
  intros a Ha HaT HaS. apply Hframe; [done | done |].
  intros ?. apply HaS, elem_of_cons. by right.
Qed.

Lemma truthy_shape n (h : Heap.heap) v t F :
  Heap.shape n h v = Some (t, F) → Heap.truthy h v = truthy t.
Proof.
  intros Hs. destruct (obj_cases v) as [Hv|[b ->]].
  - destruct v as [| | | | | |a]; try (by destruct n; injection Hs as <- <-).
    by destruct (Hv a).
  - apply shape_ref_inv in Hs as (m' & -> & [(items & parts & Hb & Hp & [= -> ->])|(items & parts & Hb & Hp & [= -> ->])]);
      cbn [Heap.truthy]; rewrite Hb; by destruct Hp.
Qed.

Lemma roots_elems n (h : Heap.heap) (roots : list (string * Heap.obj)) parts :
  Forall2 (λ root p, Heap.shape n h root.2 = Some p) roots parts
  ↔ Forall2 (λ v p, Heap.shape n h v = Some p) roots.*2 parts.
Proof.
  split.
  - induction 1; constructor; done.
  - revert parts. induction roots as [|root roots IH]; intros parts H.
    + apply Forall2_nil_inv_l in H as ->. constructor.
    + apply Forall2_cons_inv_l in H as (p & parts' & Hp & Hrest & ->).
      constructor; [done | by apply IH].
Qed.

Lemma load_from_refines n :
  ∀ (roots : list (string * Heap.obj)) parts (h : Heap.heap) (m : Heap.addr) M Fm,
    Forall2 (λ root p, Heap.shape n h root.2 = Some p) roots parts →
    Heap.shape n h (Heap.ORef m) = Some (VDict M, Fm) →
    NoDup (Fm ++ concat parts.*2) →
    Forall (λ p, well_keyed p.1 = true) parts →
    match load_from M (parsed_sources roots parts) with
    | Ok M' =>
        ∃ h' Fm',
          Heap.load_from n m roots h = Ok h'
          ∧ Heap.shape n h' (Heap.ORef m) = Some (VDict M', Fm')
          ∧ NoDup Fm'
          ∧ (length h ≤ length h')%nat
          ∧ (∀ a, a < length h → a ∉ Fm → a ∉ concat parts.*2 → h' !! a = h !! a)
    | Err e => Heap.load_from n m roots h = Err e
    end.
Proof.
  induction roots as [|[path v] roots IH]; intros parts h m M Fm Hparts Hm Hnd Hwk.
  - apply Forall2_nil_inv_l in Hparts as ->. cbn. exists h, Fm.
    split; [done |]. split; [done |]. by rewrite app_nil_r in Hnd.
  - apply Forall2_cons_inv_l in Hparts as ([t F] & parts' & Hv & Hrest & ->).
    cbn [snd] in Hv. apply Forall_cons in Hwk as [Hwt Hwk]. cbn [fst] in Hwt.
    cbn [fmap list_fmap concat snd] in Hnd.
    apply NoDup_app in Hnd as (HndM & Hdisj & (HndF & HdisjF & HndR)%NoDup_app).
    unfold parsed_sources. cbn [zip_with load_from load_one ds_content ds_path fst snd Heap.load_from].
    fold (parsed_sources roots parts').
    rewrite (truthy_shape _ _ _ _ _ Hv).
    assert (HRlt : ∀ a, a ∈ concat parts'.*2 → a < length h).
    { intros a Ha.
      eapply (elems_bound n h roots.*2 parts' (shape_bound n h)); [| exact Ha].
      by apply roots_elems. }
    destruct (truthy t) eqn:Htruthy.
    + destruct (shape_as_dict _ _ _ _ _ Hv) as [[Hd (s & -> & ->)]|[Hd ->]].
      * destruct t as [| | | | | | |S0]; try discriminate.
        destruct (deep_merge_merges n h m s M S0 Fm F Hm Hv) as (h1 & Fm1 & Hrun & Hm1 & Hnd1 & Hsub1 & Hlen1 & Hframe1).
        { apply NoDup_app. split; [done |]. split; [| done].
          intros a Ha Ha'. apply (Hdisj a Ha), elem_of_app. by left. }
        { done. }
        rewrite Hrun.
        assert (Hrest1 : Forall2 (λ root p, Heap.shape n h1 root.2 = Some p) roots parts').
        { apply roots_elems.
          eapply elems_agree; [apply shape_agree | by apply roots_elems |].
          intros a Ha. apply Hframe1; [by apply HRlt | |].
          - intros Ha'. apply (Hdisj a Ha'), elem_of_app. by right.
          - intros Ha'. by apply (HdisjF a). }
        assert (Hnd1' : NoDup (Fm1 ++ concat parts'.*2)).
        { apply NoDup_app. split; [done |]. split; [| done].
          intros a Ha Ha'. destruct (Hsub1 a Ha) as [Hin|[Hin|Hin]].
          - apply (Hdisj a Hin), elem_of_app. by right.
          - by apply (HdisjF a).
          - apply HRlt in Ha'. lia. }
        specialize (IH parts' h1 m (deep_merge M S0) Fm1 Hrest1 Hm1 Hnd1' Hwk).
        destruct (load_from (deep_merge M S0) (parsed_sources roots parts')) as [M'|e];
          [| done].
        destruct IH as (h' & Fm' & Hrun' & Hm' & Hnd' & Hlen' & Hframe').
        exists h', Fm'. split; [done |]. split; [done |]. split; [done |].
        split; [lia |].
        intros a Ha HaM HaF. cbn [fmap list_fmap concat snd] in HaF.
        rewrite not_elem_of_app in HaF.
        rewrite Hframe'; [apply Hframe1; tauto | lia | | tauto].
        intros Hin. destruct (Hsub1 a Hin) as [?|[?|?]]; [tauto | tauto | lia].
      * by destruct t.
    + assert (Hnd' : NoDup (Fm ++ concat parts'.*2)).
      { apply NoDup_app. split; [done |]. split; [| done].
        intros a Ha Ha'. apply (Hdisj a Ha), elem_of_app. by right. }
      specialize (IH parts' h m M Fm Hrest Hm Hnd' Hwk).
      destruct (load_from M (parsed_sources roots parts')) as [M'|e]; [| done].
      destruct IH as (h' & Fm' & Hrun' & Hm' & Hnd'' & Hlen' & Hframe').
      exists h', Fm'. split; [done |]. split; [done |]. split; [done |].
      split; [done |].
      intros a Ha HaM HaF. cbn [fmap list_fmap concat snd] in HaF.
        rewrite not_elem_of_app in HaF. apply Hframe'; tauto.
Qed.

End heap_facts.




(** ** The data loader *)

Section loader_facts.

Lemma load_from_app (merged : dict) (a b : list data_source) :
  load_from merged (a ++ b)
  = match load_from merged a with
    | Ok merged' => load_from merged' b
    | Err e => Err e
    end.
Proof.
  revert merged. induction a as [|src a IH]; intros merged; simpl; [done |].
  destruct (load_one merged src); [apply IH | done].
Qed.

Lemma load_one_loads (merged : dict) (src : data_source) :
  loads src = true → ∃ merged', load_one merged src = Ok merged'.
Proof.
  unfold loads, load_one. destruct (ds_content src) as [| | |root]; try done.
  destruct (truthy root); simpl; [| by eauto].
  destruct root; try done. eauto.
Qed.

Lemma load_from_loads (merged : dict) (srcs : list data_source) :
  forallb loads srcs = true → ∃ merged', load_from merged srcs = Ok merged'.
Proof.
  revert merged. induction srcs as [|src srcs IH]; intros merged; simpl; [by eauto |].
  intros [Hsrc Hrest]%andb_prop.
  destruct (load_one_loads merged src Hsrc) as [merged' ->]. by apply IH.
Qed.

Lemma load_one_fails (merged : dict) (src : data_source) :
  loads src = false → ∃ e, load_one merged src = Err e.
Proof.
  unfold loads, load_one. destruct (ds_content src) as [| | |root]; try by eauto.
  destruct (truthy root); simpl; [| done].
  destruct root; try done; eauto.
Qed.

Lemma load_from_fails (merged : dict) (srcs : list data_source) :
  forallb loads srcs = false → ∃ e, load_from merged srcs = Err e.
Proof.
  revert merged. induction srcs as [|src srcs IH]; intros merged; simpl; [done |].
  destruct (loads src) eqn:Hsrc; simpl.
  - intros Hrest. destruct (load_one_loads merged src Hsrc) as [merged' ->]. by apply IH.
  - intros _. destruct (load_one_fails merged src Hsrc) as [e ->]. eauto.
Qed.

End loader_facts.

(** C8, as the code has it.  With the sources before it loading, a source
    that does not exist fails the loader with the not-found error, and a
    source whose parsed root is truthy and not a mapping fails it with the
    format error; a source whose parsed root is falsy is passed over as if
    it were not in the list, mapping or not.  The loader fails as soon as
    one source does not load, and a failed load ends the run with the error:
    there is no report and no file has been processed. *)
Theorem loader_failures (before after : list data_source) (src : data_source)
    (input_dir_is_dir output_dir_creatable : bool) (input_dir output_dir : string)
    (files : list input_file) :
  forallb loads before = true →
  (ds_content src = Missing →
   load_and_merge_data (before ++ src :: after) = Err (FileNotFoundError (ds_path src)))
  ∧ (∀ root, ds_content src = Parsed root → truthy root = true → is_dict root = false →
     load_and_merge_data (before ++ src :: after)
     = Err (ValueError_not_a_dictionary (ds_path src)))
  ∧ (∀ root, ds_content src = Parsed root → truthy root = false →
     load_and_merge_data (before ++ src :: after) = load_and_merge_data (before ++ after))
  ∧ (loads src = false →
     ∃ e, load_and_merge_data (before ++ src :: after) = Err e
          ∧ main_local (before ++ src :: after) input_dir_is_dir output_dir_creatable
              input_dir output_dir files
            = DataError e).
Proof.
  intros Hbefore. unfold load_and_merge_data.
  destruct (load_from_loads [] before Hbefore) as [merged Hmerged].
  repeat split.
  - intros Hc. rewrite load_from_app, Hmerged. simpl. unfold load_one. by rewrite Hc.
  - intros root Hc Ht Hd. rewrite load_from_app, Hmerged. simpl.
    unfold load_one. rewrite Hc, Ht. by destruct root.
  - intros root Hc Ht. rewrite !load_from_app, Hmerged. simpl.
    unfold load_one. by rewrite Hc, Ht.
  - intros Hsrc. unfold main_local, load_and_merge_data.
    rewrite load_from_app, Hmerged. simpl.
    destruct (load_one_fails merged src Hsrc) as [e ->]. eauto.
Qed.

Lemma loader_failures_witness :
  load_and_merge_data
    [DataSource "base.yaml" (Parsed (VDict example_A));
     DataSource "list.yaml" (Parsed (VList [VInt 1]));
     DataSource "gone.yaml" Missing]
  = Err (ValueError_not_a_dictionary "list.yaml").
Proof.
  refine (proj1 (proj2 (loader_failures
            [DataSource "base.yaml" (Parsed (VDict example_A))]
            [DataSource "gone.yaml" Missing]
            (DataSource "list.yaml" (Parsed (VList [VInt 1])))
            true true "in" "out" [] _)) (VList [VInt 1]) _ _ _);
    reflexivity.
Defined.

(** C8 as stated fails on a source whose parsed root is not a mapping but
    falsy: an empty sequence is passed over, the load succeeds and the run
    goes on to process the files. *)
Lemma loader_accepts_empty_sequence :
  is_dict (VList []) = false
  ∧ load_and_merge_data [DataSource "values.yaml" (Parsed (VList []))] = Ok []
  ∧ main_local [DataSource "values.yaml" (Parsed (VList []))] true true "in" "out"
      [InputFile "a.conf" true (Some [ln "key: 1"]) true]
    = Finished
        (RunReport
           (RunState 0 0 0
              [(INFO, ProcessingFile "a.conf");
               (DEBUG, CopyingUnmodifiedFile "a.conf");
               (INFO, ProcessingFinished 0 0 0)])
           [Copied "a.conf"]).
Proof. repeat split. Qed.

(** ** The matcher *)

Section regex_facts.

Context {R : Type}.

(** The greedy choice of [star] is taken when the rest matches after it. *)
Lemma star_first (p : ascii → bool) (s : string) (k : string → string → option R) x :
  k (span p s).1 (span p s).2 = Some x → star p s k = Some x.
Proof.
  revert k. induction s as [|c s IH]; intros k; simpl; [done |].
  destruct (p c); [| done].
  destruct (span p s) as [a b] eqn:Hspan. simpl. intros Hk.
  by rewrite (IH (λ t rest, k (String c t) rest)).
Qed.

(** When the rest cannot match in front of a character of the class, no
    shorter repetition helps: [star] succeeds or fails with its greedy
    choice. *)
Lemma star_last (p : ascii → bool) (s : string) (k : string → string → option R) :
  (∀ t c r, p c = true → k t (String c r) = None) →
  star p s k = k (span p s).1 (span p s).2.
Proof.
  revert k. induction s as [|c s IH]; intros k Hk; simpl; [done |].
  destruct (p c) eqn:Hc; [| done].
  rewrite (Hk _ _ _ Hc).
  rewrite (IH (λ t rest, k (String c t) rest)); [| by intros; apply Hk].
  destruct (span p s) as [a b]. simpl. by destruct (k (String c a) b).
Qed.

Lemma star_split (p : ascii → bool) (s : string) (k : string → string → option R) x :
  star p s k = Some x → ∃ t rest, s = t +:+ rest ∧ k t rest = Some x.
Proof.
  revert k. induction s as [|c s IH]; intros k; simpl.
  - intros Hk. by exists EmptyString, EmptyString.
  - destruct (p c); [| intros Hk; by exists EmptyString, (String c s)].
    destruct (star p s (λ t rest, k (String c t) rest)) as [y|] eqn:Hstar; simpl.
    + intros [= ->]. apply IH in Hstar as (t & rest & -> & Hk).
      by exists (String c t), rest.
    + intros Hk. by exists EmptyString, (String c s).
Qed.

Lemma lit_split (w s : string) (k : string → option R) x :
  lit w s k = Some x → ∃ rest, s = w +:+ rest ∧ k rest = Some x.
Proof.
  revert s. induction w as [|a w IH]; intros s; simpl.
  - intros Hk. by exists s.
  - destruct s as [|b s]; [done |].
    destruct (Ascii.eqb_spec a b) as [->|]; [| done].
    intros (rest & -> & Hk)%IH. by exists rest.
Qed.

(** A successful match splits the subject into the matched text and the
    rest handed to the continuation. *)
Lemma m_split (r : regex) (s : string) (k : cont R) x :
  m r s k = Some x → ∃ t g rest, s = t +:+ rest ∧ k t g rest = Some x.
Proof.
  revert s k x. induction r as [c|w|p|p|p|r IH|r1 IH1 r2 IH2|r IH]; intros s k x; simpl.
  - destruct s as [|c' s]; [done |].
    destruct (Ascii.eqb c c'); [| done]. intros Hk.
    by exists (String c' EmptyString), None, s.
  - intros (rest & -> & Hk)%lit_split. by exists w, None, rest.
  - destruct s as [|c s]; [done |].
    destruct (p c); [| done]. intros Hk.
    by exists (String c EmptyString), None, s.
  - intros (t & rest & -> & Hk)%star_split. by exists t, None, rest.
  - destruct s as [|c s]; [done |].
    destruct (p c); [| done].
    intros (t & rest & -> & Hk)%star_split. by exists (String c t), None, rest.
  - destruct (m r s k) as [y|] eqn:Hm; simpl.
    + intros [= ->]. by apply IH in Hm.
    + intros Hk. by exists EmptyString, None, s.
  - intros (t1 & g1 & s1 & -> & H2)%IH1.
    apply IH2 in H2 as (t2 & g2 & s2 & -> & Hk).
    exists (t1 +:+ t2), (orelse g2 g1), s2. by rewrite app_str_assoc.
  - intros (t & g & rest & -> & Hk)%IH. by exists t, (Some t), rest.
Qed.

End regex_facts.

(** A pattern that is one group: the group is the whole match, and the
    subject is the match followed by the rest. *)
Lemma re_match_group (r : regex) (s : string) (mo : match_obj) :
  re_match (Grp r) s = Some mo →
  m_group1 mo = Some (m_text mo) ∧ s = m_text mo +:+ m_post mo.
Proof.
  unfold re_match. simpl.
  intros (t & g & rest & -> & [= <-])%m_split. done.
Qed.

Lemma re_search_skip (r : regex) (c : ascii) (s : string) :
  re_match r (String c s) = None →
  re_search r (String c s) = shift c <$> re_search r s.
Proof. simpl. by intros ->. Qed.

Lemma re_search_here (r : regex) (s : string) (mo : match_obj) :
  re_match r s = Some mo → re_search r s = Some mo.
Proof. destruct s; simpl; by intros ->. Qed.

#[local] Arguments re_search : simpl never.

(** The indentation pattern always matches, with the leading whitespace. *)
Lemma indent_of_span (line : string) : indent_of line = (span is_space line).1.
Proof.
  unfold indent_of, re_match, indent_re. simpl.
  by rewrite (star_first _ _ _ _ eq_refl).
Qed.

(** *** The hash pattern *)

Lemma hash_match_other (c : ascii) (s : string) :
  Ascii.eqb "#" c = false → re_match hash_re (String c s) = None.
Proof. unfold re_match, hash_re. simpl. by intros ->. Qed.

Lemma hash_match_here (rest : string) :
  re_match hash_re (String "#" rest)
  = Some (match rest with
          | String c r =>
              if is_space c
              then MatchObj EmptyString (String "#" (String c EmptyString)) None r
              else MatchObj EmptyString "#" None rest
          | EmptyString => MatchObj EmptyString "#" None rest
          end).
Proof.
  unfold re_match, hash_re. simpl.
  destruct rest as [|c r]; [done |]. by destruct (is_space c).
Qed.

Lemma is_space_not_hash (c : ascii) : is_space c = true → Ascii.eqb "#" c = false.
Proof.
  destruct (Ascii.eqb_spec "#" c) as [<-|]; [| done]. by vm_compute.
Qed.

Lemma re_sub1_hash (indent rest : string) :
  all_chars is_space indent = true →
  re_sub1 hash_re EmptyString (indent +:+ String "#" rest)
  = indent +:+ drop_space rest.
Proof.
  intros Hindent. unfold re_sub1.
  assert (re_search hash_re (indent +:+ String "#" rest)
          = Some (MatchObj indent
                    (match rest with
                     | String c r =>
                         if is_space c then String "#" (String c EmptyString) else "#"
                     | EmptyString => "#"
                     end) None (drop_space rest))) as ->.
  { induction indent as [|c indent IH]; simpl in Hindent |- *.
    - rewrite (re_search_here _ _ _ (hash_match_here rest)).
      destruct rest as [|c r]; [done |]. simpl. by destruct (is_space c).
    - apply andb_prop in Hindent as [Hc Hindent].
      rewrite re_search_skip by (apply hash_match_other; by apply is_space_not_hash).
      by rewrite (IH Hindent). }
  done.
Qed.

(** ** Pass 1: one line under a frame *)

Section apply_section_facts.

Lemma commented_line (indent rest : string) :
  all_chars is_space indent = true →
  is_commented (indent +:+ String "#" rest) = true.
Proof. intros H. unfold is_commented. by rewrite lstrip_app_spaces. Qed.

Lemma lstrip_drop_space (rest : string) : lstrip (drop_space rest) = lstrip rest.
Proof.
  destruct rest as [|c r]; simpl; [done |].
  destruct (is_space c) eqn:Hc; simpl; by rewrite ?Hc.
Qed.

Lemma length_drop_space (rest : string) :
  (String.length (drop_space rest) ≤ String.length rest)%nat.
Proof. destruct rest as [|c r]; simpl; [done |]. destruct (is_space c); simpl; lia. Qed.

Lemma uncomment_changes (indent rest : string) :
  String.eqb (indent +:+ drop_space rest) (indent +:+ String "#" rest) = false.
Proof.
  apply String.eqb_neq. intros Heq.
  apply (f_equal String.length) in Heq. rewrite !length_app_str in Heq. simpl in Heq.
  pose proof (length_drop_space rest). lia.
Qed.

Lemma apply_section_line (f : frame) (line : string) (st : file_state) :
  (apply_section f line st).1 = governed f line.
Proof.
  unfold apply_section, governed, commented_out, uncommented.
  destruct (should_be_commented f); cbn [andb negb].
  - destruct (negb (is_commented line) && negb (is_blank line)); [| reflexivity].
    destruct (negb (String.eqb _ line)); reflexivity.
  - destruct (is_commented line); [| reflexivity].
    match goal with
    | |- context [if ?b && ?c then _ else _] => destruct (b && c)
    end; [| reflexivity].
    destruct (negb (String.eqb _ line)); reflexivity.
Qed.

Lemma apply_section_sections (f : frame) (line : string) (st : file_state) :
  active_sections (apply_section f line st).2 = active_sections st.
Proof.
  unfold apply_section.
  repeat match goal with |- context [if ?b then _ else _] => destruct b end;
    reflexivity.
Qed.

End apply_section_facts.

(** C6, as the code has it.  Under a frame that should not be commented, a
    line whose first character after the indentation is a hash sign loses
    that one hash sign and at most one whitespace character after it (a
    space, but also a tab, a no-break space or the line terminator), the
    modified flag is set and the total of toggles grows by one while the
    rest of the state stays; but when the text after the hash sign, leading
    whitespace aside, starts with [@param] or [@section], the line and the
    state are left as they are. *)
Theorem uncomment_strips_one_hash (top : frame) (indent rest : string)
    (st : file_state) :
  should_be_commented top = false →
  all_chars is_space indent = true →
  is_commented (indent +:+ String "#" rest) = true
  ∧ apply_section top (indent +:+ String "#" rest) st
    = (if startswith "@param" (lstrip rest) || startswith "@section" (lstrip rest)
       then (indent +:+ String "#" rest, st)
       else (indent +:+ drop_space rest,
             FileState (active_sections st) true
               (RunState (total_files_modified (run st)) (total_replacements (run st))
                  (S (total_section_toggles (run st))) (log (run st))))).
Proof.
  intros Hshould Hindent. split; [by apply commented_line |].
  change (FileState (active_sections st) true _) with (count_toggle st).
  unfold apply_section.
  rewrite Hshould, (commented_line _ _ Hindent), (re_sub1_hash _ _ Hindent).
  cbn [andb negb].
  rewrite (lstrip_app_spaces _ _ Hindent), lstrip_drop_space, uncomment_changes.
  destruct (startswith "@param" (lstrip rest)); [reflexivity |].
  destruct (startswith "@section" (lstrip rest)); reflexivity.
Qed.

Lemma uncomment_strips_one_hash_witness :
  apply_section (Frame "flag" false) (ln "  # key: 1") (FileState [] false run_start)
  = (ln "  key: 1", FileState [] true (RunState 0 0 1 [])).
Proof.
  refine (proj2 (uncomment_strips_one_hash (Frame "flag" false) "  " (ln " key: 1")
                   (FileState [] false run_start) _ _)); vm_compute; reflexivity.
Defined.

(** C6 as stated fails on a tab after the hash sign: the code removes the
    tab with the hash sign, where the claim removes a space character
    only. *)
Lemma uncomment_strips_a_tab :
  apply_section (Frame "flag" false) ("#" +:+ tab +:+ ln "key: 1")
    (FileState [] false run_start)
  = (ln "key: 1", FileState [] true (RunState 0 0 1 []))
  ∧ claimed_uncomment ("#" +:+ tab +:+ ln "key: 1") = tab +:+ ln "key: 1"
  ∧ ln "key: 1" ≠ tab +:+ ln "key: 1".
Proof. split; [| split]; [by vm_compute | by vm_compute | discriminate]. Qed.

(** ** Pass 1: the stack of sections *)

#[local] Arguments apply_section : simpl never.
#[local] Arguments get_value_by_path : simpl never.

Section section_pass_facts.

Context (data : dict) (relative_path : string).

Lemma is_marker_line_false (line : string) :
  is_marker_line line = false →
  section_begin_match line = None ∧ section_end_match line = None.
Proof.
  unfold is_marker_line. intros [Hb He]%orb_false_elim.
  apply bool_decide_eq_false in Hb, He.
  split; apply eq_None_not_Some; done.
Qed.

Lemma is_marker_line_begin (line : string) (k : string) :
  group1 (section_begin_match line) = Some k → is_marker_line line = true.
Proof.
  unfold is_marker_line. destruct (section_begin_match line); [| done].
  intros _. rewrite bool_decide_eq_true_2; [done | by eexists].
Qed.

Lemma is_marker_line_end (line : string) (k : string) :
  group1 (section_end_match line) = Some k → is_marker_line line = true.
Proof.
  unfold is_marker_line. destruct (section_end_match line); [| done].
  intros _. rewrite (bool_decide_eq_true_2 (is_Some (Some _))); [| by eexists].
  apply orb_true_r.
Qed.

Lemma section_step_plain (i : nat) (line : string) (st : file_state) :
  is_marker_line line = false →
  section_step data relative_path i line st
  = match active_sections st with
    | f :: _ => apply_section f line st
    | [] => (line, st)
    end.
Proof.
  intros Hm. unfold section_step, update_sections. rewrite Hm.
  destruct (is_marker_line_false _ Hm) as [-> ->].
  destruct (active_sections st); [done |].
  by destruct (apply_section _ line st).
Qed.

Lemma section_step_begin (i : nat) (line : string) (st : file_state) (k : string) :
  group1 (section_begin_match line) = Some k →
  section_step data relative_path i line st
  = (line,
     set_sections (Frame k (is_False (get_value_by_path data k).1) :: active_sections st)
       (add_log (get_value_by_path data k).2 st)).
Proof.
  intros Hk. unfold section_step, update_sections.
  rewrite (is_marker_line_begin _ _ Hk).
  destruct (section_begin_match line) as [mo|]; [| done].
  simpl in Hk. rewrite Hk. simpl.
  destruct (get_value_by_path data k) as [v w].
  destruct (active_sections st) eqn:Hst; simpl; by rewrite Hst.
Qed.

Lemma section_step_end (i : nat) (line : string) (st : file_state) (name : string) :
  section_begin_match line = None →
  group1 (section_end_match line) = Some name →
  section_step data relative_path i line st
  = (line,
     match active_sections st with
     | top :: below =>
         if String.eqb (key top) name then set_sections below st
         else add_log [(WARNING, MismatchedSectionEnd name relative_path (i + 1))] st
     | [] => add_log [(WARNING, MismatchedSectionEnd name relative_path (i + 1))] st
     end).
Proof.
  intros Hb Hk. unfold section_step, update_sections.
  rewrite (is_marker_line_end _ _ Hk), Hb.
  destruct (section_end_match line) as [mo|]; [| done].
  simpl in Hk. rewrite Hk. simpl.
  destruct (active_sections st) eqn:Hst; simpl; by rewrite Hst.
Qed.

Lemma section_loop_cons (i : nat) (line : string) (rest : list string)
    (st : file_state) :
  section_loop data relative_path i (line :: rest) st
  = let step := section_step data relative_path i line st in
    let tail := section_loop data relative_path (S i) rest step.2 in
    (step.1 :: tail.1, tail.2).
Proof.
  simpl. destruct (section_step data relative_path i line st) as [new_line st1].
  simpl. by destruct (section_loop data relative_path (S i) rest st1).
Qed.

Lemma section_loop_app (i : nat) (a b : list string) (st : file_state) :
  section_loop data relative_path i (a ++ b) st
  = let first := section_loop data relative_path i a st in
    let second := section_loop data relative_path (i + length a) b first.2 in
    (first.1 ++ second.1, second.2).
Proof.
  revert i st. induction a as [|line a IH]; intros i st.
  - simpl. rewrite Nat.add_0_r.
    by destruct (section_loop data relative_path i b st).
  - rewrite <- app_comm_cons, !section_loop_cons. cbv zeta. rewrite IH. cbv zeta.
    simpl. by rewrite Nat.add_succ_r.
Qed.

(** Lines that are no markers are rewritten under the frame on top, which
    stays on top. *)
Lemma section_loop_plain (f : frame) (below : list frame) (body : list string) :
  Forall (λ line, is_marker_line line = false) body →
  ∀ i st, active_sections st = f :: below →
  (section_loop data relative_path i body st).1 = map (governed f) body
  ∧ active_sections (section_loop data relative_path i body st).2 = f :: below.
Proof.
  induction 1 as [|line body Hline Hbody IH]; intros i st Hst; [done |].
  rewrite section_loop_cons. cbv zeta.
  rewrite (section_step_plain _ _ _ Hline), Hst. simpl.
  destruct (IH (S i) (apply_section f line st).2) as [-> ->].
  - by rewrite apply_section_sections.
  - by rewrite apply_section_line.
Qed.

Lemma active_sections_set (stack : list frame) (st : file_state) :
  active_sections (set_sections stack st) = stack.
Proof. done. Qed.

Lemma active_sections_add_log (rs : list log_record) (st : file_state) :
  active_sections (add_log rs st) = active_sections st.
Proof. done. Qed.

End section_pass_facts.

(** C5: an end marker that does not name the frame on top, or that comes
    with no section open, leaves the line, the stack, the modified flag and
    the totals as they are, and the log is the log before it with one more
    record, the mismatch warning.  After the begin marker of [a], an end
    marker for another key keeps the frame of [a] on top through all the
    lines that follow, and the end marker of [a] that comes later removes
    it. *)
Theorem mismatched_end_keeps_stack (data : dict) (relative_path : string)
    (i : nat) (line name : string) :
  section_begin_match line = None →
  group1 (section_end_match line) = Some name →
  (∀ st, (∀ top, head (active_sections st) = Some top → key top ≠ name) →
     (section_step data relative_path i line st).1 = line
     ∧ active_sections (section_step data relative_path i line st).2 = active_sections st
     ∧ counts (section_step data relative_path i line st).2 = counts st
     ∧ log (run (section_step data relative_path i line st).2)
       = log (run st) ++ [(WARNING, MismatchedSectionEnd name relative_path (i + 1))])
  ∧ (∀ j st begin_a end_a a body,
       group1 (section_begin_match begin_a) = Some a → a ≠ name →
       Forall (λ l, is_marker_line l = false) body →
       section_begin_match end_a = None →
       group1 (section_end_match end_a) = Some a →
       active_sections
         (section_loop data relative_path j (begin_a :: line :: body) st).2
       = Frame a (is_False (get_value_by_path data a).1) :: active_sections st
       ∧ active_sections
           (section_loop data relative_path j (begin_a :: line :: body ++ [end_a]) st).2
         = active_sections st).
Proof.
  intros Hb Hname. split.
  - intros st Htop.
    assert (Hstep : section_step data relative_path i line st
              = (line, add_log [(WARNING, MismatchedSectionEnd name relative_path (i + 1))] st)).
    { rewrite (section_step_end data relative_path _ _ _ _ Hb Hname).
      destruct (active_sections st) as [|top below] eqn:Hst; [done |].
      destruct (String.eqb_spec (key top) name) as [Heq|Hne]; [| done].
      destruct (Htop top); [by rewrite ?Hst | done]. }
    by rewrite Hstep.
  - intros j st begin_a end_a a body Ha Hne Hbody Hb' Hend.
    set (fr := Frame a (is_False (get_value_by_path data a).1)).
    set (st1 := set_sections (fr :: active_sections st)
                  (add_log (get_value_by_path data a).2 st)).
    set (st2 := add_log [(WARNING, MismatchedSectionEnd name relative_path (S j + 1))] st1).
    assert (H1 : section_step data relative_path j begin_a st = (begin_a, st1))
      by apply section_step_begin, Ha.
    assert (H2 : section_step data relative_path (S j) line st1 = (line, st2)).
    { rewrite (section_step_end data relative_path _ _ _ _ Hb Hname).
      change (active_sections st1) with (fr :: active_sections st).
      cbv beta iota. change (key fr) with a.
      by destruct (String.eqb_spec a name). }
    destruct (section_loop_plain data relative_path fr (active_sections st) body Hbody
                (S (S j)) st2 eq_refl) as [_ Hstack].
    assert (Hloop : ∀ tail,
              (section_loop data relative_path j (begin_a :: line :: body ++ tail) st).2
              = (section_loop data relative_path (S (S j) + length body) tail
                   (section_loop data relative_path (S (S j)) body st2).2).2).
    { intros tail. rewrite section_loop_cons. cbv zeta. rewrite H1. cbn [fst snd].
      rewrite section_loop_cons. cbv zeta. rewrite H2. cbn [fst snd].
      by rewrite section_loop_app. }
    split.
    + rewrite <- (app_nil_r body) at 1. by rewrite Hloop.
    + rewrite Hloop, section_loop_cons. cbv zeta. cbn [fst snd section_loop].
      rewrite (section_step_end data relative_path _ _ _ _ Hb' Hend), Hstack.
      cbv beta iota. change (key fr) with a. by rewrite String.eqb_refl.
Qed.

Lemma mismatched_end_keeps_stack_witness :
  log (run (section_step [("a", VBool false)] "app.conf" 1 (ln "# @section b end")
              (FileState [Frame "a" true] false run_start)).2)
  = log (run (FileState [Frame "a" true] false run_start))
      ++ [(WARNING, MismatchedSectionEnd "b" "app.conf" (1 + 1))]
  ∧ active_sections
      (section_loop [("a", VBool false)] "app.conf" 0
         (ln "# @section a begin" :: ln "# @section b end" :: [ln "key: 1"]
            ++ [ln "# @section a end"])
         (FileState [] false run_start)).2
    = active_sections (FileState [] false run_start).
Proof.
  pose proof (mismatched_end_keeps_stack [("a", VBool false)] "app.conf" 1
                (ln "# @section b end") "b") as H.
  destruct H as [Hstep Hloop]; [by_computation | by_computation |].
  split.
  - refine (proj2 (proj2 (proj2 (Hstep (FileState [Frame "a" true] false run_start) _)))).
    intros top [= <-]. discriminate.
  - refine (proj2 (Hloop 0 (FileState [] false run_start) (ln "# @section a begin")
                     (ln "# @section a end") "a" [ln "key: 1"] _ _ _ _ _));
      by_computation.
Defined.

(** ** Nested sections *)

Section nested_sections_facts.

Lemma governed_commented (f : frame) :
  should_be_commented f = true → map (governed f) = map commented_out.
Proof.
  intros Hf. assert (governed f = commented_out) as ->; [| done].
  unfold governed. by rewrite Hf.
Qed.

Lemma governed_uncommented (f : frame) :
  should_be_commented f = false → map (governed f) = map uncommented.
Proof.
  intros Hf. assert (governed f = uncommented) as ->; [| done].
  unfold governed. by rewrite Hf.
Qed.

Lemma uncommented_plain (line : string) :
  is_commented line = false → uncommented line = line.
Proof. unfold uncommented. by intros ->. Qed.

Lemma commented_out_commented (line : string) :
  is_commented line = false → is_blank line = false →
  is_commented (commented_out line) = true.
Proof.
  intros Hc Hb. unfold commented_out. rewrite Hc, Hb. cbn [negb andb].
  rewrite indent_of_span. apply (commented_line _ (String " " (lstrip line))).
  apply span_all.
Qed.

End nested_sections_facts.

(** C1, as the code has it.  With an inner section whose value is true
    opened inside an outer section whose value is false, the frame on top
    governs each line that is no marker: the lines of the inner section are
    under the policy "should not be commented" (one that is not commented
    stays as it is), and the lines of the outer section before the inner
    begin marker and after the inner end marker are under the policy "should
    be commented" (one that is neither commented nor blank comes out
    commented).  The markers themselves are not rewritten. *)
Theorem nested_sections_innermost_governs (data : dict) (relative_path : string)
    (i : nat) (st : file_state)
    (begin_outer begin_inner end_inner outer inner : string)
    (before body after : list string) :
  group1 (section_begin_match begin_outer) = Some outer →
  (get_value_by_path data outer).1 = VBool false →
  group1 (section_begin_match begin_inner) = Some inner →
  (get_value_by_path data inner).1 = VBool true →
  section_begin_match end_inner = None →
  group1 (section_end_match end_inner) = Some inner →
  Forall (λ l, is_marker_line l = false) before →
  Forall (λ l, is_marker_line l = false) body →
  Forall (λ l, is_marker_line l = false) after →
  (section_loop data relative_path i
     (begin_outer :: before ++ begin_inner :: body ++ end_inner :: after) st).1
  = begin_outer :: map commented_out before
      ++ begin_inner :: map uncommented body
      ++ end_inner :: map commented_out after
  ∧ (∀ line, is_commented line = false → uncommented line = line)
  ∧ (∀ line, is_commented line = false → is_blank line = false →
       is_commented (commented_out line) = true).
Proof.
  intros Ho Hvo Hi Hvi Hbe Hend Hbefore Hbody Hafter.
  split; [| split; [apply uncommented_plain | apply commented_out_commented]].
  set (fo := Frame outer (is_False (get_value_by_path data outer).1)).
  set (fi := Frame inner (is_False (get_value_by_path data inner).1)).
  assert (Hfo : should_be_commented fo = true) by (unfold fo; by rewrite Hvo).
  assert (Hfi : should_be_commented fi = false) by (unfold fi; by rewrite Hvi).
  (* the outer begin marker *)
  rewrite section_loop_cons. cbv zeta.
  rewrite (section_step_begin data relative_path _ _ _ _ Ho). cbn [fst snd].
  f_equal. fold fo.
  set (st1 := set_sections (fo :: active_sections st)
                (add_log (get_value_by_path data outer).2 st)).
  (* the outer lines before the inner section *)
  rewrite section_loop_app. cbv zeta. cbn [fst snd].
  destruct (section_loop_plain data relative_path fo (active_sections st) before
              Hbefore (S i) st1 eq_refl) as [-> Hst2].
  rewrite (governed_commented _ Hfo). f_equal.
  set (st2 := (section_loop data relative_path (S i) before st1).2) in *.
  (* the inner begin marker *)
  rewrite section_loop_cons. cbv zeta.
  rewrite (section_step_begin data relative_path _ _ _ _ Hi). cbn [fst snd].
  f_equal. fold fi. rewrite Hst2.
  set (st3 := set_sections (fi :: fo :: active_sections st)
                (add_log (get_value_by_path data inner).2 st2)).
  (* the inner lines *)
  rewrite section_loop_app. cbv zeta. cbn [fst snd].
  destruct (section_loop_plain data relative_path fi (fo :: active_sections st) body
              Hbody (S (S i + length before)) st3 eq_refl) as [-> Hst4].
  rewrite (governed_uncommented _ Hfi). f_equal.
  set (st4 := (section_loop data relative_path _ body st3).2) in *.
  (* the inner end marker *)
  rewrite section_loop_cons. cbv zeta.
  rewrite (section_step_end data relative_path _ _ _ _ Hbe Hend), Hst4.
  cbv beta iota. change (key fi) with inner. rewrite String.eqb_refl. cbn [fst snd].
  f_equal.
  (* the outer lines after the inner section *)
  destruct (section_loop_plain data relative_path fo (active_sections st) after
              Hafter (S (S (S i + length before) + length body))
              (set_sections (fo :: active_sections st) st4) eq_refl) as [-> _].
  by rewrite (governed_commented _ Hfo).
Qed.

Lemma nested_sections_innermost_governs_witness :
  (section_loop nested_data "app.conf" 0
     (ln "# @section outer begin" :: [ln "a: 1"]
        ++ ln "# @section inner begin" :: [ln "b: 2"]
        ++ ln "# @section inner end" :: [ln "c: 3"])
     (FileState [] false run_start)).1
  = ln "# @section outer begin" :: map commented_out [ln "a: 1"]
      ++ ln "# @section inner begin" :: map uncommented [ln "b: 2"]
      ++ ln "# @section inner end" :: map commented_out [ln "c: 3"].
Proof.
  pose proof (nested_sections_innermost_governs nested_data "app.conf" 0
                (FileState [] false run_start)
                (ln "# @section outer begin") (ln "# @section inner begin")
                (ln "# @section inner end") "outer" "inner"
                [ln "a: 1"] [ln "b: 2"] [ln "c: 3"]) as H.
  refine (proj1 (H _ _ _ _ _ _ _ _ _)); by_computation.
Defined.

(** C1 as stated fails: the line [b: 2] lies in the inner section, whose
    value is true, inside the outer section, whose value is false; it is
    neither a marker nor blank, and pass 1 leaves it as it is, not
    commented. *)
Lemma nested_inner_line_stays_uncommented :
  (get_value_by_path nested_data "outer").1 = VBool false
  ∧ (get_value_by_path nested_data "inner").1 = VBool true
  ∧ is_marker_line (ln "b: 2") = false
  ∧ is_blank (ln "b: 2") = false
  ∧ (section_pass nested_data "app.conf" nested_file (FileState [] false run_start)).1
      !! 3 = Some (ln "b: 2")
  ∧ is_commented (ln "b: 2") = false.
Proof. repeat split; vm_compute; reflexivity. Qed.

(** ** Pass 2: a path that leads to null *)

#[local] Arguments param_step : simpl never.

Lemma add_log_nil (st : file_state) : add_log [] st = st.
Proof. destruct st as [stack modified [n1 n2 n3 l]]. unfold add_log. simpl. by rewrite app_nil_r. Qed.

Lemma get_value_by_path_found (data : dict) (path : string) (v : yaml_value) :
  walk_keys (split "." path) (VDict data) = Some v →
  get_value_by_path data path = (v, []).
Proof. unfold get_value_by_path. by intros ->. Qed.

Lemma get_value_by_path_absent (data : dict) (path : string) :
  walk_keys (split "." path) (VDict data) = None →
  get_value_by_path data path = (VNone, [(WARNING, PathNotFound path)]).
Proof. unfold get_value_by_path. by intros ->. Qed.

(** C9, as the code has it.  A path whose every segment resolves and whose
    leaf is null makes [get_value_by_path] return [None] as an absent path
    does, but without the warning an absent path is logged with.  A
    parameter directive that names such a path is passed over in silence:
    the lines, the counters and the log are as before, so the null is not
    written into the target line. *)
Theorem null_leaf_is_skipped_silently (data : dict) (relative_path path : string)
    (sml final_lines : list string) (st : file_state) (i : nat) (line : string) :
  walk_keys (split "." path) (VDict data) = Some VNone →
  get_value_by_path data path = (VNone, [])
  ∧ (sml !! i = Some line →
     group1 (re_search param_re line) = Some path →
     param_step data relative_path sml (final_lines, st, None) i
     = (final_lines, st, None)).
Proof.
  intros Hwalk. pose proof (get_value_by_path_found _ _ _ Hwalk) as Hget.
  split; [done |]. intros Hline Hpath. unfold param_step. rewrite Hline.
  destruct (re_search param_re line) as [mo|]; [| done].
  simpl in Hpath. rewrite Hpath. simpl.
  destruct (i + 1 <? length sml)%nat; [| done].
  by rewrite Hget, add_log_nil.
Qed.

Lemma null_leaf_is_skipped_silently_witness :
  param_step null_data "app.conf" null_file
    (null_file, FileState [] false run_start, None) 0
  = (null_file, FileState [] false run_start, None).
Proof.
  refine (proj2 (null_leaf_is_skipped_silently null_data "app.conf" "a"
                   null_file null_file (FileState [] false run_start) 0
                   (ln "# @param a") _) _ _); by_computation.
Defined.

(** C9 as stated fails on the warning: the directive that names a null leaf
    is skipped and nothing is logged, where the directive that names an
    absent path logs the not-found warning. *)
Lemma null_leaf_logs_no_warning :
  walk_keys (split "." "a") (VDict null_data) = Some VNone
  ∧ engine null_data "app.conf" null_file run_start
    = (null_file, FileState [] false run_start)
  ∧ log (run (engine null_data "app.conf" null_file run_start).2) = []
  ∧ log (run (engine null_data "app.conf" [ln "# @param b"; ln "a: 1"] run_start).2)
    = [(WARNING, PathNotFound "b")].
Proof. repeat split; vm_compute; reflexivity. Qed.

(** ** Pass 2: the trailing comment *)

Section trailing_comment_facts.

(** The trailing comment pattern at position 0: the leading whitespace must
    be followed by a hash sign, and the match runs to the end of the line. *)
Lemma trailing_match (s : string) :
  re_match trailing_comment_re s
  = match (span is_space s).2 with
    | String c after =>
        if Ascii.eqb "#" c then
          Some (MatchObj EmptyString
                  ((span is_space s).1 +:+ String c (span is_dot after).1)
                  (Some ((span is_space s).1 +:+ String c (span is_dot after).1))
                  (span is_dot after).2)
        else None
    | EmptyString => None
    end.
Proof.
  unfold re_match, trailing_comment_re. cbn [m].
  rewrite star_last.
  - destruct (span is_space s) as [a b]. cbn [fst snd].
    destruct b as [|c after]; [done |].
    destruct (Ascii.eqb "#" c); [| done].
    by rewrite (star_first _ _ _ _ eq_refl).
  - intros t c r Hc. by rewrite (is_space_not_hash _ Hc).
Qed.

Lemma span_inside (pre rest : string) :
  pre ≠ EmptyString → no_hash pre = true → ends_with_space pre = false →
  ∃ c r, (span is_space (pre +:+ rest)).2 = String c r ∧ Ascii.eqb "#" c = false.
Proof.
  induction pre as [|c pre IH]; [done |]. intros _ Hhash Hend.
  apply andb_prop in Hhash as [Hc Hhash]. apply negb_true_iff in Hc.
  cbn [String.append span]. destruct (is_space c) eqn:Hsp.
  - destruct pre as [|c2 pre]; [simpl in Hend; congruence |].
    destruct IH as (c' & r & Hspan & Hc'); [done | done | done |].
    exists c', r. destruct (span is_space (String c2 pre +:+ rest)). by simpl in *.
  - by exists c, (pre +:+ rest).
Qed.

Lemma span_dots (body tail : string) :
  all_chars is_dot body = true → at_line_end tail = true →
  span is_dot (body +:+ tail) = (body, tail).
Proof.
  intros Hbody Htail. destruct tail as [|c tail].
  - rewrite app_str_nil_r. by apply span_prefix_end.
  - apply span_prefix; [done |]. simpl in Htail. unfold is_dot. by rewrite Htail.
Qed.

(** The first match of the trailing comment pattern starts at the
    whitespace in front of the first hash sign and stops at the end of the
    line. *)
Lemma trailing_search (pre ws body tail : string) :
  no_hash pre = true → ends_with_space pre = false →
  all_chars is_space ws = true → all_chars is_dot body = true →
  at_line_end tail = true →
  re_search trailing_comment_re (pre +:+ ws +:+ String "#" (body +:+ tail))
  = Some (MatchObj pre (ws +:+ String "#" body) (Some (ws +:+ String "#" body)) tail).
Proof.
  intros Hhash Hend Hws Hbody Htail.
  induction pre as [|c pre IH].
  - cbn [String.append]. apply re_search_here. rewrite trailing_match.
    rewrite (span_prefix is_space ws "#" (body +:+ tail) Hws eq_refl). cbn [fst snd].
    by rewrite (span_dots _ _ Hbody Htail).
  - cbn [String.append]. rewrite re_search_skip.
    + rewrite IH; [done | |].
      * by apply andb_prop in Hhash as [_ ?].
      * destruct pre; [done | exact Hend].
    + rewrite trailing_match.
      destruct (span_inside (String c pre) (ws +:+ String "#" (body +:+ tail)))
        as (c' & r & Hspan & Hc'); [done | done | done |].
      cbn [String.append] in Hspan. by rewrite Hspan, Hc'.
Qed.

Lemma trailing_comment_found (pre ws body tail : string) :
  no_hash pre = true → ends_with_space pre = false →
  all_chars is_space ws = true → all_chars is_dot body = true →
  at_line_end tail = true →
  trailing_comment_of (pre +:+ ws +:+ String "#" (body +:+ tail))
  = ws +:+ String "#" body.
Proof.
  intros. unfold trailing_comment_of. by rewrite trailing_search.
Qed.

End trailing_comment_facts.

(** C10: after the structural prefix of the target line, let the value part
    be [pre], then the whitespace [ws], then the first hash sign, then
    [body] up to the end of the line.  The trailing comment is [ws], the
    hash sign and [body], whatever [pre] is; the new line is the prefix, a
    space, the formatted value and that text, with the line terminator; and
    the directive writes that line at the target's index.  So a hash sign
    inside the old value starts the text that is kept. *)
Theorem trailing_comment_reattached (data : dict) (relative_path path : string)
    (sml final_lines : list string) (st : file_state) (i : nat)
    (line next_line : string) (mo : match_obj) (pre ws body tail : string) :
  re_match line_structure_re next_line = Some mo →
  m_post mo = pre +:+ ws +:+ String "#" (body +:+ tail) →
  no_hash pre = true → ends_with_space pre = false →
  all_chars is_space ws = true → all_chars is_dot body = true →
  at_line_end tail = true →
  next_line = m_text mo +:+ pre +:+ ws +:+ String "#" (body +:+ tail)
  ∧ trailing_comment_of (pre +:+ ws +:+ String "#" (body +:+ tail))
    = ws +:+ String "#" body
  ∧ (∀ formatted, new_line_of mo formatted next_line
          = rstrip (m_text mo) +:+ " " +:+ formatted
              +:+ (ws +:+ String "#" body) +:+ nl)
  ∧ (∀ formatted, sml !! i = Some line →
     group1 (re_search param_re line) = Some path →
     sml !! (i + 1) = Some next_line →
     is_commented next_line = false →
     (get_value_by_path data path).1 ≠ VNone →
     format_value_for_file (get_value_by_path data path).1 = Some formatted →
     length final_lines = length sml →
     (param_step data relative_path sml (final_lines, st, None) i).1.1 !! (i + 1)
     = Some (rstrip (m_text mo) +:+ " " +:+ formatted
               +:+ (ws +:+ String "#" body) +:+ nl)).
Proof.
  intros Hmo Hpost Hhash Hend Hws Hbody Htail.
  destruct (re_match_group _ _ _ Hmo) as [Hg Hsplit].
  assert (Hnew : ∀ formatted, new_line_of mo formatted next_line
            = rstrip (m_text mo) +:+ " " +:+ formatted
                +:+ (ws +:+ String "#" body) +:+ nl).
  { intros v. unfold new_line_of. rewrite Hg. cbn [default from_option id].
    rewrite Hsplit at 1. rewrite drop_str_app, Hpost.
    by rewrite trailing_comment_found. }
  split; [by rewrite Hsplit, Hpost |].
  split; [by apply trailing_comment_found |].
  split; [exact Hnew |].
  intros formatted Hline Hpath Hnext Hcom Hval Hfmt Hlen.
  unfold param_step. rewrite Hline.
  destruct (re_search param_re line) as [pm|]; [| done].
  simpl in Hpath. rewrite Hpath. cbn [default from_option id].
  pose proof (lookup_lt_Some _ _ _ Hnext) as Hlt.
  apply Nat.ltb_lt in Hlt as Hltb. rewrite Hltb.
  destruct (get_value_by_path data path) as [v w]. cbn [fst] in *.
  rewrite Hnext. cbn [default from_option id].
  unfold is_commented in Hcom.
  rewrite <- Hlen in Hlt.
  destruct (lookup_lt_is_Some_2 final_lines (i + 1) Hlt) as [old Hold].
  destruct v; [done | ..];
    (rewrite Hcom, Hmo, Hfmt, Hnew, Hold; cbn [default from_option id];
     match goal with
     | |- context [String.eqb old ?n] =>
         destruct (String.eqb_spec old n) as [Heq|Hne]
     end; cbn [negb fst];
     [ by rewrite Hold, Heq | by apply list_lookup_insert_eq ]).
Qed.

Lemma trailing_comment_reattached_witness :
  (param_step colour_data "app.conf" colour_file
     (colour_file, FileState [] false run_start, None) 0).1.1 !! (0 + 1)
  = Some (rstrip "colour:" +:+ " " +:+ (dq +:+ "#fff" +:+ dq)
            +:+ (EmptyString +:+ String "#" ("000" +:+ dq +:+ "  # black")) +:+ nl).
Proof.
  refine (proj2 (proj2 (proj2 (trailing_comment_reattached colour_data "app.conf" "colour"
            colour_file colour_file (FileState [] false run_start) 0
            (ln "# @param colour")
            (ln ("colour: " +:+ dq +:+ "#000" +:+ dq +:+ "  # black"))
            (MatchObj EmptyString "colour:" (Some "colour:")
               (" " +:+ dq +:+ "#000" +:+ dq +:+ "  # black" +:+ nl))
            (" " +:+ dq) EmptyString ("000" +:+ dq +:+ "  # black") nl
            _ _ _ _ _ _ _))) (dq +:+ "#fff" +:+ dq) _ _ _ _ _ _ _); by_computation.
Defined.

(** ** The log does not steer the engine *)

#[local] Arguments section_step : simpl never.
#[local] Arguments update_sections : simpl never.

Section log_independence.

Context (data : dict).

Lemma apply_section_rel (f : frame) (line : string) (st st' : file_state) :
  (apply_section f line st).1 = (apply_section f line st').1
  ∧ (active_sections st = active_sections st' →
     active_sections (apply_section f line st).2
     = active_sections (apply_section f line st').2)
  ∧ (counts st = counts st' →
     counts (apply_section f line st).2 = counts (apply_section f line st').2).
Proof.
  unfold apply_section.
  repeat match goal with |- context [if ?b then _ else _] => destruct b end;
    (split; [reflexivity | split; [done |]]);
    destruct st as [? ? []], st' as [? ? []];
    unfold counts, totals, count_toggle; simpl; intros [= -> -> -> ->]; done.
Qed.

Lemma update_sections_rel (rel rel' : string) (i i' : nat) (line : string)
    (st st' : file_state) :
  active_sections st = active_sections st' →
  active_sections (update_sections data rel i line st)
  = active_sections (update_sections data rel' i' line st')
  ∧ (counts st = counts st' →
     counts (update_sections data rel i line st)
     = counts (update_sections data rel' i' line st')).
Proof.
  intros Hs. unfold update_sections.
  destruct (section_begin_match line) as [mo|].
  - destruct (get_value_by_path data _) as [v w]. simpl. by rewrite Hs.
  - destruct (section_end_match line) as [mo|]; [| done].
    assert (Hkeep : ∀ ws ws',
              active_sections (add_log ws st) = active_sections (add_log ws' st')
              ∧ (counts st = counts st' →
                 counts (add_log ws st) = counts (add_log ws' st'))) by done.
    rewrite <- Hs. destruct (active_sections st) as [|top below]; [apply Hkeep |].
    destruct (String.eqb (key top) _); [done | apply Hkeep].
Qed.

Lemma section_step_rel (rel rel' : string) (i i' : nat) (line : string)
    (st st' : file_state) :
  active_sections st = active_sections st' →
  (section_step data rel i line st).1 = (section_step data rel' i' line st').1
  ∧ active_sections (section_step data rel i line st).2
    = active_sections (section_step data rel' i' line st').2
  ∧ (counts st = counts st' →
     counts (section_step data rel i line st).2
     = counts (section_step data rel' i' line st').2).
Proof.
  intros Hs. unfold section_step. rewrite <- Hs.
  destruct (active_sections st) as [|f below] eqn:Hst.
  - simpl. split; [done |]. apply update_sections_rel. congruence.
  - destruct (negb (is_marker_line line)).
    + destruct (apply_section_rel f line st st') as (Hl & Ha & Hc).
      destruct (apply_section f line st) as [l1 s1], (apply_section f line st') as [l2 s2].
      simpl in *. split; [done |].
      destruct (update_sections_rel rel rel' i i' line s1 s2) as [Hu1 Hu2].
      { apply Ha. congruence. }
      split; [done |]. intros Hcounts. by apply Hu2, Hc.
    + simpl. split; [done |]. apply update_sections_rel. congruence.
Qed.

Lemma section_loop_rel (rel rel' : string) (lines : list string) :
  ∀ i i' st st', active_sections st = active_sections st' →
  (section_loop data rel i lines st).1 = (section_loop data rel' i' lines st').1
  ∧ active_sections (section_loop data rel i lines st).2
    = active_sections (section_loop data rel' i' lines st').2
  ∧ (counts st = counts st' →
     counts (section_loop data rel i lines st).2
     = counts (section_loop data rel' i' lines st').2).
Proof.
  induction lines as [|line lines IH]; intros i i' st st' Hs; [done |].
  rewrite !section_loop_cons. cbv zeta. cbn [fst snd].
  destruct (section_step_rel rel rel' i i' line st st' Hs) as (Hl & Ha & Hc).
  destruct (IH (S i) (S i') _ _ Ha) as (Hl' & Ha' & Hc').
  rewrite Hl, Hl'. split; [done |]. split; [done |].
  intros Hcounts. by apply Hc', Hc.
Qed.

(** Pass 2 reads nothing of the state: the lines it writes and the
    exception it raises are the same from any state, and it counts the
    same. *)
Lemma param_step_rel (rel rel' : string) (sml final_lines : list string)
    (st st' : file_state) (raised : option exception) (i : nat) :
  (param_step data rel sml (final_lines, st, raised) i).1.1
  = (param_step data rel' sml (final_lines, st', raised) i).1.1
  ∧ (param_step data rel sml (final_lines, st, raised) i).2
    = (param_step data rel' sml (final_lines, st', raised) i).2
  ∧ (counts st = counts st' →
     counts (param_step data rel sml (final_lines, st, raised) i).1.2
     = counts (param_step data rel' sml (final_lines, st', raised) i).1.2).
Proof.
  unfold param_step.
  destruct raised as [e|]; [done |].
  destruct (sml !! i) as [line|]; [| done].
  destruct (re_search param_re line) as [pm|]; [| done].
  destruct (i + 1 <? length sml)%nat; [| done].
  destruct (get_value_by_path data _) as [v w].
  assert (Hlog : ∀ ws ws', counts st = counts st' →
            counts (add_log ws st) = counts (add_log ws' st')) by done.
  assert (Hrep : ∀ ws ws', counts st = counts st' →
            counts (count_replacement (add_log ws st))
            = counts (count_replacement (add_log ws' st'))).
  { intros ws ws'. destruct st as [? ? []], st' as [? ? []].
    unfold counts, totals. simpl. by intros [= -> -> -> ->]. }
  destruct v; [by repeat split; [apply Hlog] | ..];
    (destruct (startswith "#" _); [by repeat split; [apply Hlog] |];
     destruct (re_match line_structure_re _) as [lsm|];
       [| by repeat split; [apply Hlog]];
     destruct (format_value_for_file _) as [fv|]; [| by repeat split; [apply Hlog]];
     destruct (negb _); (repeat split); [apply Hrep | apply Hlog]).
Qed.

Lemma param_fold_rel (rel rel' : string) (sml : list string) (indices : list nat) :
  ∀ final_lines st st' raised,
  (foldl (param_step data rel sml) (final_lines, st, raised) indices).1.1
  = (foldl (param_step data rel' sml) (final_lines, st', raised) indices).1.1
  ∧ (foldl (param_step data rel sml) (final_lines, st, raised) indices).2
    = (foldl (param_step data rel' sml) (final_lines, st', raised) indices).2
  ∧ (counts st = counts st' →
     counts (foldl (param_step data rel sml) (final_lines, st, raised) indices).1.2
     = counts (foldl (param_step data rel' sml) (final_lines, st', raised) indices).1.2).
Proof.
  induction indices as [|i indices IH]; intros final_lines st st' raised; [done |].
  simpl. destruct (param_step_rel rel rel' sml final_lines st st' raised i) as (Hl & Hr & Hc).
  destruct (param_step data rel sml (final_lines, st, raised) i) as [[l1 s1] r1].
  destruct (param_step data rel' sml (final_lines, st', raised) i) as [[l2 s2] r2].
  simpl in Hl, Hr, Hc. subst l2 r2.
  destruct (IH l1 s1 s2 r1) as (Hl' & Hr' & Hc'). split; [done |]. split; [done |].
  intros Hcounts. by apply Hc', Hc.
Qed.

Lemma engine_rel (rel rel' : string) (lines : list string) (r r' : run_state) :
  (engine data rel lines r).1 = (engine data rel' lines r').1
  ∧ engine_raised data rel lines r = engine_raised data rel' lines r'
  ∧ (totals r = totals r' →
     counts (engine data rel lines r).2 = counts (engine data rel' lines r').2).
Proof.
  unfold engine, engine_raised, section_pass.
  destruct (section_loop_rel rel rel' lines 0 0
              (set_sections [] (FileState [] false r))
              (set_sections [] (FileState [] false r')) eq_refl) as (Hl & _ & Hc).
  destruct (section_loop data rel 0 lines _) as [sml s1].
  destruct (section_loop data rel' 0 lines _) as [sml' s2].
  simpl in Hl, Hc. subst sml'. unfold param_pass, param_raised, param_loop.
  destruct (param_fold_rel rel rel' sml (seq 0 (length sml)) sml s1 s2 None)
    as (Hl' & Hr' & Hc').
  split; [done |]. split; [done |].
  intros Ht. apply Hc', Hc. unfold counts. simpl. by rewrite Ht.
Qed.

Lemma totals_log_run (rs : list log_record) (r : run_state) :
  totals (log_run rs r) = totals r.
Proof. done. Qed.

Lemma process_file_outcome (in_place : bool) (rep rep' : run_report)
    (f : input_file) :
  outcome rep = outcome rep' →
  turn_exception (process_file data in_place rep f)
  = turn_exception (process_file data in_place rep' f)
  ∧ outcome (turn_report (process_file data in_place rep f))
    = outcome (turn_report (process_file data in_place rep' f)).
Proof.
  unfold outcome. intros H.
  assert (Ht : totals (state rep) = totals (state rep')) by congruence.
  assert (He : effects rep = effects rep') by congruence.
  unfold process_file.
  destruct (negb in_place && negb (parent_creatable f)); [done |]. clear H.
  destruct (read_lines f) as [lines|]; [| simpl; by rewrite He, !totals_log_run, Ht].
  destruct (engine_rel (relative_path f) (relative_path f) lines
              (log_run [(INFO, ProcessingFile (relative_path f))] (state rep))
              (log_run [(INFO, ProcessingFile (relative_path f))] (state rep')))
    as (Hl & Hr & Hc).
  specialize (Hc Ht). rewrite <- Hr.
  destruct (engine data (relative_path f) lines _) as [final st].
  destruct (engine data (relative_path f) lines _) as [final' st'].
  simpl in Hl. subst final'. unfold counts in Hc. cbn [fst snd] in Hc.
  assert (Hm : file_was_modified st = file_was_modified st') by congruence.
  assert (Hc' : totals (run st) = totals (run st')) by congruence.
  clear Hc. rewrite <- Hm.
  assert (Hfile : totals (count_file (run st)) = totals (count_file (run st'))).
  { destruct (run st), (run st'). unfold totals in *. simpl in *. congruence. }
  destruct (engine_raised data (relative_path f) lines _);
    [simpl; by rewrite ?totals_log_run, ?He, ?Hc' |].
  destruct (file_was_modified st), (negb in_place), (output_writable f); simpl;
    rewrite ?totals_log_run, ?He, ?Hfile, ?Hc'; done.
Qed.

Lemma process_loop_outcome (in_place : bool) (files : list input_file) :
  ∀ rep rep', outcome rep = outcome rep' →
  turn_exception (process_loop data in_place files rep)
  = turn_exception (process_loop data in_place files rep')
  ∧ outcome (turn_report (process_loop data in_place files rep))
    = outcome (turn_report (process_loop data in_place files rep')).
Proof.
  induction files as [|f files IH]; intros rep rep' H; [done |].
  cbn [process_loop]. destruct (process_file_outcome in_place rep rep' f H) as [He Ho].
  destruct (process_file data in_place rep f) as [rep1|e rep1],
           (process_file data in_place rep' f) as [rep1'|e' rep1']; try done.
  by apply IH.
Qed.

Lemma process_loop_app (in_place : bool) (a b : list input_file) (rep : run_report) :
  process_loop data in_place (a ++ b) rep
  = match process_loop data in_place a rep with
    | Continue rep' => process_loop data in_place b rep'
    | Abort e rep' => Abort e rep'
    end.
Proof.
  revert rep. induction a as [|f a IH]; intros rep; [done |].
  cbn [app process_loop]. by destruct (process_file data in_place rep f).
Qed.

End log_independence.

(** ** A file that cannot be read or written *)

Lemma outcome_process_files (data : dict) (output_dir_creatable : bool)
    (input_dir output_dir : string) (files : list input_file) :
  in_place_run input_dir output_dir || output_dir_creatable = true →
  result_outcome (process_files true output_dir_creatable input_dir output_dir files data)
  = (turn_exception (process_loop data (in_place_run input_dir output_dir) files
                       (RunReport run_start [])),
     outcome (turn_report (process_loop data (in_place_run input_dir output_dir) files
                             (RunReport run_start [])))).
Proof.
  intros Hdir. unfold process_files, in_place_run in *. cbn [negb].
  destruct (bool_decide (Path input_dir = Path output_dir)), output_dir_creatable;
    try discriminate; cbn [negb andb];
    by destruct (process_loop data _ files _).
Qed.

(** C7, as the code has it.  A file that cannot be read or decoded is
    logged as an error and passed over: the totals and the files written are
    those of the run without it.  A file whose output cannot be written (or
    copied) is logged as an error too, nothing is recorded as written for it
    and the loop goes on, but the totals are those of a successful write: the
    toggles and replacements found in the file, and the file itself when it
    was modified, have been counted before the write.  When the directory of
    the output path cannot be made the failure is not recovered: out of
    place that directory is made outside the [try], the exception leaves the
    loop, and the files after this one are not processed. *)
Theorem failing_file_is_recovered (data : dict) (input_dir output_dir : string)
    (output_dir_creatable in_place : bool) (rep : run_report) (f : input_file)
    (before after : list input_file) :
  (read_lines f = None → in_place || parent_creatable f = true →
   ∃ rep', process_file data in_place rep f = Continue rep'
     ∧ outcome rep' = outcome rep
     ∧ log (state rep')
       = log (state rep) ++ [(INFO, ProcessingFile (relative_path f));
                             (ERROR, UnexpectedError (relative_path f))])
  ∧ (read_lines f = None →
     in_place_run input_dir output_dir || parent_creatable f = true →
     in_place_run input_dir output_dir || output_dir_creatable = true →
     result_outcome
       (process_files true output_dir_creatable input_dir output_dir
          (before ++ f :: after) data)
     = result_outcome
         (process_files true output_dir_creatable input_dir output_dir
            (before ++ after) data))
  ∧ (∀ lines, read_lines f = Some lines → output_writable f = false →
     in_place || parent_creatable f = true →
     engine_raised data (relative_path f) lines
       (log_run [(INFO, ProcessingFile (relative_path f))] (state rep)) = None →
     file_was_modified
       (engine data (relative_path f) lines
          (log_run [(INFO, ProcessingFile (relative_path f))] (state rep))).2 = true
     ∨ in_place = false →
     ∃ rep', process_file data in_place rep f = Continue rep'
       ∧ effects rep' = effects rep
       ∧ last (log (state rep')) = Some (ERROR, UnexpectedError (relative_path f))
       ∧ totals (state rep')
         = totals (state (turn_report
                     (process_file data in_place rep
                        (InputFile (relative_path f) (parent_creatable f)
                           (read_lines f) true)))))
  ∧ (in_place = false → parent_creatable f = false →
     process_file data in_place rep f = Abort (OSError (relative_path f)) rep
     ∧ ∀ rep0, process_loop data in_place before rep0 = Continue rep →
         process_loop data in_place (before ++ f :: after) rep0
         = Abort (OSError (relative_path f)) rep).
Proof.
  assert (Hone : read_lines f = None → ∀ ip rep0, ip || parent_creatable f = true →
            process_file data ip rep0 f
            = Continue (RunReport
                          (log_run [(ERROR, UnexpectedError (relative_path f))]
                             (log_run [(INFO, ProcessingFile (relative_path f))]
                                (state rep0)))
                          (effects rep0))).
  { intros Hread ip rep0 Hdir. unfold process_file. rewrite Hread.
    destruct ip, (parent_creatable f); try discriminate; reflexivity. }
  split; [| split; [| split]].
  - intros Hread Hdir. eexists. split; [by apply Hone |]. split; [done |].
    simpl. by rewrite <- app_assoc.
  - intros Hread Hdir Hout. rewrite !outcome_process_files by done.
    rewrite (process_loop_app data _ before (f :: after)),
            (process_loop_app data _ before after).
    destruct (process_loop data _ before _) as [rep1|e rep1]; [| done].
    cbn [process_loop]. rewrite (Hone Hread _ rep1 Hdir).
    destruct (process_loop_outcome data (in_place_run input_dir output_dir) after
                (RunReport
                   (log_run [(ERROR, UnexpectedError (relative_path f))]
                      (log_run [(INFO, ProcessingFile (relative_path f))] (state rep1)))
                   (effects rep1)) rep1 eq_refl) as [-> ->].
    done.
  - intros lines Hread Hwrite Hdir Hraise Hneeds. unfold process_file. simpl.
    rewrite Hread, Hwrite, Hraise.
    assert (negb in_place && negb (parent_creatable f) = false) as ->
      by (destruct in_place, (parent_creatable f); done).
    destruct (engine data (relative_path f) lines _) as [final st]. simpl in Hneeds.
    destruct (file_was_modified st).
    + eexists. split; [done |]. simpl. by rewrite last_snoc.
    + destruct Hneeds as [? | ->]; [done |]. eexists. split; [done |].
      simpl. by rewrite last_snoc.
  - intros -> Hdir.
    assert (Hf : ∀ rep1, process_file data false rep1 f = Abort (OSError (relative_path f)) rep1).
    { intros rep1. unfold process_file. by rewrite Hdir. }
    split; [apply Hf |]. intros rep0 Hbefore.
    rewrite process_loop_app, Hbefore. cbn [process_loop]. by rewrite Hf.
Qed.

Lemma failing_file_is_recovered_witness :
  result_outcome
    (process_files true true "in" "out"
       ([InputFile "a.conf" true (Some flag_file) true]
          ++ InputFile "b.bin" true None true :: [InputFile "c.conf" true (Some []) true])
       flag_off)
  = result_outcome
      (process_files true true "in" "out"
         ([InputFile "a.conf" true (Some flag_file) true]
            ++ [InputFile "c.conf" true (Some []) true])
         flag_off).
Proof.
  refine (proj1 (proj2 (failing_file_is_recovered flag_off "in" "out" true false
            (RunReport run_start []) (InputFile "b.bin" true None true)
            [InputFile "a.conf" true (Some flag_file) true]
            [InputFile "c.conf" true (Some []) true])) _ _ _);
    reflexivity.
Defined.

(** C7 as stated fails on a write failure: the file that could not be
    written has been counted as modified, with its toggle, though nothing
    was written.  And when the directory of an output path cannot be made
    the run does not continue: the exception ends it before the file is
    read, and the file after it is never processed. *)
Lemma unwritable_file_is_counted :
  result_outcome
    (process_files true true "conf" "conf"
       [InputFile "a.conf" true (Some flag_file) false] flag_off)
  = (None, ((1, 0, 1)%nat, []))
  ∧ process_files true true "conf" "conf"
      [InputFile "a.conf" true (Some flag_file) false] flag_off
    = Returned
        (RunReport
           (RunState 1 0 1
              [(INFO, ProcessingFile "a.conf");
               (INFO, WritingModifiedFile "a.conf");
               (ERROR, UnexpectedError "a.conf");
               (INFO, ProcessingFinished 1 0 1)])
           [])
  ∧ process_files true true "in" "out"
      [InputFile "sub/a.conf" false (Some flag_file) true;
       InputFile "b.conf" true (Some flag_file) true] flag_off
    = Raised (OSError "sub/a.conf") (RunReport (RunState 0 0 0 []) []).
Proof. repeat split; vm_compute; reflexivity. Qed.

(** ** A file the passes leave as it is *)

Section fixed_point_facts.

Context (data : dict) (relative_path : string).

Lemma apply_section_fixed (f : frame) (line : string) (st : file_state) :
  (apply_section f line st).1 = line → (apply_section f line st).2 = st.
Proof.
  unfold apply_section.
  repeat (match goal with
          | |- context [if negb (String.eqb ?a ?b) then _ else _] =>
              destruct (String.eqb_spec a b)
          | |- context [if ?b then _ else _] => destruct b
          end; cbn [negb]); cbn [fst snd]; congruence.
Qed.

Lemma update_sections_counts (i : nat) (line : string) (st : file_state) :
  counts (update_sections data relative_path i line st) = counts st.
Proof.
  unfold update_sections.
  destruct (section_begin_match line) as [mo|].
  - by destruct (get_value_by_path data _).
  - destruct (section_end_match line) as [mo|]; [| done].
    destruct (active_sections st) as [|top below]; [done |].
    by destruct (String.eqb (key top) _).
Qed.

Lemma section_step_fixed (i : nat) (line : string) (st : file_state) :
  (section_step data relative_path i line st).1 = line →
  counts (section_step data relative_path i line st).2 = counts st.
Proof.
  unfold section_step.
  destruct (active_sections st) as [|f below]; [intros _; apply update_sections_counts |].
  destruct (negb (is_marker_line line)); [| intros _; apply update_sections_counts].
  pose proof (apply_section_fixed f line st) as Hfixed.
  destruct (apply_section f line st) as [new_line st1]. simpl in *.
  intros Hline. rewrite update_sections_counts. by rewrite (Hfixed Hline).
Qed.

Lemma section_loop_fixed (lines : list string) :
  ∀ i st, (section_loop data relative_path i lines st).1 = lines →
  counts (section_loop data relative_path i lines st).2 = counts st.
Proof.
  induction lines as [|line lines IH]; intros i st; [done |].
  rewrite section_loop_cons. cbv zeta. cbn [fst snd]. intros [= Hline Hrest].
  by rewrite (IH _ _ Hrest), (section_step_fixed _ _ _ Hline).
Qed.

(** A turn of pass 2 either leaves the lines and the counts, or writes at
    index [i + 1] a line that differs from the one that was there. *)
Lemma param_step_cases (sml final_lines : list string) (st : file_state)
    (raised : option exception) (i : nat) :
  ((param_step data relative_path sml (final_lines, st, raised) i).1.1 = final_lines
   ∧ counts (param_step data relative_path sml (final_lines, st, raised) i).1.2
     = counts st)
  ∨ (∃ new_line,
       (param_step data relative_path sml (final_lines, st, raised) i).1.1
       = <[i + 1 := new_line]> final_lines
       ∧ default EmptyString (final_lines !! (i + 1)) ≠ new_line
       ∧ (i + 1 < length sml)%nat).
Proof.
  unfold param_step.
  destruct raised as [e|]; [by left |].
  destruct (sml !! i) as [line|]; [| by left].
  destruct (re_search param_re line) as [pm|]; [| by left].
  destruct (Nat.ltb_spec (i + 1) (length sml)); [| by left].
  destruct (get_value_by_path data _) as [v w].
  destruct v; [by left | ..];
    (destruct (startswith "#" _); [by left |];
     destruct (re_match line_structure_re _) as [lsm|]; [| by left];
     destruct (format_value_for_file _) as [fv|]; [| by left];
     match goal with
     | |- context [String.eqb ?a ?b] => destruct (String.eqb_spec a b)
     end; [by left | right; by eexists]).
Qed.

Lemma param_step_length (sml final_lines : list string) (st : file_state)
    (raised : option exception) (i : nat) :
  length (param_step data relative_path sml (final_lines, st, raised) i).1.1
  = length final_lines.
Proof.
  destruct (param_step_cases sml final_lines st raised i)
    as [[-> _]|(new_line & -> & _)]; [done | apply length_insert].
Qed.

Lemma param_step_other (sml final_lines : list string) (st : file_state)
    (raised : option exception) (i j : nat) :
  j ≠ (i + 1)%nat →
  (param_step data relative_path sml (final_lines, st, raised) i).1.1 !! j
  = final_lines !! j.
Proof.
  intros Hj.
  destruct (param_step_cases sml final_lines st raised i)
    as [[-> _]|(new_line & -> & _)]; [done | by apply list_lookup_insert_ne].
Qed.

End fixed_point_facts.

(** ** Pass 1: lines that are not rewritten *)

Section section_pass_invariants.

Context (data : dict) (rel : string).

Lemma section_loop_length (lines : list string) :
  ∀ i st, length (section_loop data rel i lines st).1 = length lines.
Proof.
  induction lines as [|line lines IH]; intros i st; [done |].
  rewrite section_loop_cons. cbv zeta. cbn [fst length]. by rewrite IH.
Qed.

(** A line that no turn of the loop rewrites is found at its index in the
    output. *)
Lemma section_loop_lookup_fixed (line : string) :
  (∀ i st, (section_step data rel i line st).1 = line) →
  ∀ lines j i st, lines !! j = Some line →
  (section_loop data rel i lines st).1 !! j = Some line.
Proof.
  intros Hstep. induction lines as [|l lines IH]; intros j i st Hj; [done |].
  rewrite section_loop_cons. cbv zeta. cbn [fst].
  destruct j as [|j]; simpl in *.
  - injection Hj as ->. by rewrite Hstep.
  - by apply IH.
Qed.

Lemma section_step_marker (i : nat) (line : string) (st : file_state) :
  is_marker_line line = true → (section_step data rel i line st).1 = line.
Proof.
  intros Hm. unfold section_step. rewrite Hm.
  by destruct (active_sections st).
Qed.

Lemma lstrip_head (s : string) :
  lstrip s = EmptyString ∨ ∃ c r, lstrip s = String c r ∧ is_space c = false.
Proof.
  induction s as [|c s IH]; simpl; [by left |].
  destruct (is_space c) eqn:Hc; [done |]. right. by exists c, s.
Qed.

Lemma rstrip_nonempty (c : ascii) (r : string) :
  is_space c = false → rstrip (String c r) ≠ EmptyString.
Proof. intros Hc. simpl. rewrite Hc. by destruct (rstrip r). Qed.

Lemma blank_not_commented (line : string) :
  is_blank line = true → is_commented line = false.
Proof.
  unfold is_blank, is_commented, strip. intros Hb.
  destruct (lstrip_head line) as [->|(c & r & Hl & Hc)]; [done |].
  rewrite Hl in Hb. pose proof (rstrip_nonempty c r Hc).
  by destruct (rstrip (String c r)).
Qed.

Lemma governed_blank (f : frame) (line : string) :
  is_blank line = true → governed f line = line.
Proof.
  intros Hb. unfold governed, commented_out, uncommented.
  rewrite (blank_not_commented _ Hb), Hb. by destruct (should_be_commented f).
Qed.

Lemma section_step_blank (i : nat) (line : string) (st : file_state) :
  is_blank line = true → (section_step data rel i line st).1 = line.
Proof.
  intros Hb. destruct (is_marker_line line) eqn:Hm; [by apply section_step_marker |].
  rewrite (section_step_plain _ _ _ _ _ Hm).
  destruct (active_sections st) as [|f below]; [done |].
  by rewrite apply_section_line, governed_blank.
Qed.

Lemma section_loop_closed (lines : list string) :
  Forall (λ l, section_begin_match l = None) lines →
  ∀ i st, active_sections st = [] →
  (section_loop data rel i lines st).1 = lines
  ∧ active_sections (section_loop data rel i lines st).2 = []
  ∧ counts (section_loop data rel i lines st).2 = counts st.
Proof.
  induction 1 as [|line lines Hline Hlines IH]; intros i st Hst; [done |].
  rewrite section_loop_cons. cbv zeta. cbn [fst snd].
  assert (Hstep : (section_step data rel i line st).1 = line
                  ∧ active_sections (section_step data rel i line st).2 = []
                  ∧ counts (section_step data rel i line st).2 = counts st).
  { unfold section_step. rewrite Hst. cbn [fst snd].
    split; [done |]. split; [| apply update_sections_counts].
    unfold update_sections. rewrite Hline.
    destruct (section_end_match line); [| done]. by rewrite Hst. }
  destruct Hstep as (Hl & Hs & Hc).
  destruct (IH (S i) _ Hs) as (Hl' & Hs' & Hc').
  by rewrite Hl, Hl', Hs', Hc', Hc.
Qed.

End section_pass_invariants.

(** ** The indentation of a line *)

Section toggle_facts.

Lemma lstrip_span (s : string) : lstrip s = (span is_space s).2.
Proof.
  induction s as [|c s IH]; simpl; [done |].
  destruct (is_space c); [| done]. rewrite IH. by destruct (span is_space s).
Qed.

(** A line is its indentation followed by its stripped text. *)
Lemma indent_lstrip (line : string) : indent_of line +:+ lstrip line = line.
Proof. rewrite indent_of_span, lstrip_span. apply span_app. Qed.

Lemma indent_spaces (line : string) : all_chars is_space (indent_of line) = true.
Proof. rewrite indent_of_span. apply span_all. Qed.

Lemma commented_out_cases (line : string) :
  (commented_out line = line)
  ∨ (is_commented line = false
     ∧ commented_out line = indent_of line +:+ String "#" (String " " (lstrip line))).
Proof.
  unfold commented_out. destruct (is_commented line); [by left |].
  destruct (is_blank line); [by left | by right].
Qed.

End toggle_facts.

(** ** The structural prefix and the text after it *)

Section new_line_facts.

Lemma no_hash_span (p : ascii → bool) (s : string) :
  no_hash s = true → no_hash (span p s).2 = true.
Proof.
  unfold no_hash. induction s as [|c s IH]; simpl; [done |].
  intros [Hc Hs]%andb_prop. destruct (p c).
  - specialize (IH Hs). by destruct (span p s).
  - simpl. by rewrite Hc, Hs.
Qed.

Lemma trailing_match_no_hash (s : string) :
  no_hash s = true → re_match trailing_comment_re s = None.
Proof.
  intros Hs. rewrite trailing_match.
  pose proof (no_hash_span is_space s Hs) as Hrest.
  destruct (span is_space s).2 as [|c after]; [done |].
  unfold no_hash in Hrest. cbn [all_chars] in Hrest.
  apply andb_prop in Hrest as [Hc _]. apply negb_true_iff in Hc. by rewrite Hc.
Qed.

Lemma trailing_search_no_hash (s : string) :
  no_hash s = true → re_search trailing_comment_re s = None.
Proof.
  induction s as [|c s IH]; intros Hs.
  - unfold re_search. by rewrite (trailing_match_no_hash _ Hs).
  - rewrite re_search_skip by (by apply trailing_match_no_hash).
    unfold no_hash in Hs. cbn [all_chars] in Hs. apply andb_prop in Hs as [_ Hs].
    by rewrite (IH Hs).
Qed.

Lemma rstrip_snoc (a : string) (c : ascii) :
  is_space c = false → rstrip (a +:+ String c EmptyString) = a +:+ String c EmptyString.
Proof.
  intros Hc. induction a as [|x a IH]; simpl.
  - by rewrite Hc.
  - rewrite IH. by destruct a.
Qed.

Lemma is_assign_not_space (c : ascii) : is_assign c = true → is_space c = false.
Proof.
  unfold is_assign. intros [Hc|Hc]%orb_prop; apply Ascii.eqb_eq in Hc; by subst c.
Qed.

Lemma m_seq_split {R} (r1 r2 : regex) (s : string) (k : cont R) x :
  m (Seq r1 r2) s k = Some x →
  ∃ t1 g1 s1, s = t1 +:+ s1
    ∧ m r2 s1 (λ t2 g2 s2, k (t1 +:+ t2) (orelse g2 g1) s2) = Some x.
Proof.
  change (m (Seq r1 r2) s k)
    with (m r1 s (λ t1 g1 s1, m r2 s1 (λ t2 g2 s2, k (t1 +:+ t2) (orelse g2 g1) s2))).
  intros (t1 & g1 & s1 & -> & H)%m_split. by exists t1, g1, s1.
Qed.

Lemma m_cls_split {R} (p : ascii → bool) (s : string) (k : cont R) x :
  m (Cls p) s k = Some x →
  ∃ c s', s = String c s' ∧ p c = true ∧ k (String c EmptyString) None s' = Some x.
Proof.
  cbn [m]. destruct s as [|c s']; [done |].
  destruct (p c) eqn:Hc; [| done]. intros H. by exists c, s'.
Qed.

(** The text the structural prefix pattern matches ends with the colon or
    the equals sign. *)
Lemma line_structure_ends_with_assign (s : string) (mo : match_obj) :
  re_match line_structure_re s = Some mo →
  ∃ a c, m_text mo = a +:+ String c EmptyString ∧ is_assign c = true.
Proof.
  unfold re_match, line_structure_re.
  match goal with
  | |- m (Grp ?r) ?s ?k = _ → _ =>
      change (m (Grp r) s k) with (m r s (λ t _ rest, k t (Some t) rest))
  end.
  intros (t1 & g1 & s1 & -> & H1)%m_seq_split.
  apply m_seq_split in H1 as (t2 & g2 & s2 & -> & H2).
  apply m_seq_split in H2 as (t3 & g3 & s3 & -> & H3).
  apply m_seq_split in H3 as (t4 & g4 & s4 & -> & H4).
  apply m_cls_split in H4 as (c & s5 & -> & Hc & H5).
  injection H5 as <-. cbn [m_text].
  exists (t1 +:+ t2 +:+ t3 +:+ t4), c. split; [| done].
  by rewrite !app_str_assoc.
Qed.

End new_line_facts.

(** ** A file reconciled with its data *)

#[local] Arguments new_line_of : simpl never.

Section reconciled_facts.

Context (data : dict) (rel : string).

(** A directive that has been commented out stays as it is. *)
Lemma uncommented_directive (line : string) :
  directive_comment line = true → uncommented line = line.
Proof.
  unfold directive_comment. intros Hd.
  destruct (lstrip line) as [|c rest] eqn:Hl; [done |].
  apply andb_prop in Hd as [Hc Hguard]. apply Ascii.eqb_eq in Hc. subst c.
  assert (Hline : line = indent_of line +:+ String "#" rest)
    by (by rewrite <- Hl, indent_lstrip).
  pose proof (indent_spaces line) as Hindent.
  revert Hline Hindent. generalize (indent_of line). intros indent Hline Hindent.
  clear Hl. subst line. unfold uncommented.
  rewrite (commented_line _ _ Hindent), (re_sub1_hash _ _ Hindent),
          (lstrip_app_spaces _ _ Hindent), lstrip_drop_space.
  destruct (startswith "@param" (lstrip rest)); [done |].
  by destruct (startswith "@section" (lstrip rest)).
Qed.

Lemma toggled_governed (f : frame) (line : string) :
  toggled f line = true → governed f line = line.
Proof.
  unfold toggled, governed. destruct (should_be_commented f).
  - unfold commented_out. by intros [->| ->]%orb_prop; rewrite ?andb_false_r.
  - intros [Hc|Hd]%orb_prop.
    + apply uncommented_plain. by apply negb_true_iff.
    + by apply uncommented_directive.
Qed.

(** Pass 1 moves the stack as the specification does. *)
Lemma section_step_stack (i : nat) (line : string) (st : file_state) :
  active_sections (section_step data rel i line st).2
  = next_stack data line (active_sections st).
Proof.
  assert (Hupdate : ∀ st1, active_sections st1 = active_sections st →
            active_sections (update_sections data rel i line st1)
            = next_stack data line (active_sections st)).
  { intros st1 Hst1. unfold update_sections, next_stack.
    destruct (section_begin_match line) as [mo|].
    - destruct (get_value_by_path data _) as [v w]. simpl. by rewrite Hst1.
    - destruct (section_end_match line) as [mo|]; [| done].
      rewrite Hst1. destruct (active_sections st) as [|top below]; [by rewrite <- Hst1 |].
      destruct (String.eqb (key top) _); [done | by rewrite <- Hst1]. }
  unfold section_step.
  destruct (active_sections st) as [|f below] eqn:Hst; [by apply Hupdate |].
  destruct (negb (is_marker_line line)); [| by apply Hupdate].
  pose proof (apply_section_sections f line st) as Hsame.
  destruct (apply_section f line st) as [new_line st1]. cbn [snd] in *.
  apply Hupdate. congruence.
Qed.

Lemma section_loop_toggled (lines : list string) :
  ∀ i st, sections_toggled data (active_sections st) lines = true →
  (section_loop data rel i lines st).1 = lines
  ∧ counts (section_loop data rel i lines st).2 = counts st.
Proof.
  induction lines as [|line lines IH]; intros i st Hlines; [done |].
  cbn [sections_toggled] in Hlines. apply andb_prop in Hlines as [Hline Hrest].
  assert (Hstep : (section_step data rel i line st).1 = line).
  { destruct (is_marker_line line) eqn:Hm; [by apply section_step_marker |].
    rewrite (section_step_plain _ _ _ _ _ Hm).
    destruct (active_sections st) as [|f below]; [done |].
    rewrite apply_section_line. by apply toggled_governed. }
  rewrite section_loop_cons. cbv zeta. cbn [fst snd].
  rewrite <- (section_step_stack i) in Hrest.
  destruct (IH (S i) _ Hrest) as [-> ->].
  by rewrite Hstep, (section_step_fixed data rel _ _ _ Hstep).
Qed.

Lemma params_matching_lookup (lines : list string) (i : nat) (line next_line : string) :
  params_matching data lines = true →
  lines !! i = Some line → lines !! (i + 1) = Some next_line →
  param_matches data line next_line = true.
Proof.
  revert i. induction lines as [|l lines IH]; intros i Hall Hi Hnext; [done |].
  cbn [params_matching] in Hall. apply andb_prop in Hall as [Hfirst Hrest].
  destruct i as [|i]; simpl in Hi, Hnext.
  - injection Hi as ->. destruct lines as [|n lines]; [done |].
    by injection Hnext as ->.
  - by apply (IH i).
Qed.

Lemma but_last_snoc (s : string) (c : ascii) :
  but_last (s +:+ String c EmptyString) = s.
Proof.
  induction s as [|x s IH]; [done |]. cbn [String.append but_last].
  rewrite IH. by destruct s.
Qed.

(** On a line that holds the value, the line pass 2 composes is the line
    itself. *)
Lemma holds_value_new_line (v : yaml_value) (next_line : string) (mo : match_obj) :
  re_match line_structure_re next_line = Some mo →
  holds_value v next_line = true →
  ∃ formatted, format_value_for_file v = Some formatted
    ∧ new_line_of mo formatted next_line = next_line.
Proof.
  intros Hmo. unfold holds_value. rewrite Hmo.
  destruct (format_value_for_file v) as [formatted|]; [| done].
  set (comment := but_last _).
  intros [[[Hhash Hend]%andb_prop Hcomment]%andb_prop Hpost%String.eqb_eq]%andb_prop.
  apply negb_true_iff in Hend. clearbody comment.
  exists formatted. split; [done |].
  destruct (re_match_group _ _ _ Hmo) as [Hg Hsplit].
  unfold new_line_of. rewrite Hg. cbn [default from_option id].
  rewrite Hsplit at 1. rewrite drop_str_app.
  destruct (line_structure_ends_with_assign _ _ Hmo) as (a & c & Htext & Hc).
  rewrite Htext at 1. rewrite (rstrip_snoc _ _ (is_assign_not_space _ Hc)), <- Htext.
  assert (Htrail : trailing_comment_of (m_post mo) = comment).
  { rewrite Hpost. unfold comment_text in Hcomment.
    destruct comment as [|c0 comment0] eqn:Hc0.
    - unfold trailing_comment_of. rewrite trailing_search_no_hash; [done |].
      unfold no_hash in *. cbn [String.append all_chars].
      clear -Hhash. induction formatted as [|x formatted IH]; [done |].
      cbn [String.append all_chars] in *. apply andb_prop in Hhash as [-> Hhash].
      by apply IH.
    - rewrite <- Hc0 in *. clear Hc0 c0 comment0.
      pose proof (span_app is_space comment) as Hspan.
      pose proof (span_all is_space comment) as Hws.
      destruct (span is_space comment) as [ws tail]. cbn [fst snd] in *.
      destruct tail as [|h body]; [done |].
      apply andb_prop in Hcomment as [Hh Hbody]. apply Ascii.eqb_eq in Hh. subst h.
      rewrite <- Hspan.
      replace (" " +:+ formatted +:+ (ws +:+ String "#" body) +:+ nl)
        with ((" " +:+ formatted) +:+ ws +:+ String "#" (body +:+ nl))
        by (by rewrite !app_str_assoc).
      by apply trailing_comment_found. }
  rewrite Htrail, Hsplit at 1. by rewrite Hpost.
Qed.

(** A turn of pass 2 on a file whose parameters match leaves the lines and
    the counts, and raises nothing. *)
Lemma param_step_matching (sml : list string) (st : file_state) (i : nat) :
  params_matching data sml = true →
  ∃ st', param_step data rel sml (sml, st, None) i = (sml, st', None)
         ∧ counts st' = counts st.
Proof.
  intros Hall. unfold param_step.
  destruct (sml !! i) as [line|] eqn:Hline; [| by eexists].
  destruct (Nat.ltb_spec (i + 1) (length sml)) as [Hlt|Hge].
  2: { destruct (re_search param_re line); by eexists. }
  destruct (lookup_lt_is_Some_2 sml (i + 1) Hlt) as [next_line Hnext].
  pose proof (params_matching_lookup sml i line next_line Hall Hline Hnext) as Hm.
  unfold param_matches in Hm.
  destruct (re_search param_re line) as [pm|]; [| by eexists].
  destruct (get_value_by_path data _) as [v w]. cbn [fst] in Hm.
  rewrite Hnext. cbn [default from_option id].
  assert (Hkeep : ∀ ws, ∃ st', (sml, add_log ws st, @None exception) = (sml, st', None)
                                ∧ counts st' = counts st) by (intros; by eexists).
  assert (Hvalue : is_commented next_line
                   || match re_match line_structure_re next_line with
                      | Some _ => holds_value v next_line
                      | None => true
                      end = true →
            ∃ st',
              (if startswith "#" (lstrip next_line) then (sml, add_log w st, None)
               else
                 match re_match line_structure_re next_line with
                 | Some line_structure_match =>
                     match format_value_for_file v with
                     | Some formatted_new_value =>
                         if negb (String.eqb next_line
                                    (new_line_of line_structure_match formatted_new_value
                                       next_line))
                         then (<[i + 1 := new_line_of line_structure_match
                                             formatted_new_value next_line]> sml,
                               count_replacement (add_log w st), None)
                         else (sml, add_log w st, None)
                     | None => (sml, add_log w st, Some TypeError_not_serializable)
                     end
                 | None =>
                     (sml,
                      add_log [(WARNING, NoAssignmentPattern
                                           (default EmptyString (m_group1 pm)) rel)]
                        (add_log w st), None)
                 end) = (sml, st', None)
              ∧ counts st' = counts st).
  { unfold is_commented. destruct (startswith "#" (lstrip next_line)); [intros _; apply Hkeep |].
    cbn [orb]. destruct (re_match line_structure_re next_line) as [mo|] eqn:Hmo.
    - intros Hholds.
      destruct (holds_value_new_line v next_line mo Hmo Hholds) as (fv & -> & ->).
      rewrite String.eqb_refl. cbn [negb]. apply Hkeep.
    - intros _. by eexists. }
  destruct v; [apply Hkeep | ..]; by apply Hvalue.
Qed.

Lemma param_fold_matching (sml : list string) (indices : list nat) :
  params_matching data sml = true →
  ∀ st, ∃ st', foldl (param_step data rel sml) (sml, st, None) indices = (sml, st', None)
               ∧ counts st' = counts st.
Proof.
  intros Hall. induction indices as [|i indices IH]; intros st; [by eexists |].
  cbn [foldl]. destruct (param_step_matching sml st i Hall) as (st1 & -> & Hc1).
  destruct (IH st1) as (st2 & -> & Hc2). exists st2. split; [done | congruence].
Qed.

(** Both passes leave a reconciled file alone. *)
Lemma engine_reconciled (lines : list string) (r : run_state) :
  reconciled data lines = true →
  (engine data rel lines r).1 = lines
  ∧ engine_raised data rel lines r = None
  ∧ counts (engine data rel lines r).2 = (false, totals r).
Proof.
  unfold reconciled. intros [Hsections Hparams]%andb_prop.
  unfold engine, engine_raised, section_pass.
  destruct (section_loop_toggled lines 0 (set_sections [] (FileState [] false r)) Hsections)
    as [Hl Hc].
  destruct (section_loop data rel 0 lines _) as [sml st1]. cbn [fst snd] in Hl, Hc.
  subst sml. unfold param_pass, param_raised, param_loop.
  destruct (param_fold_matching lines (seq 0 (length lines)) Hparams st1)
    as (st2 & -> & Hc2).
  cbn [fst snd]. split; [done |]. split; [done |]. by rewrite Hc2, Hc.
Qed.

End reconciled_facts.

(** C3, as the code has it.  A file that is fully reconciled with its data
    (every line that is no marker is toggled as the innermost section open
    at it wants, and every parameter that has a value and an uncommented
    assignment after it finds that value there) comes out of the engine
    unchanged, with no exception, the modified flag false and the totals of
    toggles and replacements as they were; in place, its turn writes nothing
    and counts no file.  The engine's own output need not be such a file. *)
Theorem reconciled_file_is_left_alone (data : dict) (name : string)
    (lines : list string) (r : run_state) (rep : run_report) (f : input_file) :
  reconciled data lines = true →
  (engine data name lines r).1 = lines
  ∧ engine_raised data name lines r = None
  ∧ counts (engine data name lines r).2 = (false, totals r)
  ∧ (read_lines f = Some lines →
     ∃ rep', process_file data true rep f = Continue rep'
             ∧ outcome rep' = outcome rep).
Proof.
  intros Hlines.
  destruct (engine_reconciled data name lines r Hlines) as (Hl & Hr & Hc).
  split; [done |]. split; [done |]. split; [done |].
  intros Hread. unfold process_file. rewrite Hread. cbn [negb andb].
  destruct (engine_reconciled data (relative_path f) lines
              (log_run [(INFO, ProcessingFile (relative_path f))] (state rep)) Hlines)
    as (_ & -> & Hcounts).
  destruct (engine data (relative_path f) lines _) as [final st].
  unfold counts in Hcounts. cbn [fst snd] in Hcounts.
  pose proof (f_equal fst Hcounts) as Hm. pose proof (f_equal snd Hcounts) as Ht.
  cbn [fst snd] in Hm, Ht. rewrite totals_log_run in Ht.
  rewrite Hm. eexists. split; [done |].
  unfold outcome. simpl. by rewrite totals_log_run, Ht.
Qed.

Lemma reconciled_file_is_left_alone_witness :
  (engine port_data "app.conf" port_file run_start).1 = port_file
  ∧ engine_raised port_data "app.conf" port_file run_start = None
  ∧ counts (engine port_data "app.conf" port_file run_start).2 = (false, totals run_start).
Proof.
  pose proof (reconciled_file_is_left_alone port_data "app.conf" port_file run_start
                (RunReport run_start []) (InputFile "app.conf" true None true))
    as H.
  destruct H as (H1 & H2 & H3 & _); [vm_compute; reflexivity |].
  split; [exact H1 | split; [exact H2 | exact H3]].
Defined.

(** C3 as stated fails: the engine is not idempotent on its own output.
    With the section switched on, the first run takes one hash sign off the
    comment with two, and the run on that output takes off the other: one
    more toggle, the flag is set, and in place the file is written again. *)
Lemma rerun_toggles_again :
  (engine flag_on "app.conf" note_file run_start).1
  = [ln "# @section flag begin"; ln "# note"; ln "# @section flag end"]
  ∧ reconciled flag_on (engine flag_on "app.conf" note_file run_start).1 = false
  ∧ engine flag_on "app.conf" (engine flag_on "app.conf" note_file run_start).1 run_start
    = ([ln "# @section flag begin"; ln "note"; ln "# @section flag end"],
       FileState [] true (RunState 0 0 1 []))
  ∧ result_outcome
      (process_files true true "conf" "conf"
         [InputFile "app.conf" true
            (Some (engine flag_on "app.conf" note_file run_start).1) true]
         flag_on)
    = (None,
       ((1, 0, 1)%nat,
        [Written "app.conf"
           [ln "# @section flag begin"; ln "note"; ln "# @section flag end"]])).
Proof. repeat split; vm_compute; reflexivity. Qed.

(** * Further properties of the engine *)

(** ** Pass 1: what it leaves alone *)

(** X1: Pass 1 never rewrites a marker line: a line on which the begin pattern
    or the end pattern matches is found unchanged at its index in the
    section-modified lines, whatever sections are open. *)
Theorem section_pass_keeps_markers (data : dict) (rel : string)
    (lines : list string) (st : file_state) (j : nat) (line : string) :
  lines !! j = Some line → is_marker_line line = true →
  (section_pass data rel lines st).1 !! j = Some line.
Proof.
  intros Hj Hm. unfold section_pass.
  apply section_loop_lookup_fixed; [| done].
  intros i st'. by apply section_step_marker.
Qed.

Lemma section_pass_keeps_markers_witness :
  (section_pass flag_off "app.conf" flag_file (FileState [] false run_start)).1 !! 2
  = Some (ln "# @section flag end").
Proof.
  apply (section_pass_keeps_markers flag_off "app.conf" flag_file
           (FileState [] false run_start) 2 (ln "# @section flag end"));
    by_computation.
Defined.

(** X2: Pass 1 never rewrites a blank line: a line of whitespace only is
    neither commented out nor uncommented, in any section. *)
Theorem section_pass_keeps_blank_lines (data : dict) (rel : string)
    (lines : list string) (st : file_state) (j : nat) (line : string) :
  lines !! j = Some line → is_blank line = true →
  (section_pass data rel lines st).1 !! j = Some line.
Proof.
  intros Hj Hb. unfold section_pass.
  apply section_loop_lookup_fixed; [| done].
  intros i st'. by apply section_step_blank.
Qed.

Lemma section_pass_keeps_blank_lines_witness :
  (section_pass flag_off "app.conf"
     [ln "# @section flag begin"; ln "  "; ln "key: 1"]
     (FileState [] false run_start)).1 !! 1
  = Some (ln "  ").
Proof.
  apply (section_pass_keeps_blank_lines flag_off "app.conf"
           [ln "# @section flag begin"; ln "  "; ln "key: 1"]
           (FileState [] false run_start) 1 (ln "  "));
    by_computation.
Defined.

(** X3: A file with no begin marker goes through pass 1 unchanged: no line is
    rewritten, no toggle is counted, the modified flag keeps its value and
    no section is open at the end (end markers only log a warning). *)
Theorem file_without_sections_unchanged (data : dict) (rel : string)
    (lines : list string) (st : file_state) :
  Forall (λ l, section_begin_match l = None) lines →
  (section_pass data rel lines st).1 = lines
  ∧ active_sections (section_pass data rel lines st).2 = []
  ∧ counts (section_pass data rel lines st).2 = counts st.
Proof.
  intros Hlines. unfold section_pass.
  by apply (section_loop_closed data rel lines Hlines 0 (set_sections [] st)).
Qed.

Lemma file_without_sections_unchanged_witness :
  (section_pass flag_off "app.conf" [ln "# note"; ln "key: 1"; ln "# @section flag end"]
     (FileState [] false run_start)).1
  = [ln "# note"; ln "key: 1"; ln "# @section flag end"].
Proof.
  apply (file_without_sections_unchanged flag_off "app.conf"
           [ln "# note"; ln "key: 1"; ln "# @section flag end"]
           (FileState [] false run_start)).
  by_computation.
Defined.

(** ** Pass 1: toggling a line off and on *)

(** X4: Commenting a line out and uncommenting it again gives the line back:
    for a line that is not commented and whose text does not start with
    [@param] or [@section], the policy of a section switched on undoes the
    policy of a section switched off, indentation included. *)
Theorem toggle_round_trip (off on : frame) (line : string) :
  should_be_commented off = true → should_be_commented on = false →
  is_commented line = false →
  startswith "@param" (lstrip line) = false →
  startswith "@section" (lstrip line) = false →
  governed on (governed off line) = line.
Proof.
  intros Hoff Hon Hc Hp Hs. unfold governed. rewrite Hoff, Hon.
  destruct (commented_out_cases line) as [->|[_ ->]].
  - unfold uncommented. by rewrite Hc.
  - unfold uncommented.
    rewrite (commented_line _ _ (indent_spaces line)),
            (re_sub1_hash _ _ (indent_spaces line)).
    cbn [drop_space]. change (is_space " ") with true. cbv iota.
    rewrite indent_lstrip, Hp, Hs. done.
Qed.

Lemma toggle_round_trip_witness :
  governed (Frame "flag" false) (governed (Frame "flag" true) (ln "    key: 1"))
  = ln "    key: 1".
Proof.
  apply (toggle_round_trip (Frame "flag" true) (Frame "flag" false) (ln "    key: 1"));
    by_computation.
Defined.

(** X5: Commenting out is idempotent on a line: under a section switched off, a
    line that has been commented out is left as it is by the same policy,
    so a second run adds no second hash sign. *)
Theorem commenting_out_is_idempotent (f : frame) (line : string) :
  should_be_commented f = true →
  governed f (governed f line) = governed f line.
Proof.
  intros Hf. unfold governed. rewrite Hf.
  destruct (commented_out_cases line) as [Heq|[_ Heq]]; [by rewrite !Heq |].
  rewrite Heq. unfold commented_out at 1.
  by rewrite (commented_line _ _ (indent_spaces line)).
Qed.

Lemma commenting_out_is_idempotent_witness :
  governed (Frame "flag" true) (governed (Frame "flag" true) (ln "  key: 1"))
  = governed (Frame "flag" true) (ln "  key: 1").
Proof.
  apply (commenting_out_is_idempotent (Frame "flag" true) (ln "  key: 1")).
  reflexivity.
Defined.

(** ** Pass 2: which lines it rewrites *)

Section param_pass_invariants.

Context (data : dict) (rel : string).

Lemma param_fold_length (sml : list string) (indices : list nat) :
  ∀ final_lines st raised,
  length (foldl (param_step data rel sml) (final_lines, st, raised) indices).1.1
  = length final_lines.
Proof.
  induction indices as [|i indices IH]; intros final_lines st raised; [done |].
  cbn [foldl].
  pose proof (param_step_length data rel sml final_lines st raised i) as Hlen.
  destruct (param_step data rel sml (final_lines, st, raised) i) as [[lines1 st1] r1].
  by rewrite IH.
Qed.

(** An index that no turn writes keeps its line through the loop. *)
Lemma param_fold_lookup_fixed (sml : list string) (j : nat) :
  (∀ i final_lines st raised,
     (param_step data rel sml (final_lines, st, raised) i).1.1 !! j = final_lines !! j) →
  ∀ indices final_lines st raised,
  (foldl (param_step data rel sml) (final_lines, st, raised) indices).1.1 !! j
  = final_lines !! j.
Proof.
  intros Hstep. induction indices as [|i indices IH]; intros final_lines st raised; [done |].
  cbn [foldl]. specialize (Hstep i final_lines st raised).
  destruct (param_step data rel sml (final_lines, st, raised) i) as [[lines1 st1] r1].
  by rewrite IH.
Qed.

Lemma param_step_commented_target (sml final_lines : list string)
    (st : file_state) (raised : option exception) (i : nat) (line : string) :
  sml !! (i + 1) = Some line → is_commented line = true →
  (param_step data rel sml (final_lines, st, raised) i).1.1 = final_lines.
Proof.
  intros Hnext Hc. unfold param_step, is_commented in *.
  destruct raised as [e|]; [done |].
  destruct (sml !! i) as [l|]; [| done].
  destruct (re_search param_re l) as [pm|]; [| done].
  destruct (i + 1 <? length sml)%nat; [| done].
  destruct (get_value_by_path data _) as [v w].
  rewrite Hnext. cbn [default from_option id]. rewrite Hc.
  by destruct v.
Qed.

Lemma param_step_no_directive (sml final_lines : list string)
    (st : file_state) (raised : option exception) (i : nat) :
  (∀ line, sml !! i = Some line → re_search param_re line = None) →
  param_step data rel sml (final_lines, st, raised) i = (final_lines, st, raised).
Proof.
  intros Hnone. unfold param_step.
  destruct raised as [e|]; [done |].
  destruct (sml !! i) as [l|]; [| done]. by rewrite (Hnone l eq_refl).
Qed.

Lemma param_step_last (sml final_lines : list string) (st : file_state)
    (raised : option exception) (i : nat) :
  (length sml ≤ i + 1)%nat →
  param_step data rel sml (final_lines, st, raised) i = (final_lines, st, raised).
Proof.
  intros Hlast. unfold param_step.
  destruct raised as [e|]; [done |].
  destruct (sml !! i) as [l|]; [| done].
  destruct (re_search param_re l) as [pm|]; [| done].
  by destruct (Nat.ltb_spec (i + 1) (length sml)); [lia |].
Qed.

End param_pass_invariants.

(** X6: Both passes keep the number of lines: the section-modified lines and
    the final lines have one line for each line read. *)
Theorem engine_preserves_length (data : dict) (rel : string)
    (lines : list string) (st : file_state) (r : run_state) :
  length (section_pass data rel lines st).1 = length lines
  ∧ length (param_pass data rel lines st).1 = length lines
  ∧ length (engine data rel lines r).1 = length lines.
Proof.
  split; [apply section_loop_length |]. split; [apply param_fold_length |].
  unfold engine.
  pose proof (section_loop_length data rel lines 0
                (set_sections [] (FileState [] false r))) as Hlen.
  unfold section_pass.
  destruct (section_loop data rel 0 lines _) as [sml st1]. cbn [fst] in Hlen.
  unfold param_pass, param_loop. by rewrite param_fold_length.
Qed.

(** X7: Pass 2 never rewrites a commented line: a line whose first character
    after the indentation is a hash sign is found unchanged in the final
    lines, also when a parameter directive stands on the line before it. *)
Theorem param_pass_keeps_commented_lines (data : dict) (rel : string)
    (sml : list string) (st : file_state) (j : nat) (line : string) :
  sml !! j = Some line → is_commented line = true →
  (param_pass data rel sml st).1 !! j = Some line.
Proof.
  intros Hj Hc. unfold param_pass, param_loop.
  rewrite param_fold_lookup_fixed; [done |].
  intros i final_lines st' raised. destruct (decide (j = i + 1)%nat) as [->|Hne].
  - by rewrite (param_step_commented_target data rel sml _ _ _ _ line).
  - by apply param_step_other.
Qed.

Lemma param_pass_keeps_commented_lines_witness :
  (param_pass [("key", VInt 2)] "app.conf" [ln "# @param key"; ln "# key: 1"]
     (FileState [] false run_start)).1 !! 1
  = Some (ln "# key: 1").
Proof.
  apply (param_pass_keeps_commented_lines [("key", VInt 2)] "app.conf"
           [ln "# @param key"; ln "# key: 1"] (FileState [] false run_start)
           1 (ln "# key: 1")); by_computation.
Defined.

(** X8: Pass 2 rewrites only the line that follows a parameter directive: the
    first line, and every line whose predecessor does not match the
    parameter pattern, is found unchanged in the final lines. *)
Theorem param_pass_only_after_directive (data : dict) (rel : string)
    (sml : list string) (st : file_state) (j : nat) :
  (∀ i line, j = S i → sml !! i = Some line → re_search param_re line = None) →
  (param_pass data rel sml st).1 !! j = sml !! j.
Proof.
  intros Hprev. unfold param_pass, param_loop.
  apply param_fold_lookup_fixed.
  intros i final_lines st' raised. destruct (decide (j = i + 1)%nat) as [->|Hne].
  - rewrite param_step_no_directive; [done |].
    intros line Hline. apply (Hprev i); [lia | done].
  - by apply param_step_other.
Qed.

Lemma param_pass_only_after_directive_witness :
  (param_pass [("key", VInt 2)] "app.conf"
     [ln "# @param key"; ln "key: 1"; ln "key: 1"]
     (FileState [] false run_start)).1 !! 2
  = [ln "# @param key"; ln "key: 1"; ln "key: 1"] !! 2.
Proof.
  apply (param_pass_only_after_directive [("key", VInt 2)] "app.conf"
           [ln "# @param key"; ln "key: 1"; ln "key: 1"]
           (FileState [] false run_start) 2).
  intros i line Hi Hline. injection Hi as <-. injection Hline as <-.
  vm_compute. reflexivity.
Defined.

(** X9: A parameter directive on the last line of a file is inert: when no
    other line matches the parameter pattern, pass 2 returns the lines and
    the state as they are and raises nothing, and the path of that
    directive is not even looked up (no warning for an absent path). *)
Theorem directive_on_last_line_is_inert (data : dict) (rel : string)
    (sml : list string) (last_line : string) (st : file_state) :
  Forall (λ line, re_search param_re line = None) sml →
  param_pass data rel (sml ++ [last_line]) st = (sml ++ [last_line], st)
  ∧ param_raised data rel (sml ++ [last_line]) st = None.
Proof.
  intros Hsml. unfold param_pass, param_raised, param_loop.
  assert (Hfold : ∀ indices,
            Forall (λ i, (i < length (sml ++ [last_line]))%nat) indices →
            foldl (param_step data rel (sml ++ [last_line]))
              (sml ++ [last_line], st, None) indices
            = (sml ++ [last_line], st, None)).
  { induction indices as [|i indices IH]; intros Hidx; [done |].
    apply Forall_cons in Hidx as [Hi Hidx]. cbn [foldl].
    rewrite length_app in Hi. cbn [length] in Hi.
    destruct (decide (i < length sml)%nat) as [Hlt|Hge].
    - rewrite param_step_no_directive; [by apply IH |].
      intros line. rewrite lookup_app_l by done. intros Hline.
      by apply (Forall_lookup_1 _ _ _ _ Hsml Hline).
    - rewrite param_step_last; [by apply IH |].
      rewrite length_app. cbn [length]. lia. }
  rewrite Hfold; [done |]. apply Forall_forall. intros i Hi.
  apply elem_of_seq in Hi. lia.
Qed.

Lemma directive_on_last_line_is_inert_witness :
  param_pass [] "app.conf" ([ln "key: 1"] ++ [ln "# @param missing"])
    (FileState [] false run_start)
  = ([ln "key: 1"] ++ [ln "# @param missing"], FileState [] false run_start)
  ∧ param_raised [] "app.conf" ([ln "key: 1"] ++ [ln "# @param missing"])
      (FileState [] false run_start) = None.
Proof.
  apply (directive_on_last_line_is_inert [] "app.conf" [ln "key: 1"]
           (ln "# @param missing") (FileState [] false run_start)).
  by_computation.
Defined.

(** X10: The structural prefix of the target line is kept character for
    character: the new line starts with the text the prefix pattern matched
    (indentation, list dash, key and the colon or equals sign; the
    [rstrip] of the code removes nothing from it), followed by one space
    and the formatted value. *)
Theorem new_line_keeps_prefix (mo : match_obj) (formatted : string)
    (next_line : string) :
  re_match line_structure_re next_line = Some mo →
  next_line = m_text mo +:+ m_post mo
  ∧ new_line_of mo formatted next_line
    = m_text mo +:+ " " +:+ formatted
        +:+ trailing_comment_of (m_post mo) +:+ nl.
Proof.
  intros Hmo. destruct (re_match_group _ _ _ Hmo) as [Hg Hsplit].
  split; [done |]. unfold new_line_of. rewrite Hg. cbn [default from_option id].
  rewrite Hsplit at 1. rewrite drop_str_app.
  destruct (line_structure_ends_with_assign _ _ Hmo) as (a & c & -> & Hc).
  by rewrite (rstrip_snoc _ _ (is_assign_not_space _ Hc)).
Qed.

Lemma new_line_keeps_prefix_witness :
  ln "  - port = 5432" = "  - port =" +:+ ln " 5432"
  ∧ new_line_of (MatchObj EmptyString "  - port =" (Some "  - port =") (ln " 5432"))
      "9000" (ln "  - port = 5432")
    = "  - port =" +:+ " " +:+ "9000" +:+ trailing_comment_of (ln " 5432") +:+ nl.
Proof.
  apply (new_line_keeps_prefix
           (MatchObj EmptyString "  - port =" (Some "  - port =") (ln " 5432"))
           "9000" (ln "  - port = 5432")).
  by_computation.
Defined.

(** X11: When the target line has no hash sign after its structural prefix, the
    old value is dropped entirely: the new line is the prefix, one space,
    the formatted value and the line terminator. *)
Theorem new_line_replaces_value (mo : match_obj) (formatted : string)
    (next_line : string) :
  re_match line_structure_re next_line = Some mo →
  no_hash (m_post mo) = true →
  new_line_of mo formatted next_line
  = m_text mo +:+ " " +:+ formatted +:+ nl.
Proof.
  intros Hmo Hpost. destruct (re_match_group _ _ _ Hmo) as [Hg Hsplit].
  unfold new_line_of. rewrite Hg. cbn [default from_option id].
  rewrite Hsplit at 1. rewrite drop_str_app.
  destruct (line_structure_ends_with_assign _ _ Hmo) as (a & c & -> & Hc).
  rewrite (rstrip_snoc _ _ (is_assign_not_space _ Hc)).
  unfold trailing_comment_of. by rewrite (trailing_search_no_hash _ Hpost).
Qed.

Lemma new_line_replaces_value_witness :
  new_line_of (MatchObj EmptyString "name:" (Some "name:") (ln (" " +:+ dq +:+ "old" +:+ dq)))
    (dq +:+ "new" +:+ dq) (ln ("name: " +:+ dq +:+ "old" +:+ dq))
  = "name:" +:+ " " +:+ (dq +:+ "new" +:+ dq) +:+ nl.
Proof.
  apply (new_line_replaces_value
           (MatchObj EmptyString "name:" (Some "name:") (ln (" " +:+ dq +:+ "old" +:+ dq)))
           (dq +:+ "new" +:+ dq) (ln ("name: " +:+ dq +:+ "old" +:+ dq)));
    by_computation.
Defined.

(** ** More on merging and loading *)

Section merge_again_facts.

Lemma dict_set_same (k : string) (v : yaml_value) (d : dict) :
  dict_get k d = Some v → dict_set k v d = d.
Proof.
  induction d as [|[k' w] d IH]; simpl; [done |].
  destruct (String.eqb k' k); [by intros [= ->] |]. intros H. by rewrite IH.
Qed.

Lemma merge_entry_again (k : string) (v : yaml_value) (d : dict) :
  unique_keys v = true →
  (∀ sd, v = VDict sd → ∀ t, deep_merge (deep_merge t sd) sd = deep_merge t sd) →
  ∀ existing, dict_get k d = Some (merged_leaf existing v) →
  merge_entry k v d = d.
Proof.
  intros Hu IHv existing Hget.
  destruct (is_dict v) eqn:Hdict.
  - destruct v as [| | | | | | |sd]; try discriminate.
    assert (∃ x, merged_leaf existing (VDict sd) = VDict x ∧ deep_merge x sd = x)
      as (x & Hx & Hfix).
    { unfold merged_leaf. destruct existing as [[| | | | | | |e]|].
      8: { exists (deep_merge e sd). split; [done | apply (IHv sd eq_refl)]. }
      all: (exists sd; split; [done |];
            rewrite <- (deep_merge_empty sd Hu) at 1 3; apply (IHv sd eq_refl)). }
    rewrite Hx in Hget. rewrite merge_entry_dict, Hget, Hfix.
    by apply dict_set_same.
  - rewrite (merge_entry_scalar _ _ _ Hdict). apply dict_set_same.
    rewrite Hget. unfold merged_leaf. by destruct existing as [[]|], v.
Qed.

(** A key the source does not have keeps its value through the merge. *)
Lemma dict_get_deep_merge_other (source : dict) (target : dict) (key : string) :
  key ∉ source.*1 → dict_get key (deep_merge target source) = dict_get key target.
Proof.
  revert target. induction source as [|[k v] source IH]; intros target Hk; [done |].
  simpl in Hk. apply not_elem_of_cons in Hk as [Hne Hk].
  rewrite deep_merge_cons, (IH _ Hk). by apply dict_get_merge_entry_other.
Qed.

End merge_again_facts.

(** X12: Merging the same source a second time changes nothing: once a source
    has been merged into the accumulator, merging it again gives the same
    dictionary, keys in the same order. *)
Theorem deep_merge_twice (target source : dict) :
  unique_keys (VDict source) = true →
  deep_merge (deep_merge target source) source = deep_merge target source.
Proof.
  intros Hu. revert target. revert Hu.
  revert source.
  enough (∀ v, unique_keys v = true → ∀ source, v = VDict source →
            ∀ target, deep_merge (deep_merge target source) source
                      = deep_merge target source) as H.
  { intros source Hu. by apply (H (VDict source)). }
  induction v as [| | | | | | |d IH] using yaml_value_nested_ind; try discriminate.
  intros Hu source [= <-].
  induction d as [|[k w] d IHd]; intros target; [done |].
  rewrite unique_keys_cons in Hu.
  apply andb_prop in Hu as [[Hk Hw]%andb_prop Hd].
  apply negb_true_iff, bool_decide_eq_false in Hk.
  apply Forall_cons in IH as [IHw IHrest]. cbn [snd] in IHw.
  rewrite (deep_merge_cons target), deep_merge_cons.
  rewrite (merge_entry_again k w _ Hw (IHw Hw) (dict_get k target)).
  - by apply IHd.
  - rewrite (dict_get_deep_merge_other _ _ _ Hk).
    by apply dict_get_merge_entry_same.
Qed.

Lemma deep_merge_twice_witness :
  deep_merge (deep_merge example_A example_B) example_B = deep_merge example_A example_B.
Proof. apply (deep_merge_twice example_A example_B). reflexivity. Defined.

(** X13: A single source is loaded as it is: the loader returns the mapping of
    the one data file, keys and nested mappings in their order. *)
Theorem single_source_is_loaded_unchanged (path : string) (d : dict) :
  unique_keys (VDict d) = true →
  load_and_merge_data [DataSource path (Parsed (VDict d))] = Ok d.
Proof.
  intros Hu. unfold load_and_merge_data, load_from, load_one. cbn [ds_content].
  destruct d as [|kv d]; [done |]. cbn [truthy]. by rewrite (deep_merge_empty _ Hu).
Qed.

Lemma single_source_is_loaded_unchanged_witness :
  load_and_merge_data [DataSource "values.yaml" (Parsed (VDict example_A))]
  = Ok example_A.
Proof.
  apply (single_source_is_loaded_unchanged "values.yaml" example_A). reflexivity.
Defined.

(** X14: The last data file wins at a leaf: when the sources before it load and
    the last source holds a value that is no mapping under a key, the
    merged data holds that value under the key, whatever the earlier
    sources held there; a key the last source lacks keeps what the earlier
    sources gave it. *)
Theorem last_source_wins (before : list data_source) (path : string)
    (d earlier : dict) (key : string) :
  unique_keys (VDict d) = true →
  load_and_merge_data before = Ok earlier →
  ∃ merged,
    load_and_merge_data (before ++ [DataSource path (Parsed (VDict d))]) = Ok merged
    ∧ (∀ v, dict_get key d = Some v → is_dict v = false → dict_get key merged = Some v)
    ∧ (dict_get key d = None → dict_get key merged = dict_get key earlier).
Proof.
  intros Hu Hbefore. unfold load_and_merge_data in *.
  rewrite load_from_app, Hbefore. cbn [load_from load_one ds_content ds_path].
  destruct d as [|kv d].
  - exists earlier. cbn [truthy]. split; [done |]. split; [| done]. by intros v [=].
  - cbn [truthy]. exists (deep_merge earlier (kv :: d)). split; [done |].
    rewrite (dict_get_deep_merge _ Hu). split.
    + intros v -> Hv. unfold merged_leaf. by destruct (dict_get key earlier) as [[]|], v.
    + by intros ->.
Qed.

Lemma last_source_wins_witness :
  ∃ merged,
    load_and_merge_data
      ([DataSource "base.yaml" (Parsed (VDict [("port", VInt 80); ("host", VStr "a")]))]
         ++ [DataSource "site.yaml" (Parsed (VDict [("port", VInt 8080)]))])
    = Ok merged
    ∧ (∀ v, dict_get "port" [("port", VInt 8080)] = Some v → is_dict v = false →
         dict_get "port" merged = Some v)
    ∧ (dict_get "port" [("port", VInt 8080)] = None →
         dict_get "port" merged
         = dict_get "port" [("port", VInt 80); ("host", VStr "a")]).
Proof.
  apply (last_source_wins
           [DataSource "base.yaml" (Parsed (VDict [("port", VInt 80); ("host", VStr "a")]))]
           "site.yaml" [("port", VInt 8080)] [("port", VInt 80); ("host", VStr "a")] "port");
    reflexivity.
Defined.

(** X28: the loader on objects and the loader on trees agree when the data
    files share no object.  When no dictionary and no list occurs twice in
    the parsed data files, inside one file or across the files,
    [load_and_merge_data] run on the objects raises the exception the
    loader on trees gives, or returns a dictionary that stands for the tree
    the loader on trees returns. *)
Theorem loader_agrees_without_sharing n (roots : list (string * Heap.obj)) parts
    (h : Heap.heap) :
  0 < n →
  Forall2 (λ root p, Heap.shape n h root.2 = Some p) roots parts →
  NoDup (concat parts.*2) →
  Forall (λ p, well_keyed p.1 = true) parts →
  match load_and_merge_data (parsed_sources roots parts) with
  | Ok merged =>
      ∃ m h',
        Heap.load_and_merge_data n roots h = Ok (m, h')
        ∧ Heap.read n h' (Heap.ORef m) = Some (VDict merged)
  | Err e => Heap.load_and_merge_data n roots h = Err e
  end.
Proof.
  intros Hn Hparts Hnd Hwk. unfold load_and_merge_data, Heap.load_and_merge_data.
  assert (Hlt : ∀ a, a ∈ concat parts.*2 → a < length h).
  { intros a Ha.
    eapply (elems_bound n h roots.*2 parts (shape_bound n h)); [| exact Ha].
    by apply roots_elems. }
  destruct n as [|n']; [lia |].
  assert (H1 : Forall2 (λ root p, Heap.shape (S n') (h ++ [Heap.CDict []]) root.2 = Some p)
                 roots parts).
  { apply roots_elems.
    eapply elems_agree; [apply shape_agree | by apply roots_elems |].
    intros a Ha. apply heap_lookup_app_l. by apply Hlt. }
  assert (H2 : Heap.shape (S n') (h ++ [Heap.CDict []]) (Heap.ORef (length h))
               = Some (VDict [], [length h])).
  { apply (shape_dict n' _ _ [] (heap_lookup_fresh h _)).
    exists []. split; [constructor | done]. }
  assert (H3 : NoDup ([length h] ++ concat parts.*2)).
  { apply NoDup_cons. split; [| done]. intros Ha%Hlt. lia. }
  pose proof (load_from_refines (S n') roots parts (h ++ [Heap.CDict []]) (length h) []
                [length h] H1 H2 H3 Hwk) as H.
  destruct (load_from [] (parsed_sources roots parts)) as [merged|e].
  - destruct H as (h' & Fm' & Hrun & Hm & _). exists (length h), h'.
    rewrite Hrun. split; [done |]. unfold Heap.read. by rewrite Hm.
  - by rewrite H.
Qed.

Lemma loader_agrees_without_sharing_witness :
  ∃ m h',
    Heap.load_and_merge_data 2 [("A", Heap.ORef 0); ("B", Heap.ORef 2)] example_heap
    = Ok (m, h')
    ∧ Heap.read 2 h' (Heap.ORef m)
      = Some (VDict [("x", VDict [("a", VInt 1); ("b", VInt 3)])]).
Proof.
  apply (loader_agrees_without_sharing 2 [("A", Heap.ORef 0); ("B", Heap.ORef 2)]
           [(VDict example_A, [0; 1]); (VDict example_B, [2; 3])] example_heap).
  - lia.
  - repeat constructor.
  - apply (bool_decide_unpack _). vm_compute. reflexivity.
  - repeat constructor.
Defined.

(** ** Dotted paths *)

Section path_facts.

Lemma split_nonempty (sep : ascii) (s : string) : split sep s ≠ [].
Proof.
  induction s as [|c s IH]; simpl; [done |].
  destruct (Ascii.eqb c sep); [done |]. by destruct (split sep s).
Qed.

(** Splitting at the separator between two parts gives the segments of the
    first part followed by those of the second. *)
Lemma split_app (sep : ascii) (p q : string) :
  split sep (p +:+ String sep q) = split sep p ++ split sep q.
Proof.
  induction p as [|c p IH]; simpl.
  - by rewrite Ascii.eqb_refl.
  - destruct (Ascii.eqb c sep); [by rewrite IH |].
    rewrite IH. pose proof (split_nonempty sep p).
    by destruct (split sep p).
Qed.

Lemma walk_keys_app (a b : list string) (v : yaml_value) :
  walk_keys (a ++ b) v = walk_keys a v ≫= walk_keys b.
Proof.
  revert v. induction a as [|k a IH]; intros v; simpl; [done |].
  destruct v; try done. destruct (dict_get k d); [apply IH | done].
Qed.

Lemma walk_keys_scalar (keys : list string) (v : yaml_value) :
  keys ≠ [] → is_dict v = false → walk_keys keys v = None.
Proof. destruct keys; [done |]. by destruct v. Qed.

End path_facts.

(** X15: A dotted path resolves segment by segment: the value at [p.q] is the
    value at [q] inside the mapping found at [p], and it is [None] when [p]
    is absent or leads to anything but a mapping (a scalar, a sequence,
    null). *)
Theorem path_resolves_by_segments (data : dict) (p q : string) :
  (get_value_by_path data (p +:+ String "." q)).1
  = match (get_value_by_path data p).1 with
    | VDict d => (get_value_by_path d q).1
    | _ => VNone
    end.
Proof.
  unfold get_value_by_path. rewrite split_app, walk_keys_app.
  destruct (walk_keys (split "." p) (VDict data)) as [v|]; cbn [mbind option_bind fst];
    [| done].
  destruct (is_dict v) eqn:Hv.
  - destruct v; try discriminate. by destruct (walk_keys (split "." q) (VDict d)).
  - rewrite (walk_keys_scalar _ _ (split_nonempty "." q) Hv). by destruct v.
Qed.

(** X16: The empty path is looked up as the empty key: it resolves to the entry
    stored under the empty string when the data has one, and to [None] with
    the not-found warning otherwise; nothing is raised. *)
Theorem empty_path_reads_empty_key (data : dict) :
  get_value_by_path data EmptyString
  = match dict_get EmptyString data with
    | Some v => (v, [])
    | None => (VNone, [(WARNING, PathNotFound EmptyString)])
    end.
Proof.
  unfold get_value_by_path. cbn [split walk_keys].
  by destruct (dict_get EmptyString data).
Qed.

(** ** The counters *)

Section counter_facts.

Context (data : dict) (rel : string).

Ltac open_state st := destruct st as [? ? [? ? ? ?]].

Ltac solve_rel :=
  unfold pass1_rel, pass2_rel, add_log, count_toggle, count_replacement,
    set_sections in *; cbn [run file_was_modified active_sections
    total_files_modified total_replacements total_section_toggles] in *;
  repeat match goal with
         | H : _ ∧ _ |- _ => destruct H
         end;
  subst;
  repeat match goal with
         | |- context [Nat.eqb ?a ?b] => destruct (Nat.eqb_spec a b)
         | H : context [Nat.eqb ?a ?b] |- _ => destruct (Nat.eqb_spec a b)
         end;
  repeat match goal with
         | b : bool |- _ => destruct b
         end;
  cbn [orb negb] in *; repeat split; first [done | lia | congruence].

Lemma pass1_refl (st : file_state) : pass1_rel st st.
Proof. open_state st. solve_rel. Qed.

Lemma pass1_trans (a b c : file_state) :
  pass1_rel a b → pass1_rel b c → pass1_rel a c.
Proof. open_state a. open_state b. open_state c. intros H1 H2. solve_rel. Qed.

Lemma pass1_add_log (rs : list log_record) (st : file_state) :
  pass1_rel st (add_log rs st).
Proof. open_state st. solve_rel. Qed.

Lemma pass1_set_sections (stack : list frame) (st : file_state) :
  pass1_rel st (set_sections stack st).
Proof. open_state st. solve_rel. Qed.

Lemma pass1_count_toggle (st : file_state) : pass1_rel st (count_toggle st).
Proof. open_state st. solve_rel. Qed.

Lemma pass2_refl (st : file_state) : pass2_rel st st.
Proof. open_state st. solve_rel. Qed.

Lemma pass2_trans (a b c : file_state) :
  pass2_rel a b → pass2_rel b c → pass2_rel a c.
Proof. open_state a. open_state b. open_state c. intros H1 H2. solve_rel. Qed.

Lemma pass2_add_log (rs : list log_record) (st : file_state) :
  pass2_rel st (add_log rs st).
Proof. open_state st. solve_rel. Qed.

Lemma pass2_count_replacement (st : file_state) :
  pass2_rel st (count_replacement st).
Proof. open_state st. solve_rel. Qed.

Lemma apply_section_pass1 (f : frame) (line : string) (st : file_state) :
  pass1_rel st (apply_section f line st).2.
Proof.
  unfold apply_section.
  repeat match goal with |- context [if ?b then _ else _] => destruct b end;
    cbn [snd]; first [apply pass1_refl | apply pass1_count_toggle].
Qed.

Lemma update_sections_pass1 (i : nat) (line : string) (st : file_state) :
  pass1_rel st (update_sections data rel i line st).
Proof.
  unfold update_sections.
  destruct (section_begin_match line) as [mo|].
  - destruct (get_value_by_path data _) as [v w].
    eapply pass1_trans; [apply pass1_add_log | apply pass1_set_sections].
  - destruct (section_end_match line) as [mo|]; [| apply pass1_refl].
    destruct (active_sections st) as [|top below]; [apply pass1_add_log |].
    destruct (String.eqb (key top) _); [apply pass1_set_sections | apply pass1_add_log].
Qed.

Lemma section_step_pass1 (i : nat) (line : string) (st : file_state) :
  pass1_rel st (section_step data rel i line st).2.
Proof.
  unfold section_step.
  destruct (active_sections st) as [|f below]; [apply update_sections_pass1 |].
  destruct (negb (is_marker_line line)); [| apply update_sections_pass1].
  pose proof (apply_section_pass1 f line st) as H.
  destruct (apply_section f line st) as [new_line st1]. cbn [snd] in *.
  eapply pass1_trans; [exact H | apply update_sections_pass1].
Qed.

Lemma section_loop_pass1 (lines : list string) :
  ∀ i st, pass1_rel st (section_loop data rel i lines st).2.
Proof.
  induction lines as [|line lines IH]; intros i st; [apply pass1_refl |].
  rewrite section_loop_cons. cbv zeta. cbn [snd].
  eapply pass1_trans; [apply section_step_pass1 | apply IH].
Qed.

Lemma param_step_pass2 (sml final_lines : list string) (st : file_state)
    (raised : option exception) (i : nat) :
  pass2_rel st (param_step data rel sml (final_lines, st, raised) i).1.2.
Proof.
  unfold param_step.
  destruct raised as [e|]; [apply pass2_refl |].
  destruct (sml !! i) as [line|]; [| apply pass2_refl].
  destruct (re_search param_re line) as [pm|]; [| apply pass2_refl].
  destruct (i + 1 <? length sml)%nat; [| apply pass2_refl].
  destruct (get_value_by_path data _) as [v w].
  assert (Hrep : pass2_rel st (count_replacement (add_log w st)))
    by (eapply pass2_trans; [apply pass2_add_log | apply pass2_count_replacement]).
  assert (Hwarn : ∀ ws, pass2_rel st (add_log ws (add_log w st)))
    by (intros ws; eapply pass2_trans; apply pass2_add_log).
  destruct v; [apply pass2_add_log | ..];
    (destruct (startswith "#" _); [apply pass2_add_log |];
     destruct (re_match line_structure_re _) as [lsm|]; [| apply Hwarn];
     destruct (format_value_for_file _) as [fv|]; [| apply pass2_add_log];
     destruct (negb _); [exact Hrep | apply pass2_add_log]).
Qed.

Lemma param_fold_pass2 (sml : list string) (indices : list nat) :
  ∀ final_lines st raised,
  pass2_rel st (foldl (param_step data rel sml) (final_lines, st, raised) indices).1.2.
Proof.
  induction indices as [|i indices IH]; intros final_lines st raised; [apply pass2_refl |].
  cbn [foldl]. pose proof (param_step_pass2 sml final_lines st raised i) as H.
  destruct (param_step data rel sml (final_lines, st, raised) i) as [[lines1 st1] r1].
  eapply pass2_trans; [exact H | apply IH].
Qed.

End counter_facts.

(** X17: Each pass counts its own changes and nothing else: pass 1 can only
    raise the total of section toggles, pass 2 only the total of
    replacements, neither touches the total of files modified, and pass 2
    leaves the stack of sections alone.  No counter ever goes down, and the
    modified flag is raised exactly when the pass has counted something. *)
Theorem passes_count_their_own_changes (data : dict) (rel : string)
    (lines : list string) (st : file_state) :
  pass1_rel (set_sections [] st) (section_pass data rel lines st).2
  ∧ pass2_rel st (param_pass data rel lines st).2.
Proof.
  split; [apply section_loop_pass1 | apply param_fold_pass2].
Qed.

(** X18: The engine flags a file as modified exactly when it has counted a
    toggle or a replacement in it: after both passes on a file the flag is
    true if and only if one of the two totals is larger than before; the
    totals never go down and the total of files modified is as before. *)
Theorem modified_iff_counted (data : dict) (rel : string) (lines : list string)
    (r : run_state) :
  let st := (engine data rel lines r).2 in
  total_files_modified (run st) = total_files_modified r
  ∧ (total_section_toggles r ≤ total_section_toggles (run st))%nat
  ∧ (total_replacements r ≤ total_replacements (run st))%nat
  ∧ (file_was_modified st = true
     ↔ (total_section_toggles r < total_section_toggles (run st))%nat
       ∨ (total_replacements r < total_replacements (run st))%nat).
Proof.
  cbv zeta. unfold engine.
  pose proof (section_loop_pass1 data rel lines 0
                (set_sections [] (FileState [] false r))) as H1.
  unfold section_pass.
  destruct (section_loop data rel 0 lines _) as [sml st1]. cbn [snd] in H1.
  pose proof (param_fold_pass2 data rel sml (seq 0 (length sml)) sml st1 None) as H2.
  unfold param_pass, param_loop.
  destruct (foldl (param_step data rel sml) (sml, st1, None) _) as [[final st2] r2].
  cbn [fst snd] in *.
  destruct H1 as (Ha1 & Hb1 & Hc1 & Hd1), H2 as (Ha2 & Hb2 & Hc2 & Hd2 & _).
  cbn [run file_was_modified set_sections total_files_modified total_replacements
       total_section_toggles] in *.
  rewrite Hd2, Hd1, Ha2, Ha1, Hb2. rewrite Hb1 in *. cbn [orb].
  split; [done |]. split; [done |]. split; [lia |].
  destruct (Nat.eqb_spec (total_section_toggles (run st1)) (total_section_toggles r)),
           (Nat.eqb_spec (total_replacements (run st2)) (total_replacements r));
    cbn [negb orb]; split; intros H; try done; try lia.
Qed.

(** ** The walk over the files *)

Section walker_facts.

Context (data : dict).

Lemma engine_files_modified (rel : string) (lines : list string) (r : run_state) :
  total_files_modified (run (engine data rel lines r).2) = total_files_modified r.
Proof.
  unfold engine.
  pose proof (section_loop_pass1 data rel lines 0
                (set_sections [] (FileState [] false r))) as H1.
  unfold section_pass.
  destruct (section_loop data rel 0 lines _) as [sml st1]. cbn [snd] in H1.
  pose proof (param_fold_pass2 data rel sml (seq 0 (length sml)) sml st1 None) as H2.
  unfold param_pass, param_loop.
  destruct (foldl (param_step data rel sml) (sml, st1, None) _) as [[final st2] r2].
  cbn [snd] in *. destruct H1 as [H1 _], H2 as [H2 _]. by rewrite H2, H1.
Qed.

(** What one turn of the loop over the files adds: at most one effect, on
    the path of the file; a copy only out of place; a written file has been
    counted as modified, and a file counted as modified is written when its
    output path is writable. *)
Lemma process_file_step (in_place : bool) (rep : run_report) (f : input_file) :
  ∃ added modified,
    effects (turn_report (process_file data in_place rep f)) = effects rep ++ added
    ∧ total_files_modified (state (turn_report (process_file data in_place rep f)))
      = (total_files_modified (state rep) + modified)%nat
    ∧ (length added ≤ 1)%nat
    ∧ (in_place = true → Forall (λ e, is_written e = true) added)
    ∧ (length (List.filter is_written added) ≤ modified)%nat
    ∧ (output_writable f = true → length (List.filter is_written added) = modified)
    ∧ (in_place = false → accessible data f = true →
       turn_exception (process_file data in_place rep f) = None
       ∧ effect_path <$> added = [relative_path f]).
Proof.
  unfold process_file, accessible.
  destruct (negb in_place && negb (parent_creatable f)) eqn:Hdir.
  { exists [], 0%nat. cbn. rewrite app_nil_r.
    apply andb_prop in Hdir as [_ ->%negb_true_iff].
    repeat split; try done; try lia. }
  destruct (read_lines f) as [lines|].
  - pose proof (engine_files_modified (relative_path f) lines
                  (log_run [(INFO, ProcessingFile (relative_path f))] (state rep)))
      as Hfiles.
    destruct (engine_rel data (relative_path f) (relative_path f) lines
                (log_run [(INFO, ProcessingFile (relative_path f))] (state rep))
                (RunState 0 0 0 [])) as (_ & <- & _).
    destruct (engine data (relative_path f) lines _) as [final st].
    cbn [snd] in Hfiles. change (total_files_modified (log_run _ (state rep)))
      with (total_files_modified (state rep)) in Hfiles.
    destruct (engine_raised data (relative_path f) lines _) as [e|].
    { exists [], 0%nat. cbn. rewrite Hfiles, app_nil_r, andb_false_r.
      repeat split; try done; try lia. }
    rewrite (bool_decide_eq_true_2 _ eq_refl), andb_true_r.
    destruct (file_was_modified st).
    + destruct (output_writable f) eqn:Hw.
      * exists [Written (relative_path f) final], 1%nat. cbn. rewrite Hfiles.
        repeat split; try done; try lia. intros _. by repeat constructor.
      * exists [], 1%nat. cbn. rewrite Hfiles, app_nil_r, andb_false_r.
        repeat split; try done; try lia.
    + destruct in_place; cbn [negb].
      * exists [], 0%nat. cbn. rewrite Hfiles, app_nil_r.
        repeat split; try done; try lia.
      * destruct (output_writable f) eqn:Hw.
        -- exists [Copied (relative_path f)], 0%nat. cbn. rewrite Hfiles.
           repeat split; try done; try lia.
        -- exists [], 0%nat. cbn. rewrite Hfiles, app_nil_r, andb_false_r.
           repeat split; try done; try lia.
  - exists [], 0%nat. cbn. rewrite app_nil_r, andb_false_r.
    repeat split; try done; try lia.
Qed.

Lemma process_loop_steps (in_place : bool) (files : list input_file) :
  ∀ rep, ∃ added modified,
    effects (turn_report (process_loop data in_place files rep)) = effects rep ++ added
    ∧ total_files_modified (state (turn_report (process_loop data in_place files rep)))
      = (total_files_modified (state rep) + modified)%nat
    ∧ (length added ≤ length files)%nat
    ∧ (in_place = true → Forall (λ e, is_written e = true) added)
    ∧ (length (List.filter is_written added) ≤ modified)%nat
    ∧ (Forall (λ f, output_writable f = true) files →
       length (List.filter is_written added) = modified)
    ∧ (in_place = false → Forall (λ f, accessible data f = true) files →
       turn_exception (process_loop data in_place files rep) = None
       ∧ effect_path <$> added = relative_path <$> files).
Proof.
  induction files as [|f files IH]; intros rep.
  - exists [], 0%nat. cbn. rewrite app_nil_r. repeat split; try done; lia.
  - cbn [process_loop].
    destruct (process_file_step in_place rep f)
      as (a1 & m1 & He1 & Hm1 & Hl1 & Hw1 & Hc1 & Hq1 & Hp1).
    destruct (process_file data in_place rep f) as [rep1|e rep1] eqn:Hturn;
      cbn [turn_report turn_exception] in *.
    + destruct (IH rep1) as (a2 & m2 & He2 & Hm2 & Hl2 & Hw2 & Hc2 & Hq2 & Hp2).
      exists (a1 ++ a2), (m1 + m2)%nat.
      rewrite He2, He1, Hm2, Hm1, <- app_assoc, List.filter_app, !length_app.
      split; [done |]. split; [lia |]. split; [cbn; lia |].
      split; [intros Hin; apply Forall_app; auto |].
      split; [lia |]. split.
      * intros [Hf Hfiles]%Forall_cons. rewrite (Hq1 Hf), (Hq2 Hfiles). done.
      * intros Hout [Hf Hfiles]%Forall_cons.
        destruct (Hp1 Hout Hf) as [_ Hpath1], (Hp2 Hout Hfiles) as [Hnone Hpath2].
        split; [done |]. by rewrite fmap_app, Hpath1, Hpath2.
    + exists a1, m1. split; [done |]. split; [done |]. split; [cbn; lia |].
      split; [done |]. split; [done |]. split.
      * intros [Hf _]%Forall_cons. auto.
      * intros Hout [Hf _]%Forall_cons. by destruct (Hp1 Hout Hf).
Qed.

Lemma process_files_report (output_dir_creatable : bool) (input_dir output_dir : string)
    (files : list input_file) (rep : run_report) :
  process_files true output_dir_creatable input_dir output_dir files data = Returned rep →
  ∃ rep0,
    process_loop data (in_place_run input_dir output_dir) files
      (RunReport (RunState 0 0 0 []) []) = Continue rep0
    ∧ effects rep = effects rep0
    ∧ total_files_modified (state rep) = total_files_modified (state rep0).
Proof.
  unfold process_files, in_place_run. cbn [negb].
  destruct (negb _ && negb _); [done |].
  destruct (process_loop data _ files _) as [rep0|e rep0]; [| done].
  intros [= <-]. by exists rep0.
Qed.

End walker_facts.





(** X21: The total of files modified counts the files the engine changed, not
    the files written: the files written with new content are never more
    than that total, and they are exactly as many when every output path is
    writable. *)
Theorem files_modified_counts_engine_changes (data : dict)
    (output_dir_creatable : bool) (input_dir output_dir : string)
    (files : list input_file) (rep : run_report) :
  process_files true output_dir_creatable input_dir output_dir files data = Returned rep →
  (length (List.filter is_written (effects rep)) ≤ total_files_modified (state rep))%nat
  ∧ (Forall (λ f, output_writable f = true) files →
     length (List.filter is_written (effects rep)) = total_files_modified (state rep)).
Proof.
  intros (rep0 & Hloop & -> & ->)%process_files_report.
  destruct (process_loop_steps data (in_place_run input_dir output_dir) files
              (RunReport (RunState 0 0 0 []) []))
    as (added & modified & He & Hm & _ & _ & Hle & Heq & _).
  rewrite Hloop in He, Hm. cbn [turn_report effects state total_files_modified app] in *.
  rewrite He, Hm. split; [lia |].
  intros Hfiles. by rewrite (Heq Hfiles).
Qed.

Lemma files_modified_counts_engine_changes_witness :
  (length (List.filter is_written ([] : list fs_effect)) ≤ 1)%nat.
Proof.
  refine (proj1 (files_modified_counts_engine_changes flag_off true "conf" "conf"
           [InputFile "a.conf" true (Some flag_file) false]
           (RunReport
              (RunState 1 0 1
                 [(INFO, ProcessingFile "a.conf"); (INFO, WritingModifiedFile "a.conf");
                  (ERROR, UnexpectedError "a.conf"); (INFO, ProcessingFinished 1 0 1)])
              []) _)).
  by_computation.
Defined.

(** ** The keys of a merged dictionary *)

Section merged_keys_facts.

Lemma dict_get_Some_elem (k : string) (d : dict) (v : yaml_value) :
  dict_get k d = Some v → k ∈ d.*1.
Proof.
  intros Hget. destruct (decide (k ∈ d.*1)) as [|Hk]; [done |].
  apply dict_get_None in Hk. congruence.
Qed.

Lemma keys_dict_set (k : string) (v : yaml_value) (d : dict) :
  (dict_set k v d).*1 = if bool_decide (k ∈ d.*1) then d.*1 else d.*1 ++ [k].
Proof.
  induction d as [|[k' w] d IH]; [done |].
  cbn [dict_set]. destruct (String.eqb_spec k' k) as [->|Hne]; rewrite !fmap_cons.
  - cbn [fst]. rewrite bool_decide_eq_true_2; [done | by left].
  - cbn [fst]. rewrite IH. destruct (decide (k ∈ d.*1)) as [Hin|Hout].
    + rewrite !bool_decide_eq_true_2; [done | by right | done].
    + rewrite !bool_decide_eq_false_2; [done | | done].
      intros [?|?]%elem_of_cons; [congruence | done].
Qed.

Lemma keys_merge_entry (k : string) (v : yaml_value) (d : dict) :
  (merge_entry k v d).*1 = if bool_decide (k ∈ d.*1) then d.*1 else d.*1 ++ [k].
Proof.
  destruct (is_dict v) eqn:Hdict.
  - destruct v; try discriminate. rewrite merge_entry_dict.
    destruct (dict_get k d) as [x|] eqn:Hget.
    + assert ((dict_set k x d).*1
              = if bool_decide (k ∈ d.*1) then d.*1 else d.*1 ++ [k]) as <-
        by apply keys_dict_set.
      destruct x; by rewrite !keys_dict_set.
    + apply dict_get_None in Hget as Hout.
      rewrite keys_dict_set, keys_dict_set.
      rewrite (bool_decide_eq_false_2 _ Hout).
      rewrite bool_decide_eq_true_2; [done |].
      apply elem_of_app. right. by left.
  - rewrite (merge_entry_scalar _ _ _ Hdict). apply keys_dict_set.
Qed.

Lemma unique_keys_NoDup (d : dict) : unique_keys (VDict d) = true → NoDup d.*1.
Proof.
  induction d as [|[k w] d IH]; [intros _; constructor |].
  rewrite unique_keys_cons. intros [[Hk _]%andb_prop Hd]%andb_prop.
  apply negb_true_iff, bool_decide_eq_false in Hk.
  rewrite fmap_cons. constructor; [done | by apply IH].
Qed.

Lemma filter_fresh_ext (seen : list string) (k : string) (l : list string) :
  k ∉ l →
  List.filter (λ x, negb (bool_decide (x ∈ seen ++ [k]))) l
  = List.filter (λ x, negb (bool_decide (x ∈ seen))) l.
Proof.
  intros Hk. apply List.filter_ext_in. intros x Hx%list_elem_of_In.
  f_equal. apply bool_decide_ext. rewrite elem_of_app, list_elem_of_singleton.
  split; [intros [? | ->]; [done | by destruct Hk] | by left].
Qed.

End merged_keys_facts.

(** X22: The merge keeps the order of the keys: the keys of the accumulator stay
    where they are, and the keys the source brings are appended after them
    in the order of the source.  So the first data file that names a key
    decides its place in the merged mapping. *)
Theorem deep_merge_key_order (target source : dict) :
  unique_keys (VDict source) = true →
  (deep_merge target source).*1
  = target.*1 ++ List.filter (λ k, negb (bool_decide (k ∈ target.*1))) source.*1.
Proof.
  intros Hnd%unique_keys_NoDup. revert target. revert Hnd.
  induction source as [|[k v] source IH]; intros Hnd target.
  - by rewrite deep_merge_nil, app_nil_r.
  - rewrite fmap_cons in Hnd. cbn [fst] in Hnd. apply NoDup_cons in Hnd as [Hk Hnd].
    rewrite deep_merge_cons, (IH Hnd), keys_merge_entry, (fmap_cons fst).
    cbn [fst List.filter].
    destruct (decide (k ∈ target.*1)) as [Hin|Hout].
    + by rewrite !(bool_decide_eq_true_2 _ Hin).
    + rewrite !(bool_decide_eq_false_2 _ Hout). cbn [negb].
      rewrite (filter_fresh_ext _ _ _ Hk), <- app_assoc. done.
Qed.

Lemma deep_merge_key_order_witness :
  (deep_merge [("b", VInt 1); ("a", VInt 2)] [("c", VInt 3); ("a", VInt 4)]).*1
  = [("b", VInt 1); ("a", VInt 2)].*1
      ++ List.filter (λ k, negb (bool_decide (k ∈ [("b", VInt 1); ("a", VInt 2)].*1)))
           [("c", VInt 3); ("a", VInt 4)].*1.
Proof.
  apply (deep_merge_key_order [("b", VInt 1); ("a", VInt 2)] [("c", VInt 3); ("a", VInt 4)]).
  reflexivity.
Defined.

Section merged_unique_facts.

Lemma unique_dict_get (k : string) (d : dict) (v : yaml_value) :
  unique_keys (VDict d) = true → dict_get k d = Some v → unique_keys v = true.
Proof.
  induction d as [|[k' w] d IH]; [done |].
  rewrite unique_keys_cons. intros [[_ Hw]%andb_prop Hd]%andb_prop.
  cbn [dict_get]. destruct (String.eqb k' k); [by intros [= <-] | by apply IH].
Qed.

Lemma unique_dict_set (k : string) (x : yaml_value) (d : dict) :
  unique_keys (VDict d) = true → unique_keys x = true →
  unique_keys (VDict (dict_set k x d)) = true.
Proof.
  intros Hd Hx. induction d as [|[k' w] d IH].
  - cbn [dict_set]. rewrite unique_keys_cons, Hx.
    by rewrite bool_decide_eq_false_2 by apply not_elem_of_nil.
  - rewrite unique_keys_cons in Hd.
    apply andb_prop in Hd as [[Hk Hw]%andb_prop Hd].
    cbn [dict_set]. destruct (String.eqb_spec k' k) as [->|Hne].
    + by rewrite unique_keys_cons, Hk, Hx, Hd.
    + rewrite unique_keys_cons, Hw, (IH Hd), andb_true_r, andb_true_r.
      apply negb_true_iff, bool_decide_eq_false in Hk.
      apply negb_true_iff, bool_decide_eq_false. rewrite keys_dict_set.
      destruct (bool_decide (k ∈ d.*1)); [done |].
      intros [?|?%list_elem_of_singleton]%elem_of_app; [done | congruence].
Qed.

Lemma unique_merge_entry (k : string) (w : yaml_value) (t : dict) :
  unique_keys (VDict t) = true → unique_keys w = true →
  (∀ sd, w = VDict sd → ∀ t', unique_keys (VDict t') = true →
     unique_keys (VDict (deep_merge t' sd)) = true) →
  unique_keys (VDict (merge_entry k w t)) = true.
Proof.
  intros Ht Hw IHw. destruct (is_dict w) eqn:Hdict.
  - destruct w as [| | | | | | |sd]; try discriminate. rewrite merge_entry_dict.
    destruct (dict_get k t) as [x|] eqn:Hget.
    + pose proof (unique_dict_get _ _ _ Ht Hget) as Hx.
      destruct x; try (by apply unique_dict_set).
      apply unique_dict_set; [done |]. by apply (IHw sd eq_refl).
    + apply unique_dict_set; [by apply unique_dict_set |].
      by apply (IHw sd eq_refl).
  - rewrite (merge_entry_scalar _ _ _ Hdict). by apply unique_dict_set.
Qed.

End merged_unique_facts.

(** X23: The merge keeps a dictionary a dictionary: when no key occurs twice at
    any level of the accumulator or of the source, no key occurs twice at
    any level of the merged result. *)
Theorem deep_merge_keeps_keys_unique (target source : dict) :
  unique_keys (VDict target) = true → unique_keys (VDict source) = true →
  unique_keys (VDict (deep_merge target source)) = true.
Proof.
  intros Ht Hs. revert target Ht. revert Hs.
  revert source.
  enough (∀ v, unique_keys v = true → ∀ source, v = VDict source →
            ∀ target, unique_keys (VDict target) = true →
            unique_keys (VDict (deep_merge target source)) = true) as H.
  { intros source Hu. by apply (H (VDict source)). }
  induction v as [| | | | | | |d IH] using yaml_value_nested_ind; try discriminate.
  intros Hu source [= <-].
  induction d as [|[k w] d IHd]; intros target Ht; [done |].
  rewrite unique_keys_cons in Hu.
  apply andb_prop in Hu as [[Hk Hw]%andb_prop Hd].
  apply Forall_cons in IH as [IHw IHrest]. cbn [snd] in IHw.
  rewrite deep_merge_cons. apply (IHd IHrest Hd).
  apply unique_merge_entry; [done | done |]. intros sd ->. by apply IHw.
Qed.

Lemma deep_merge_keeps_keys_unique_witness :
  unique_keys (VDict (deep_merge example_A example_B)) = true.
Proof.
  apply (deep_merge_keeps_keys_unique example_A example_B); reflexivity.
Defined.

(** ** Directives need a hash sign *)

Section hash_facts.

Lemma re_match_needs_char (c : ascii) (r : regex) (s : string) :
  match s with
  | String c' _ => Ascii.eqb c c' = false
  | EmptyString => True
  end →
  re_match (Seq (Chr c) r) s = None.
Proof.
  unfold re_match. cbn [m]. destruct s as [|c' s]; [done |]. by intros ->.
Qed.

Lemma re_search_needs_hash (r : regex) (s : string) :
  no_hash s = true → re_search (Seq (Chr "#") r) s = None.
Proof.
  induction s as [|c s IH]; intros Hs.
  - unfold re_search. by rewrite re_match_needs_char.
  - unfold no_hash in Hs. cbn [all_chars] in Hs.
    apply andb_prop in Hs as [Hc Hs]. apply negb_true_iff in Hc.
    rewrite re_search_skip by (by apply re_match_needs_char).
    by rewrite (IH Hs).
Qed.

Lemma no_hash_plain (line : string) :
  no_hash line = true →
  is_marker_line line = false ∧ re_search param_re line = None.
Proof.
  intros Hs. unfold is_marker_line, section_begin_match, section_end_match.
  unfold section_begin_re, section_end_re, param_re.
  rewrite !(re_search_needs_hash _ _ Hs). split; [| done].
  by rewrite !bool_decide_eq_false_2 by (by intros [? ?]).
Qed.

End hash_facts.

(** X24: A file without a hash sign goes through the engine untouched: every
    directive starts with a hash sign, so no line is a marker or a
    parameter directive, both passes return the lines as they are, nothing
    is counted and nothing is logged. *)
Theorem file_without_hash_is_untouched (data : dict) (rel : string)
    (lines : list string) (r : run_state) :
  Forall (λ line, no_hash line = true) lines →
  engine data rel lines r = (lines, FileState [] false r).
Proof.
  intros Hlines. unfold engine, section_pass.
  assert (Hloop : ∀ i st, active_sections st = [] →
            section_loop data rel i lines st = (lines, st)).
  { induction Hlines as [|line lines Hline Hlines IH]; intros i st Hst; [done |].
    rewrite section_loop_cons. cbv zeta.
    rewrite (section_step_plain _ _ _ _ _ (proj1 (no_hash_plain _ Hline))), Hst.
    cbn [fst snd]. by rewrite (IH (S i) st Hst). }
  rewrite (Hloop 0 (set_sections [] (FileState [] false r)) eq_refl).
  unfold param_pass, param_loop. change (set_sections [] (FileState [] false r))
    with (FileState [] false r).
  assert (Hfold : ∀ indices st,
            foldl (param_step data rel lines) (lines, st, None) indices
            = (lines, st, None)).
  { induction indices as [|i indices IH]; intros st; [done |].
    cbn [foldl]. rewrite param_step_no_directive; [apply IH |].
    intros line Hline. apply no_hash_plain.
    by apply (Forall_lookup_1 _ _ _ _ Hlines Hline). }
  by rewrite Hfold.
Qed.

Lemma file_without_hash_is_untouched_witness :
  engine flag_off "app.conf" [ln "key: 1"; ln "@section flag begin"; ln "name = x"] run_start
  = ([ln "key: 1"; ln "@section flag begin"; ln "name = x"], FileState [] false run_start).
Proof.
  apply (file_without_hash_is_untouched flag_off "app.conf"
           [ln "key: 1"; ln "@section flag begin"; ln "name = x"] run_start).
  by_computation.
Defined.

(** ** A section and its value *)

(** X25: Only the boolean false switches a section off, and a section that is
    never closed runs to the end of the file: after a begin marker, the
    lines that are no markers are commented out when the value at the path
    is exactly [False], and uncommented for every other value, also when
    the path is absent or null. *)
Theorem section_value_decides_policy (data : dict) (rel : string) (i : nat)
    (st : file_state) (begin path : string) (body : list string) :
  group1 (section_begin_match begin) = Some path →
  Forall (λ l, is_marker_line l = false) body →
  (section_loop data rel i (begin :: body) st).1
  = begin :: map (if is_False (get_value_by_path data path).1
                  then commented_out else uncommented) body.
Proof.
  intros Hbegin Hbody. rewrite section_loop_cons. cbv zeta.
  rewrite (section_step_begin data rel _ _ _ _ Hbegin). cbn [fst snd]. f_equal.
  set (f := Frame path (is_False (get_value_by_path data path).1)).
  destruct (section_loop_plain data rel f (active_sections st) body Hbody (S i)
              (set_sections (f :: active_sections st)
                 (add_log (get_value_by_path data path).2 st)) eq_refl) as [-> _].
  destruct (is_False (get_value_by_path data path).1) eqn:Hv.
  - by rewrite (governed_commented f).
  - by rewrite (governed_uncommented f).
Qed.

Lemma section_value_decides_policy_witness :
  (section_loop [] "app.conf" 0 (ln "# @section missing begin" :: [ln "# key: 1"])
     (FileState [] false run_start)).1
  = ln "# @section missing begin"
      :: map (if is_False (get_value_by_path [] "missing").1
              then commented_out else uncommented) [ln "# key: 1"].
Proof.
  apply (section_value_decides_policy [] "app.conf" 0 (FileState [] false run_start)
           (ln "# @section missing begin") "missing" [ln "# key: 1"]);
    by_computation.
Defined.

(** X26: Pass 1 never touches a directive that is commented out: a line whose
    text after its first hash sign, leading whitespace aside, starts with
    [@param] or [@section] is left as it is under every frame. *)
Theorem commented_directive_is_kept (f : frame) (indent rest : string) :
  all_chars is_space indent = true →
  startswith "@param" (lstrip rest) || startswith "@section" (lstrip rest) = true →
  governed f (indent +:+ String "#" rest) = indent +:+ String "#" rest.
Proof.
  intros Hindent Hguard. unfold governed, commented_out, uncommented.
  rewrite (commented_line _ _ Hindent).
  destruct (should_be_commented f); cbn [negb andb]; [done |].
  rewrite (re_sub1_hash _ _ Hindent), (lstrip_app_spaces _ _ Hindent), lstrip_drop_space.
  destruct (startswith "@param" (lstrip rest)); [done |].
  destruct (startswith "@section" (lstrip rest)); [done | discriminate].
Qed.

Lemma commented_directive_is_kept_witness :
  governed (Frame "flag" false) ("  " +:+ String "#" (ln " @param db.port"))
  = "  " +:+ String "#" (ln " @param db.port").
Proof.
  apply (commented_directive_is_kept (Frame "flag" false) "  " (ln " @param db.port"));
    reflexivity.
Defined.

(** ** The formatted string *)

(** X27: A string value always comes out in quotes: the text the formatter
    returns for a string starts and ends with a double quote, or starts and
    ends with a single quote. *)
Theorem formatted_string_is_quoted (s : string) :
  quoted <$> format_value_for_file (VStr s) = Some true.
Proof.
  rewrite format_str. cbn [fmap option_fmap option_map]. f_equal.
  destruct (quoted s) eqn:Hq; [done | apply quoted_wrap].
Qed.
